(** * pax: peak finding, event clustering and ordered dispatch

    A shallow embedding of the algorithmic core of pax:
    - [pax/dsputils.py]: [sign_changes], [intervals_above_threshold],
      [find_first_fast], [peak_bounds], [width_at_fraction],
      [find_peak_in_signal], [free_regions], [peaks_and_valleys];
    - [pax/plugins/io/MongoDB.py]: [sampletime_fmt], [IOMongoDB.chunks],
      [MongoDBReadUntriggered.sliding_window];
    - the block queue plugins exercised by [tests/test_multiprocessing.py].

    Samples are rationals ([Q]) so that the kernel convolution and the
    fraction-of-maximum threshold are computed exactly; indices and
    timestamps are integers ([Z]); the time that [sampletime_fmt] scales is
    a binary64 float, divided as the machine divides it; Python exceptions
    are values of [exn] carried by the [result] monad. *)

From Stdlib Require Import ZArith QArith Lia Lqa Sorted.
From Corelib Require Import PrimFloat.
From stdpp Require Import gmap list sorting strings.

Local Open Scope Z_scope.

(** ** Exceptions and the error monad *)

Inductive exn : Type :=
  | RuntimeError
  | ValueError
  | IndexError
  | AssertionError.

Inductive result (A : Type) : Type :=
  | Ok (a : A)
  | Raise (e : exn).
Arguments Ok {A} a.
Arguments Raise {A} e.

(** [result] is a monad for stdpp's [x ← r; k] notation. *)
#[global] Instance result_bind : MBind result := fun A B k r =>
  match r with
  | Ok a => k a
  | Raise e => Raise e
  end.

(** ** Rational comparisons *)

Definition Qltb (x y : Q) : bool :=
  match (x ?= y)%Q with Lt => true | _ => false end.

Definition Qgtb (x y : Q) : bool := Qltb y x.

(** Python's [min(a, b)]: the first argument unless the second is smaller. *)
Definition py_min (a b : Q) : Q := if Qltb b a then b else a.

(** ** Python sequences *)

(** [l[k]] with Python's negative indices; [IndexError] out of range. *)
Definition py_index {A : Type} (l : list A) (k : Z) : result A :=
  let n := Z.of_nat (length l) in
  let k' := if k <? 0 then k + n else k in
  if (k' <? 0) || (n <=? k') then Raise IndexError
  else match l !! Z.to_nat k' with
       | Some x => Ok x
       | None => Raise IndexError
       end.

(** [l[lo:hi]] for indices that are not negative. *)
Definition py_slice {A : Type} (l : list A) (lo hi : nat) : list A :=
  take (hi - lo) (drop lo l).

(** Positions of the entries of a boolean array that hold: [np.where(b)[0]]
    and [b.nonzero()]. *)
Fixpoint np_where_from (i : Z) (b : list bool) : list Z :=
  match b with
  | [] => []
  | x :: b' => if x then i :: np_where_from (i + 1) b' else np_where_from (i + 1) b'
  end.

Definition np_where (b : list bool) : list Z := np_where_from 0 b.

(** Ascending sort of integers ([sorted], [np.sort]). *)
Fixpoint insert_sorted (x : Z) (l : list Z) : list Z :=
  match l with
  | [] => [x]
  | y :: l' => if x <=? y then x :: l else y :: insert_sorted x l'
  end.

Fixpoint sorted (l : list Z) : list Z :=
  match l with
  | [] => []
  | x :: l' => insert_sorted x (sorted l')
  end.

(** [np.argmax]: position of the first occurrence of the maximum;
    [ValueError] on an empty array. *)
Fixpoint argmax_from (best : Q) (besti i : Z) (l : list Q) : Z :=
  match l with
  | [] => besti
  | x :: l' => if Qltb best x then argmax_from x i (i + 1) l'
               else argmax_from best besti (i + 1) l'
  end.

Definition np_argmax (l : list Q) : result Z :=
  match l with
  | [] => Raise ValueError
  | x :: l' => Ok (argmax_from x 0 1 l')
  end.

Definition np_sum (l : list Q) : Q := foldr Qplus 0%Q l.

(** * Definitions *)

Module SignalMath.

(** ** [sign_changes] *)

Inductive report_first_index : Type :=
  | positive
  | non_positive
  | never.

(** [np.clip(np.sign(signal), 0, inf)]: 1 where the sample is positive,
    0 elsewhere. *)
Definition above0_of (signal : list Q) : list Z :=
  map (fun x => if Qltb 0 x then 1 else 0) signal.

(** The value written by [above0[-1] = ...] for each policy. *)
Definition first_index_marker (p : report_first_index) : Z :=
  match p with
  | positive => 0
  | non_positive => 1
  | never => -1234
  end.

(** [a[-1] = c]: overwrites the last entry; [IndexError] on an empty array. *)
Definition set_last (a : list Z) (c : Z) : result (list Z) :=
  match a with
  | [] => Raise IndexError
  | _ :: _ => Ok (removelast a ++ [c])
  end.

(** [np.roll(a, 1)]: the last entry moves to the front. *)
Definition np_roll1 (a : list Z) : list Z :=
  match a with
  | [] => []
  | _ :: _ => List.last a 0 :: removelast a
  end.

(** The positions at which the signal becomes positive and those at
    which it becomes non-positive. *)
Definition sign_changes (signal : list Q) (policy : report_first_index)
  : result (list Z * list Z) :=
  above0 ← set_last (above0_of signal) (first_index_marker policy);
  let above0_next := np_roll1 above0 in
  let diff := zip_with Z.sub above0 above0_next in
  let becomes_positive := sorted (np_where (map (fun d => d =? 1) diff)) in
  let becomes_non_positive :=
    sorted (map (fun i => i - 1) (np_where (map (fun d => d =? -1) diff))) in
  Ok (becomes_positive, becomes_non_positive).

(** ** [intervals_above_threshold] *)

(** The [zip] of one iterator with itself: consecutive entries are paired
    and an odd last entry is dropped. *)
Fixpoint pairs (l : list Z) : list (Z * Z) :=
  match l with
  | a :: b :: l' => (a, b) :: pairs l'
  | _ => []
  end.

(** Boundary indices of the intervals in the signal above the threshold. *)
Definition intervals_above_threshold (signal : list Q) (threshold : Q)
  : result (list (Z * Z)) :=
  '(cross_above, cross_below) ←
     sign_changes (map (fun x => (x - threshold)%Q) signal) positive;
  Ok (pairs (sorted (cross_above ++ cross_below))).

End SignalMath.

Module PeakBounds.

(** ** [find_first_fast] *)

Definition chunk_size : nat := 128.

(** [chain(range(chunk_size, a.size, chunk_size), [None])] *)
Definition chunk_inds (size : nat) : list (option nat) :=
  map (fun k => Some (chunk_size * S k)%nat) (seq 0 ((size - 1) / chunk_size))
  ++ [None].

(** [a[i0:i1]], where [i1] may be [None]. *)
Definition chunk_of {A : Type} (a : list A) (i0 : nat) (i1 : option nat) : list A :=
  match i1 with
  | Some i1 => py_slice a i0 i1
  | None => drop i0 a
  end.

(** The [for i1 in chunk_inds] loop: [Some] is the [return] inside the
    loop, [None] is falling out of it. *)
Fixpoint scan_chunks (a : list Q) (predicate : Q -> bool) (i0 : nat)
    (inds : list (option nat)) : option Z :=
  match inds with
  | [] => None
  | i1 :: inds' =>
      match np_where (map predicate (chunk_of a i0 i1)) with
      | ind :: _ => Some (ind + Z.of_nat i0)
      | [] =>
          match i1 with
          | Some i1' => scan_chunks a predicate i1' inds'
          | None => None
          end
      end
  end.

(** The position of the first entry on which the predicate holds; the
    last position when there is none. *)
Definition find_first_fast (a : list Q) (predicate : Q -> bool) : Z :=
  match scan_chunks a predicate 0 (chunk_inds (length a)) with
  | Some i => i
  | None => Z.of_nat (length a) - 1
  end.

(** ** [peak_bounds] *)

(** [signal[max_idx::-1]]: the samples from [max_idx] down to the first,
    with Python's treatment of a negative start. *)
Definition slice_down {A : Type} (signal : list A) (max_idx : Z) : list A :=
  let n := Z.of_nat (length signal) in
  let k := if max_idx <? 0 then max_idx + n else max_idx in
  if k <? 0 then [] else reverse (take (Z.to_nat (Z.min k (n - 1)) + 1) signal).

(** [signal[max_idx:]] *)
Definition slice_from {A : Type} (signal : list A) (max_idx : Z) : list A :=
  let n := Z.of_nat (length signal) in
  let k := if max_idx <? 0 then Z.max (max_idx + n) 0 else max_idx in
  drop (Z.to_nat k) signal.

(** [find_first_fast] returns a position also when nothing is found, so
    the two [is None] tests of the source never fire. *)
Definition peak_bounds (signal : list Q) (max_idx : Z) (fraction_of_max : Q)
    (zero_level : Q) : result (Z * Z) :=
  if (length signal =? 0)%nat then Raise RuntimeError
  else
    height ← py_index signal max_idx;
    let threshold := py_min zero_level (height * fraction_of_max)%Q in
    let threshold_test := fun x => Qltb x threshold in
    if Qltb height threshold then Ok (max_idx, max_idx)
    else
      let left_ := find_first_fast (slice_down signal max_idx) threshold_test in
      let right_ := find_first_fast (slice_from signal max_idx) threshold_test in
      let right_ := right_ + max_idx in
      let left_ := max_idx - left_ in
      Ok (left_, right_).

(** Width of a peak in samples at a fraction of its maximum. *)
Definition width_at_fraction (peak_wave : list Q) (fraction_of_max : Q)
    (max_idx : Z) : result Z :=
  '(left_, right_) ← peak_bounds peak_wave max_idx fraction_of_max 0%Q;
  Ok (right_ - left_ + 1).

(** ** [find_peak_in_signal] *)

Record Peak : Type := mkPeak {
  index_of_maximum : Z;
  height : Q;
  left_ : Z;
  right_ : Z;
  area : Q
}.

(** [a[lo:hi]] with Python's treatment of negative bounds. *)
Definition py_slice_Z {A : Type} (a : list A) (lo hi : Z) : list A :=
  let n := Z.of_nat (length a) in
  let norm := fun k => if k <? 0 then Z.max (k + n) 0 else k in
  py_slice a (Z.to_nat (norm lo)) (Z.to_nat (norm hi)).

(** Finds the peak in the candidate interval: maximum and extent from
    [signal], properties from [unfiltered]. *)
Definition find_peak_in_signal (signal unfiltered : list Q)
    (integration_bound_fraction : Q) (offset : Z) : result Peak :=
  max_idx ← np_argmax signal;
  '(left_, right_) ← peak_bounds signal max_idx integration_bound_fraction 0%Q;
  let area := np_sum (py_slice_Z unfiltered left_ (right_ + 1)) in
  unfiltered_max ← np_argmax (py_slice_Z unfiltered left_ (right_ + 1));
  h ← py_index unfiltered unfiltered_max;
  Ok {| index_of_maximum := offset + unfiltered_max;
        height := h;
        left_ := offset + left_;
        right_ := offset + right_;
        area := area |}.

End PeakBounds.

Module Refiner.
Import SignalMath.

(** ** [peaks_and_valleys] *)

(** From Xerawdp. *)
Definition derivative_kernel : list Q :=
  [ -3059 # 1000000; -35187 # 1000000; -118739 # 1000000; -143928 # 1000000;
    0; 143928 # 1000000; 118739 # 1000000; 35187 # 1000000; 3059 # 1000000 ]%Q.

(** [np.convolve(a, v, mode='full')]: entry [k] is the sum over [j] of
    [a[j] * v[k - j]]. *)
Definition convolve_full (a v : list Q) : list Q :=
  map (fun k =>
         np_sum (imap (fun j x =>
                         if (j <=? k)%nat then (x * nth (k - j) v 0)%Q else 0%Q) a))
      (seq 0 (length a + length v - 1)).

(** [np.convolve(a, v, mode='same')] for [len(a) >= len(v)]: the middle
    [len(a)] entries of the full convolution. *)
Definition convolve_same (a v : list Q) : list Q :=
  take (length a) (drop ((length v - 1) / 2) (convolve_full a v)).

(** [slope[0:offset] = zeros(offset)] then [slope[len(slope) - offset:] =
    zeros(offset)]. *)
Definition zero_edges (offset : nat) (slope : list Q) : list Q :=
  let slope := replicate offset 0%Q ++ drop offset slope in
  take (length slope - offset) slope ++ replicate offset 0%Q.

(** [a[inds]]: the entries of [a] at the given positions. *)
Definition np_select (a : list Z) (inds : list Z) : list Z :=
  omap (fun i => a !! Z.to_nat i) inds.

(** [np.max], [np.min], [max] and [min] of an array: [ValueError] when it
    is empty. *)
Definition np_max (a : list Z) : result Z :=
  match a with
  | [] => Raise ValueError
  | x :: a' => Ok (foldl Z.max x a')
  end.

Definition np_min (a : list Z) : result Z :=
  match a with
  | [] => Raise ValueError
  | x :: a' => Ok (foldl Z.min x a')
  end.

(** [math.isnan] of an integer index. *)
Definition isnan (p : Z) : bool := false.

(** The candidate peaks and valleys, before the refinement loop. The
    offset [(len(derivative_kernel) - 1) / 2] is the float 4.0, which the
    numpy versions the code was written for accept as the index 4. *)
Definition candidates (signal : list Q) : result (list Z * list Z) :=
  let slope := convolve_same signal derivative_kernel in
  let offset := ((length derivative_kernel - 1) / 2)%nat in
  let slope := zero_edges offset slope in
  '(peaks, valleys) ← sign_changes slope never;
  let peaks := sorted peaks in
  let valleys := sorted valleys in
  if negb (length peaks =? length valleys)%nat then Raise AssertionError
  else
    let good_indices := np_where (zip_with (fun p v => negb (p =? v)) peaks valleys) in
    let peaks := np_select peaks good_indices in
    let valleys := np_select valleys good_indices in
    if negb (forallb id (zip_with (fun v p => p <? v) valleys peaks))
    then Raise RuntimeError
    else Ok (peaks, valleys).

Record loop_state : Type := mkState {
  peaks : list Z;
  valleys : list Z;
  now_at_peak : Z
}.

Inductive step : Type :=
  | Break
  | Continue (s : loop_state).

(** Which valley should we remove? *)
Definition valley_to_remove_of (signal : list Q) (fail_left fail_right : bool)
    (valley_left valley_right : Z) : result Z :=
  if fail_left && fail_right then
    sl ← py_index signal valley_left;
    sr ← py_index signal valley_right;
    Ok (if Qgtb sl sr then valley_left else valley_right)
  else if fail_left then Ok valley_left
  else Ok valley_right.

(** Remove the shallowest peak near the valley marked for removal. *)
Definition remove_peak (signal : list Q) (peaks : list Z) (valley_to_remove : Z)
  : result (list Z) :=
  left_peak ← np_max (filter (fun p => p < valley_to_remove) peaks);
  max_peak ← np_max peaks;
  if max_peak <? valley_to_remove then
    Ok (filter (fun p => p ≠ left_peak) peaks)
  else
    right_peak ← np_min (filter (fun p => p > valley_to_remove) peaks);
    sl ← py_index signal left_peak;
    sr ← py_index signal right_peak;
    if Qltb sl sr then Ok (filter (fun p => p ≠ left_peak) peaks)
    else Ok (filter (fun p => p ≠ right_peak) peaks).

(** The check of the valleys around this peak. Where the peak precedes
    every valley there is no left valley, and [fail_left] is [False]; the
    position returned for it is then never read. *)
Definition check_valleys (signal : list Q)
    (test_function : list Q -> Z -> Z -> bool) (valleys : list Z) (peak : Z)
  : result (bool * Z * bool * Z) :=
  min_valley ← np_min valleys;
  '(fail_left, valley_left) ←
    (if peak <? min_valley then Ok (false, 0)
     else
       valley_left ← np_max (filter (fun v => v < peak) valleys);
       Ok (negb (test_function signal peak valley_left), valley_left));
  valley_right ← np_min (filter (fun v => v > peak) valleys);
  let fail_right := negb (test_function signal peak valley_right) in
  Ok (fail_left, valley_left, fail_right, valley_right).

(** One pass through the body of the [while 1] loop. *)
Definition loop_body (signal : list Q) (test_function : list Q -> Z -> Z -> bool)
    (s : loop_state) : result step :=
  if Z.of_nat (length (peaks s)) - 1 <? now_at_peak s then Ok Break
  else
    peak ← py_index (peaks s) (now_at_peak s);
    if isnan peak then
      Ok (Continue (mkState (peaks s) (valleys s) (now_at_peak s + 1)))
    else
      '(fail_left, valley_left, fail_right, valley_right) ←
        check_valleys signal test_function (valleys s) peak;
      if negb (fail_left || fail_right) then
        Ok (Continue (mkState (peaks s) (valleys s) (now_at_peak s + 1)))
      else
        valley_to_remove ←
          valley_to_remove_of signal fail_left fail_right valley_left valley_right;
        peaks' ← remove_peak signal (peaks s) valley_to_remove;
        let now_at_peak' := Z.max 0 (now_at_peak s - 1) in
        let valleys' := filter (fun v => v ≠ valley_to_remove) (valleys s) in
        Ok (Continue (mkState peaks' valleys' now_at_peak')).

(** The [while 1] loop; [None] when the fuel runs out before the [break]. *)
Fixpoint refine_loop (fuel : nat) (signal : list Q)
    (test_function : list Q -> Z -> Z -> bool) (s : loop_state)
  : option (result (list Z * list Z)) :=
  match fuel with
  | O => None
  | S fuel' =>
      match loop_body signal test_function s with
      | Raise e => Some (Raise e)
      | Ok Break =>
          Some (Ok (filter (fun p => isnan p = false) (peaks s),
                    filter (fun v => isnan v = false) (valleys s)))
      | Ok (Continue s') => refine_loop fuel' signal test_function s'
      end
  end.

(** Fuel that suffices for the loop started on [n] candidate peaks. *)
Definition loop_fuel (n : nat) : nat := 2 * n + 1.

(** Peaks and valleys from the sign changes of the derivative, refined
    with [test_function]. *)
Definition peaks_and_valleys (signal : list Q)
    (test_function : list Q -> Z -> Z -> bool)
  : option (result (list Z * list Z)) :=
  if (length signal <? length derivative_kernel)%nat then Some (Ok ([], []))
  else
    match candidates signal with
    | Raise e => Some (Raise e)
    | Ok (peaks, valleys) =>
        if (length peaks <? 2)%nat then Some (Ok (peaks, valleys))
        else refine_loop (loop_fuel (length peaks)) signal test_function
               (mkState peaks valleys 0)
    end.

End Refiner.

Module EventClusterer.

(** ** [MongoDBReadUntriggered.sliding_window] *)

Record window_state : Type := mkWindow {
  ranges : list (Z * Z);
  i : Z;   (* Start of range to test *)
  j : Z    (* End of range to test *)
}.

(** [ranges[-1][1] = stop] *)
Definition set_last_stop (ranges : list (Z * Z)) (stop : Z) : list (Z * Z) :=
  match last ranges with
  | Some (start, _) => removelast ranges ++ [(start, stop)]
  | None => ranges
  end.

(** The body of [while j < x.size]. *)
Definition window_body (x : list Z) (window multiplicity left right : Z)
    (s : window_state) : result window_state :=
  xj ← py_index x (j s);
  xi ← py_index x (i s);
  if window <? xj - xi then
    ranges' ←
      (if multiplicity <? j s - i s then
         xlast ← py_index x (j s - 1);
         match last (ranges s) with
         | Some (_, stop) =>
             if xi <? stop + window
             then Ok (set_last_stop (ranges s) (xlast + right))
             else Ok (ranges s ++ [(xi + left, xlast + right)])
         | None => Ok (ranges s ++ [(xi + left, xlast + right)])
         end
       else Ok (ranges s));
    Ok (mkWindow ranges' (i s + 1) (j s))
  else Ok (mkWindow (ranges s) (i s) (j s + 1)).

(** The [while] loop; [None] when the fuel runs out before it exits. *)
Fixpoint window_loop (fuel : nat) (x : list Z) (window multiplicity left right : Z)
    (s : window_state) : option (result window_state) :=
  match fuel with
  | O => None
  | S fuel' =>
      if j s <? Z.of_nat (length x) then
        match window_body x window multiplicity left right s with
        | Raise e => Some (Raise e)
        | Ok s' => window_loop fuel' x window multiplicity left right s'
        end
      else Some (Ok s)
  end.

(** The flush after the loop. *)
Definition flush (x : list Z) (multiplicity left right : Z) (s : window_state)
  : result (list (Z * Z)) :=
  if multiplicity <? j s - i s then
    xi ← py_index x (i s);
    xlast ← py_index x (j s - 1);
    Ok (ranges s ++ [(xi + left, xlast + right)])
  else Ok (ranges s).

(** Fuel that suffices for the loop over [n] timestamps. *)
Definition window_fuel (n : nat) : nat := 2 * n + 1.

(** Sliding window cluster finder, with range extension. *)
Definition sliding_window (x : list Z) (window multiplicity left right : Z)
  : option (result (list (Z * Z))) :=
  if 0 <? left then Some (Raise ValueError)
  else
    match window_loop (window_fuel (length x)) x window multiplicity left right
            (mkWindow [] 0 0) with
    | None => None
    | Some (Raise e) => Some (Raise e)
    | Some (Ok s) => Some (flush x multiplicity left right s)
    end.

End EventClusterer.

Module Dispatcher.

(** ** The block queue plugins

    [pax/plugins/io/Queues.py] ([PushToSharedMemoryQueue],
    [PullFromSharedMemoryQueue], [NO_MORE_EVENTS]) is not among the source
    files; only its test is. *)

Section Dispatcher.
Context {Event : Type}.

(** Modelled from the spec: the payload of a block of
    [pax/plugins/io/Queues.py], an ordered sequence of events or the
    terminal sentinel. *)
Inductive payload : Type :=
  | Events (events : list Event)
  | NO_MORE_EVENTS.

(** Modelled from the spec: the producer state of [PushToSharedMemoryQueue]:
    the configured batch size, the partial block, the next sequence number
    and the blocks pushed to the queue so far. *)
Record producer : Type := mkProducer {
  batch_size : nat;
  pending : list Event;
  next_sequence : nat;
  queue : list (nat * payload)
}.

(** Modelled from the spec: pushing a block of [PushToSharedMemoryQueue],
    tagged with the next sequence number. *)
Definition push_block (p : producer) (b : payload) : producer :=
  mkProducer (batch_size p) [] (S (next_sequence p))
             (queue p ++ [(next_sequence p, b)]).

(** Modelled from the spec: [PushToSharedMemoryQueue.write_event], which
    buffers the event and pushes the block when it fills. *)
Definition write_event (p : producer) (e : Event) : producer :=
  let p' := mkProducer (batch_size p) (pending p ++ [e])
                       (next_sequence p) (queue p) in
  if (length (pending p') =? batch_size p')%nat
  then push_block p' (Events (pending p'))
  else p'.

(** Modelled from the spec: [PushToSharedMemoryQueue.shutdown], which
    flushes the partial block and pushes the sentinel. *)
Definition shutdown (p : producer) : producer :=
  let p' := match pending p with
            | [] => p
            | _ :: _ => push_block p (Events (pending p))
            end in
  push_block p' NO_MORE_EVENTS.

(** Modelled from the spec: the queue after the producer of
    [PushToSharedMemoryQueue] has written [events] and shut down. *)
Definition pushed (size : nat) (events : list Event) : list (nat * payload) :=
  queue (shutdown (foldl write_event (mkProducer size [] 0 []) events)).

(** Modelled from the spec: the consumer state of
    [PullFromSharedMemoryQueue]: the next expected sequence number and the
    blocks held back, keyed by sequence number. *)
Record consumer : Type := mkConsumer {
  next_expected : nat;
  held : gmap nat payload
}.

(** Modelled from the spec: draining the buffer of
    [PullFromSharedMemoryQueue] of the now-contiguous successors; the
    boolean tells that the sentinel was consumed. Every pass removes one
    held block, so [size (held c)] passes suffice. *)
Fixpoint drain (fuel : nat) (c : consumer) : list Event * bool * consumer :=
  match fuel with
  | O => ([], false, c)
  | S fuel' =>
      match held c !! next_expected c with
      | None => ([], false, c)
      | Some NO_MORE_EVENTS =>
          ([], true, mkConsumer (S (next_expected c))
                                (delete (next_expected c) (held c)))
      | Some (Events es) =>
          let '(out, finished, c') :=
            drain fuel' (mkConsumer (S (next_expected c))
                                    (delete (next_expected c) (held c))) in
          (es ++ out, finished, c')
      end
  end.

(** Modelled from the spec: what the consumer of
    [PullFromSharedMemoryQueue] does with one pulled block. A block that is
    not the next expected one is held in the buffer. *)
Definition on_block (c : consumer) (b : nat * payload)
  : list Event * bool * consumer :=
  if (b.1 =? next_expected c)%nat then
    match b.2 with
    | NO_MORE_EVENTS => ([], true, mkConsumer (S (next_expected c)) (held c))
    | Events es =>
        let c' := mkConsumer (S (next_expected c)) (held c) in
        let '(out, finished, c'') := drain (size (held c')) c' in
        (es ++ out, finished, c'')
    end
  else ([], false, mkConsumer (next_expected c) (<[b.1 := b.2]> (held c))).

(** Modelled from the spec: how a run of
    [PullFromSharedMemoryQueue.get_events] over the blocks that arrive
    ends: it has consumed the sentinel, or it blocks on the empty queue. *)
Inductive outcome : Type :=
  | Terminated
  | Waiting.

(** Modelled from the spec: the consumer loop of
    [PullFromSharedMemoryQueue.get_events] over the blocks in arrival
    order. *)
Fixpoint consume (c : consumer) (arrivals : list (nat * payload))
  : list Event * outcome :=
  match arrivals with
  | [] => ([], Waiting)
  | b :: arrivals' =>
      let '(out, finished, c') := on_block c b in
      if finished then (out, Terminated)
      else let '(out', o) := consume c' arrivals' in (out ++ out', o)
  end.

(** Modelled from the spec: [PullFromSharedMemoryQueue.get_events], started
    with next expected sequence number 0 and an empty buffer. *)
Definition get_events (arrivals : list (nat * payload)) : list Event * outcome :=
  consume (mkConsumer 0 ∅) arrivals.

End Dispatcher.
Arguments payload : clear implicits.
Arguments producer : clear implicits.
Arguments consumer : clear implicits.

End Dispatcher.


Module PeakProcessing.
Import SignalMath PeakBounds.

(** ** [free_regions] *)

(** What [free_regions] reads of an event: the peaks found so far and the
    number of samples that [event.length()] returns. *)
Record Event : Type := mkEvent {
  event_peaks : list Peak;
  event_length : Z
}.

(** Find the free regions in the event's waveform - regions where peaks
    haven't yet been found. *)
Definition free_regions (event : Event) : list (Z * Z) :=
  let lefts := sorted (0 :: map left_ (event_peaks event)) in
  let rights := sorted (map right_ (event_peaks event) ++ [event_length event - 1]) in
  pairs (sorted (lefts ++ rights)).

End PeakProcessing.

Module MongoIO.
Import PeakBounds.

(** ** [sampletime_fmt] *)

Definition time_units : list string :=
  ["ns"; "us"; "ms"; "s"; "ks"; "Ms"; "G"; "T"]%string.

(** The [for x in [...]] loop on a double: [num < 1000.0] and
    [num /= 1000.0] are the comparison and the rounded division of binary64
    floats. [inl] is the [return] inside the loop, with the number and the
    unit that are formatted; [inr] is falling out of it, with the number as
    it is then. *)
Fixpoint sampletime_loop (num : float) (units : list string)
  : (float * string) + float :=
  match units with
  | [] => inr num
  | x :: units' =>
      if (num <? 1000)%float then inl (num, x)
      else sampletime_loop (num / 1000)%float units'
  end.

(** The number and the unit that [sampletime_fmt] formats with
    ["%3.1f %s"]; [num] is in nanoseconds, and is a float or an integer
    that is read as the float it converts to. *)
Definition sampletime_fmt (num : float) : float * string :=
  match sampletime_loop num time_units with
  | inl r => r
  | inr num' => (num', "s"%string)
  end.

(** ** [IOMongoDB.chunks] *)

(** [range(start, stop, step)]: [ValueError] for a zero step. *)
Definition py_range (start stop step : Z) : result (list Z) :=
  if step =? 0 then Raise ValueError
  else
    let count := if 0 <? step then (stop - start + step - 1) / step
                 else (start - stop - step - 1) / (- step) in
    Ok (map (fun k => start + Z.of_nat k * step) (seq 0 (Z.to_nat count))).

(** Yield successive n-sized chunks from l: the list of what the generator
    yields. *)
Definition chunks {A : Type} (l : list A) (n : Z) : result (list (list A)) :=
  inds ← py_range 0 (Z.of_nat (length l)) n;
  Ok (map (fun i => py_slice_Z l i (i + n)) inds).

End MongoIO.

(** * Specification *)

Module SignalMathSpec.

(** The sign changes of an array of 0/1 flags read from left to right:
    [prev] is the flag before position [i]. The first list has the
    positions where the flag rises, the second the positions before those
    where it falls. *)
Fixpoint crossings (prev i : Z) (b : list Z) : list Z * list Z :=
  match b with
  | [] => ([], [])
  | x :: b' =>
      let '(ps, vs) := crossings x (i + 1) b' in
      (if x - prev =? 1 then i :: ps else ps,
       if x - prev =? -1 then (i - 1) :: vs else vs)
  end.

(** Starts [ps] and ends [vs] of the runs of flags that are set: a run
    starts at [lo] or later, ends at its start or later, and the next run
    starts at least two positions after that end. *)
Fixpoint runs (lo : Z) (ps vs : list Z) : Prop :=
  match ps, vs with
  | [], [] => True
  | p :: ps', v :: vs' => lo <= p /\ p <= v /\ runs (v + 2) ps' vs'
  | _, _ => False
  end.

(** A 0/1 flag. *)
Definition bit (x : Z) : Prop := x = 0 \/ x = 1.

(** Starts and ends in turn. *)
Fixpoint interleave (ps vs : list Z) : list Z :=
  match ps, vs with
  | p :: ps', v :: vs' => p :: v :: interleave ps' vs'
  | _, _ => []
  end.

(** In the array of flags [b], the flags from [p] to [v] are set, the one
    before [p], if any, is not, and neither is the one after [v]. *)
Definition is_run (b : list Z) (p v : Z) : Prop :=
  0 <= p <= v /\
  (forall k, p <= k <= v -> b !! Z.to_nat k = Some 1) /\
  (0 < p -> b !! Z.to_nat (p - 1) = Some 0) /\
  b !! Z.to_nat (v + 1) = Some 0.

End SignalMathSpec.

Module RefinerSpec.
Import Refiner.

(** Peaks and valleys alternate strictly above [lo]:
    [lo < p1 < v1 < p2 < v2 < ...]. *)
Fixpoint alternate (lo : Z) (ps vs : list Z) : Prop :=
  match ps, vs with
  | [], [] => True
  | p :: ps', v :: vs' => lo < p /\ p < v /\ alternate v ps' vs'
  | _, _ => False
  end.

(** The entries of [a] where [mask] holds. *)
Fixpoint compress (mask : list bool) (a : list Z) : list Z :=
  match mask, a with
  | m :: mask', x :: a' => if m then x :: compress mask' a' else compress mask' a'
  | _, _ => []
  end.

Definition is_max (x : Z) (l : list Z) : Prop :=
  x ∈ l /\ forall y, y ∈ l -> y <= x.

Definition is_min (x : Z) (l : list Z) : Prop :=
  x ∈ l /\ forall y, y ∈ l -> x <= y.

(** Every entry of [l] is a position of the signal. *)
Definition in_signal (signal : list Q) (l : list Z) : Prop :=
  Forall (fun k => 0 <= k < Z.of_nat (length signal)) l.

(** The invariant of the refinement loop. *)
Definition loop_invariant (signal : list Q) (s : loop_state) : Prop :=
  alternate (-1) (peaks s) (valleys s) /\
  in_signal signal (peaks s) /\
  in_signal signal (valleys s) /\
  0 <= now_at_peak s <= Z.of_nat (length (peaks s)).

(** The two ways in which a pass through the loop continues. *)
Definition advances (s s' : loop_state) : Prop :=
  peaks s' = peaks s /\ valleys s' = valleys s /\
  now_at_peak s' = now_at_peak s + 1.

Definition removes_pair (s s' : loop_state) : Prop :=
  (length (peaks s') + 1 = length (peaks s))%nat /\
  (length (valleys s') + 1 = length (valleys s))%nat /\
  now_at_peak s' = Z.max 0 (now_at_peak s - 1).

(** The lists have equal length, every valley is strictly after the peak
    at the same position and strictly before the next peak. *)
Definition interleaved (peaks valleys : list Z) : Prop :=
  length peaks = length valleys /\
  forall (k : nat) (p v : Z),
    peaks !! k = Some p -> valleys !! k = Some v ->
    p < v /\ forall p', peaks !! S k = Some p' -> v < p'.

(** The states at the top of the [while 1] loop: the first one holds the
    candidates, with the cursor on the first peak. *)
Inductive reachable (signal : list Q) (test_function : list Q -> Z -> Z -> bool)
  : loop_state -> Prop :=
  | reach_start ps vs :
      (length derivative_kernel <= length signal)%nat ->
      candidates signal = Ok (ps, vs) ->
      (2 <= length ps)%nat ->
      reachable signal test_function (mkState ps vs 0)
  | reach_pass s s' :
      reachable signal test_function s ->
      loop_body signal test_function s = Ok (Continue s') ->
      reachable signal test_function s'.

(** When both tests fail, the valley with the smaller sample is the one
    removed. *)
Definition deletes_smaller_valley (signal : list Q) (valley_left valley_right : Z)
  : Prop :=
  forall v sv sl sr,
    valley_to_remove_of signal true true valley_left valley_right = Ok v ->
    py_index signal v = Ok sv ->
    py_index signal valley_left = Ok sl ->
    py_index signal valley_right = Ok sr ->
    (sv <= sl)%Q /\ (sv <= sr)%Q.

(** A waveform with three bumps, and a test that accepts only the peak at
    [p0]. *)
Definition three_bumps : list Q :=
  [0; 0; 0; 0; 0; 1; 3; 7; 12; 7; 3; 5; 9; 5; 2; 1; 4; 6; 4; 1; 0; 0; 0; 0; 0; 0]%Q.

Definition accept_only_at (p0 : Z) : list Q -> Z -> Z -> bool :=
  fun _ peak _ => peak =? p0.

End RefinerSpec.

Module ClustererSpec.
Import EventClusterer.







End ClustererSpec.

Module DispatcherSpec.
Import Dispatcher.

Section Numbering.
Context {Event : Type}.

(** The data blocks with payloads [ps], numbered from [start]. *)
Fixpoint data_blocks (start : nat) (ps : list (list Event))
  : list (nat * payload Event) :=
  match ps with
  | [] => []
  | p :: ps' => (start, Events p) :: data_blocks (S start) ps'
  end.

(** The data blocks followed by the sentinel block, which takes the next
    sequence number. *)
Fixpoint numbered (start : nat) (ps : list (list Event))
  : list (nat * payload Event) :=
  match ps with
  | [] => [(start, NO_MORE_EVENTS)]
  | p :: ps' => (start, Events p) :: numbered (S start) ps'
  end.

End Numbering.

End DispatcherSpec.


Module RefinerOutcomeSpec.
Import Refiner.

(** The peak at position [k] passes the test against the valley at the
    same position, which is the next one to its right, and against the
    valley at the position before, which is the next one to its left. *)
Definition passes (signal : list Q) (test_function : list Q -> Z -> Z -> bool)
    (peaks valleys : list Z) (k : nat) : Prop :=
  forall p, peaks !! k = Some p ->
    (forall v, valleys !! k = Some v -> test_function signal p v = true) /\
    (forall v, (0 < k)%nat -> valleys !! (k - 1)%nat = Some v ->
               test_function signal p v = true).

(** The peaks before the cursor have passed. *)
Definition accepted (signal : list Q) (test_function : list Q -> Z -> Z -> bool)
    (s : loop_state) : Prop :=
  forall k : nat, Z.of_nat k < now_at_peak s ->
    passes signal test_function (peaks s) (valleys s) k.

(** A position at least four samples from either end of the signal. *)
Definition inner (signal : list Q) (k : Z) : Prop :=
  4 <= k <= Z.of_nat (length signal) - 5.

End RefinerOutcomeSpec.

Module PeakProcessingSpec.
Import PeakBounds.

(** The peaks come one after the other between [lo] and [hi]: no peak
    starts before [lo] or before the peak before it ends, and none ends
    before it starts or after [hi]. *)
Fixpoint in_order (lo hi : Z) (peaks : list Peak) : Prop :=
  match peaks with
  | [] => lo <= hi
  | p :: peaks' => lo <= left_ p /\ left_ p <= right_ p /\ in_order (right_ p) hi peaks'
  end.

(** The gaps that such peaks leave between [lo] and [hi]. *)
Fixpoint gaps (lo hi : Z) (peaks : list Peak) : list (Z * Z) :=
  match peaks with
  | [] => [(lo, hi)]
  | p :: peaks' => (lo, left_ p) :: gaps (right_ p) hi peaks'
  end.

(** The bounds of a list of regions, in turn. *)
Definition bounds_of (regions : list (Z * Z)) : list Z :=
  flat_map (fun r => [r.1; r.2]) regions.

End PeakProcessingSpec.

Module MongoIOSpec.

(** The float [num] after [k] divisions by 1000.0, each one rounded. *)
Fixpoint scaled (num : float) (k : nat) : float :=
  match k with
  | O => num
  | S k' => scaled (num / 1000)%float k'
  end.

End MongoIOSpec.

(** * Properties *)

(** ** Python sequences *)

Lemma py_index_raises {A : Type} (l : list A) (k : Z) (e : exn) :
  py_index l k = Raise e -> e = IndexError.
Proof.
  unfold py_index. intros H.
  destruct (_ || _); [congruence|].
  destruct (l !! _); congruence.
Qed.

Lemma py_index_in_range {A : Type} (l : list A) (k : Z) :
  0 <= k < Z.of_nat (length l) ->
  exists x, py_index l k = Ok x /\ l !! Z.to_nat k = Some x.
Proof.
  intros Hk. unfold py_index.
  destruct (Z.ltb_spec k 0) as [?|_]; [lia|].
  destruct (Z.ltb_spec k 0) as [?|_]; [lia|].
  destruct (Z.leb_spec (Z.of_nat (length l)) k) as [?|_]; [lia|]. simpl.
  destruct (l !! Z.to_nat k) as [x|] eqn:E; [eauto|].
  apply lookup_ge_None in E. lia.
Qed.

Lemma py_index_empty {A : Type} (k : Z) : py_index (@nil A) k = Raise IndexError.
Proof.
  unfold py_index. simpl.
  destruct (k <? 0) eqn:E1; destruct (_ || _) eqn:E2; try reflexivity; lia.
Qed.

Lemma bind_raises {A B : Type} (r : result A) (k : A -> result B) (e : exn) :
  r ≫= k = Raise e ->
  r = Raise e \/ exists a, r = Ok a /\ k a = Raise e.
Proof.
  destruct r as [a|e']; cbv [mbind result_bind]; intros H.
  - right. exists a. split; [reflexivity|exact H].
  - left. congruence.
Qed.

Lemma bind_ok {A B : Type} (r : result A) (k : A -> result B) (b : B) :
  r ≫= k = Ok b -> exists a, r = Ok a /\ k a = Ok b.
Proof.
  destruct r as [a|e']; cbv [mbind result_bind]; intros H; [|discriminate].
  exists a. split; [reflexivity|exact H].
Qed.

Lemma bind_Ok {A B : Type} (a : A) (k : A -> result B) : Ok a ≫= k = k a.
Proof. reflexivity. Qed.

Lemma Qltb_lt (x y : Q) : Qltb x y = true -> (x < y)%Q.
Proof.
  unfold Qltb. destruct (x ?= y)%Q eqn:E; try discriminate.
  intros _. by apply Qlt_alt.
Qed.

Lemma Qltb_ge (x y : Q) : Qltb x y = false -> (y <= x)%Q.
Proof.
  unfold Qltb. destruct (x ?= y)%Q eqn:E; try discriminate; intros _.
  - apply Qeq_alt in E. rewrite E. apply Qle_refl.
  - apply Qlt_le_weak. by apply Qgt_alt.
Qed.

Lemma py_index_nonneg {A : Type} (l : list A) (k : Z) (v : A) :
  0 <= k -> py_index l k = Ok v ->
  l !! Z.to_nat k = Some v /\ k < Z.of_nat (length l).
Proof.
  intros Hk. unfold py_index.
  destruct (Z.ltb_spec k 0) as [?|_]; [lia|].
  destruct (Z.ltb_spec k 0) as [?|_]; [lia|].
  destruct (Z.leb_spec (Z.of_nat (length l)) k) as [?|?]; [done|]. cbn [orb].
  destruct (l !! Z.to_nat k) eqn:E; [|done]. intros [= ->]. split; [done|lia].
Qed.

Lemma Qltb_of_lt (x y : Q) : (x < y)%Q -> Qltb x y = true.
Proof. unfold Qltb. intros H. apply (proj1 (Qlt_alt x y)) in H. by rewrite H. Qed.

(** [l[k]] has a value exactly for [-len(l) <= k < len(l)], and a negative
    [k] reads [l[k + len(l)]]. *)
Lemma py_index_ok_iff {A : Type} (l : list A) (k : Z) :
  (exists x, py_index l k = Ok x) <->
  - Z.of_nat (length l) <= k < Z.of_nat (length l).
Proof.
  unfold py_index.
  destruct (Z.ltb_spec k 0) as [Hk|Hk].
  - destruct (Z.ltb_spec (k + Z.of_nat (length l)) 0) as [?|?]; cbn [orb].
    + split; [by intros [x ?]|lia].
    + destruct (Z.leb_spec (Z.of_nat (length l)) (k + Z.of_nat (length l))) as [?|?];
        [lia|].
      destruct (l !! _) as [x|] eqn:E.
      * split; [lia|eauto].
      * apply lookup_ge_None in E. lia.
  - destruct (Z.ltb_spec k 0) as [?|_]; [lia|]. cbn [orb].
    destruct (Z.leb_spec (Z.of_nat (length l)) k) as [?|?].
    + split; [by intros [x ?]|lia].
    + destruct (l !! _) as [x|] eqn:E.
      * split; [lia|eauto].
      * apply lookup_ge_None in E. lia.
Qed.

Lemma py_index_negative {A : Type} (l : list A) (k : Z) :
  - Z.of_nat (length l) <= k < 0 ->
  py_index l k = py_index l (k + Z.of_nat (length l)).
Proof.
  intros Hk. unfold py_index. cbv zeta.
  destruct (Z.ltb_spec k 0) as [_|?]; [|lia].
  destruct (Z.ltb_spec (k + Z.of_nat (length l)) 0) as [?|_]; [lia|].
  destruct (Z.ltb_spec (k + Z.of_nat (length l)) 0) as [?|_]; [lia|].
  done.
Qed.

Module SignalMathFacts.
Import SignalMath SignalMathSpec.

Lemma insert_sorted_elem (x y : Z) (l : list Z) :
  y ∈ insert_sorted x l <-> y = x \/ y ∈ l.
Proof.
  induction l as [|z l IH]; cbn [insert_sorted].
  - rewrite list_elem_of_singleton, elem_of_nil. tauto.
  - destruct (x <=? z); rewrite !elem_of_cons; [tauto|]. rewrite IH. tauto.
Qed.

Lemma sorted_elem (y : Z) (l : list Z) : y ∈ sorted l <-> y ∈ l.
Proof.
  induction l as [|z l IH]; cbn [sorted]; [done|].
  rewrite insert_sorted_elem, elem_of_cons, IH. tauto.
Qed.

Lemma sorted_Sorted (l : list Z) : Sorted Z.le l -> sorted l = l.
Proof.
  induction 1 as [|x l Hl IH Hx]; simpl; [done|].
  rewrite IH. destruct Hx as [|y l Hxy]; simpl; [done|].
  destruct (Z.leb_spec x y); [done|lia].
Qed.

Lemma roll_diff (b : list Z) (prev i : Z) :
  let diff := zip_with Z.sub b (prev :: removelast b) in
  (np_where_from i (map (fun d => d =? 1) diff),
   map (fun k => k - 1) (np_where_from i (map (fun d => d =? -1) diff)))
  = crossings prev i b.
Proof.
  revert prev i. induction b as [|x b IH]; intros prev i; [done|].
  destruct b as [|y b].
  - cbn [zip_with map np_where_from removelast crossings].
    destruct (x - prev =? 1), (x - prev =? -1); done.
  - specialize (IH x (i + 1)). cbv zeta in IH.
    change (removelast (x :: y :: b)) with (x :: removelast (y :: b)).
    change (crossings prev i (x :: y :: b)) with
      (let '(ps, vs) := crossings x (i + 1) (y :: b) in
       (if x - prev =? 1 then i :: ps else ps,
        if x - prev =? -1 then (i - 1) :: vs else vs)).
    rewrite <- IH. cbn [zip_with map np_where_from].
    destruct (x - prev =? 1), (x - prev =? -1); done.
Qed.

Lemma runs_weaken lo lo' ps vs : lo' <= lo -> runs lo ps vs -> runs lo' ps vs.
Proof.
  destruct ps as [|p ps], vs as [|v vs]; simpl; try done.
  intros ? (? & ? & ?). repeat split; [lia|done..].
Qed.

Lemma crossings_marker prev i b c :
  1 <> c -> -1 <> c ->
  crossings prev i (b ++ [0; c]) = crossings prev i (b ++ [0]).
Proof.
  intros H1 H2. revert prev i. induction b as [|x b IH]; intros prev i.
  - cbn [app crossings].
    destruct (Z.eqb_spec (c - 0) 1); [lia|].
    destruct (Z.eqb_spec (c - 0) (-1)); [lia|]. done.
  - cbn [app crossings]. by rewrite IH.
Qed.

Lemma crossings_bits l :
  Forall bit l ->
  forall i ps vs,
    (crossings 0 i (l ++ [0]) = (ps, vs) -> runs i ps vs) /\
    (crossings 1 i (l ++ [0]) = (ps, vs) ->
       exists v0 vs', vs = v0 :: vs' /\ i - 1 <= v0 /\ runs (v0 + 2) ps vs').
Proof.
  induction 1 as [|x l Hx Hl IH]; intros i ps vs.
  - cbn. split; intros [= <- <-]; [done|].
    exists (i - 1), []. repeat split; lia.
  - cbn [app crossings].
    destruct (crossings x (i + 1) (l ++ [0])) as [ps' vs'] eqn:E.
    destruct Hx as [-> | ->].
    + apply IH in E. split; cbn; intros [= <- <-].
      * apply (runs_weaken (i + 1)); [lia|done].
      * exists (i - 1), vs'. split; [done|]. split; [lia|].
        by replace (i - 1 + 2) with (i + 1) by lia.
    + apply IH in E as (v0 & vs'' & -> & Hv & Hr). split; cbn; intros [= <- <-].
      * repeat split; [lia|lia|done].
      * exists v0, vs''. split; [done|]. split; [lia|done].
Qed.

Lemma crossings_range b : forall prev i ps vs,
  crossings prev i b = (ps, vs) ->
  Forall (fun p => i <= p < i + Z.of_nat (length b)) ps /\
  Forall (fun v => i - 1 <= v < i + Z.of_nat (length b) - 1) vs.
Proof.
  induction b as [|x b IH]; intros prev i ps vs; cbn [crossings].
  - intros [= <- <-]. split; constructor.
  - destruct (crossings x (i + 1) b) as [ps' vs'] eqn:E.
    apply IH in E as [Hp Hv]. intros [= <- <-].
    assert (Hp' : Forall (fun p => i <= p < i + Z.of_nat (length (x :: b))) ps').
    { eapply Forall_impl; [exact Hp|]. cbn [length]. intros; cbn beta in *; lia. }
    assert (Hv' : Forall (fun v => i - 1 <= v < i + Z.of_nat (length (x :: b)) - 1) vs').
    { eapply Forall_impl; [exact Hv|]. cbn [length]. intros; cbn beta in *; lia. }
    split.
    + destruct (x - prev =? 1); [|exact Hp']. constructor; [cbn [length]; lia|exact Hp'].
    + destruct (x - prev =? -1); [|exact Hv']. constructor; [cbn [length]; lia|exact Hv'].
Qed.

Lemma above0_of_bits s : Forall bit (above0_of s).
Proof.
  induction s as [|x s IH]; constructor; [|exact IH].
  destruct (Qltb 0 x); [right|left]; reflexivity.
Qed.

Lemma runs_lower lo ps vs :
  runs lo ps vs -> Forall (Z.le lo) ps /\ Forall (Z.le lo) vs.
Proof.
  revert lo vs. induction ps as [|p ps IH]; intros lo [|v vs]; simpl; try done.
  intros (Hp & Hv & Hr). apply IH in Hr as [H1 H2].
  split; constructor; try lia.
  - eapply Forall_impl; [exact H1|]. intros; cbn beta in *; lia.
  - eapply Forall_impl; [exact H2|]. intros; cbn beta in *; lia.
Qed.

Lemma runs_Sorted lo ps vs : runs lo ps vs -> Sorted Z.le ps /\ Sorted Z.le vs.
Proof.
  revert lo vs. induction ps as [|p ps IH]; intros lo [|v vs]; simpl; try done.
  intros (Hp & Hv & Hr). destruct (runs_lower _ _ _ Hr) as [H1 H2].
  apply IH in Hr as [S1 S2]. split; constructor; try done.
  - destruct H1; constructor. lia.
  - destruct H2; constructor. lia.
Qed.

Lemma runs_length lo ps vs : runs lo ps vs -> length ps = length vs.
Proof.
  revert lo vs. induction ps as [|p ps IH]; intros lo [|v vs]; simpl; try done.
  intros (_ & _ & Hr). f_equal. by eapply IH.
Qed.

Lemma sign_changes_crossings (signal : list Q) (policy : report_first_index) :
  signal <> [] ->
  let marker := first_index_marker policy in
  let cr := crossings marker 0 (removelast (above0_of signal) ++ [marker]) in
  sign_changes signal policy = Ok (sorted cr.1, sorted cr.2).
Proof.
  intros Hne marker cr. unfold sign_changes, set_last.
  destruct (above0_of signal) as [|a0 a] eqn:Ea.
  { destruct signal; [done|discriminate]. }
  cbv [mbind result_bind]. fold marker.
  set (b := removelast (a0 :: a) ++ [marker]) in *.
  assert (Hroll : np_roll1 b = marker :: removelast b).
  { unfold b, np_roll1. rewrite last_last, removelast_last.
    destruct (removelast (a0 :: a) ++ [marker]) eqn:E; [|done].
    symmetry in E. by apply app_cons_not_nil in E. }
  rewrite Hroll. unfold np_where.
  pose proof (roll_diff b marker 0) as Hd. cbv zeta in Hd.
  fold cr in Hd. rewrite (surjective_pairing cr) in Hd.
  injection Hd as -> ->. done.
Qed.

(** [sign_changes] with policy [never] on an array that starts with a zero
    and has a zero before its last entry. *)
Lemma sign_changes_never_zero_edges (s : list Q) (y : Q) :
  exists ps vs,
    sign_changes (0%Q :: s ++ [0%Q; y]) never = Ok (ps, vs) /\
    runs 1 ps vs /\
    Forall (fun p => 0 <= p < Z.of_nat (length s) + 3) ps /\
    Forall (fun v => 0 <= v < Z.of_nat (length s) + 3) vs.
Proof.
  rewrite sign_changes_crossings by done. cbv zeta.
  assert (Hb : above0_of (0%Q :: s ++ [0%Q; y]) =
               (0 :: above0_of s ++ [0]) ++ [if Qltb 0 y then 1 else 0]).
  { unfold above0_of. rewrite fmap_cons, fmap_app. cbn. by rewrite <- app_assoc. }
  rewrite Hb, removelast_last. cbn [first_index_marker].
  cbn [app crossings].
  rewrite <- app_assoc. cbn [app].
  rewrite crossings_marker by lia.
  destruct (crossings 0 (0 + 1) (above0_of s ++ [0])) as [ps vs] eqn:E.
  change (0 - -1234 =? 1) with false. change (0 - -1234 =? -1) with false.
  cbn [fst snd].
  pose proof (crossings_range _ _ _ _ _ E) as [Rp Rv].
  apply (crossings_bits _ (above0_of_bits s)) in E.
  destruct (runs_Sorted _ _ _ E) as [Sp Sv].
  exists ps, vs. rewrite !sorted_Sorted by done.
  split; [done|]. split; [done|].
  rewrite length_app in Rp, Rv. unfold above0_of in Rp, Rv.
  rewrite length_map in Rp, Rv. cbn [length] in Rp, Rv.
  destruct (runs_lower _ _ _ E) as [Lp Lv].
  split.
  - rewrite Forall_forall in *. intros p Hp. specialize (Rp p Hp). lia.
  - rewrite Forall_forall in *. intros v Hv.
    specialize (Rv v Hv). specialize (Lv v Hv). lia.
Qed.

Lemma insert_sorted_Permutation x l : insert_sorted x l ≡ₚ x :: l.
Proof.
  induction l as [|y l IH]; cbn [insert_sorted]; [done|].
  destruct (x <=? y); [done|]. rewrite IH. apply Permutation_swap.
Qed.

Lemma sorted_Permutation l : sorted l ≡ₚ l.
Proof.
  induction l as [|y l IH]; cbn [sorted]; [done|].
  by rewrite insert_sorted_Permutation, IH.
Qed.

Lemma insert_sorted_Sorted x l : Sorted Z.le l -> Sorted Z.le (insert_sorted x l).
Proof.
  induction 1 as [|y l Hl IH Hy]; cbn [insert_sorted].
  - repeat constructor.
  - destruct (Z.leb_spec x y).
    + constructor; [by constructor|]. by constructor.
    + constructor; [done|].
      destruct l as [|z l]; cbn [insert_sorted].
      * constructor. lia.
      * apply HdRel_inv in Hy. destruct (x <=? z); constructor; lia.
Qed.

Lemma sorted_is_Sorted l : Sorted Z.le (sorted l).
Proof.
  induction l as [|y l IH]; cbn [sorted]; [constructor|].
  by apply insert_sorted_Sorted.
Qed.

Lemma runs_interleave ps : forall lo vs,
  runs lo ps vs ->
  Sorted Z.le (interleave ps vs) /\ interleave ps vs ≡ₚ ps ++ vs /\
  Forall (Z.le lo) (interleave ps vs).
Proof.
  induction ps as [|p ps IH]; intros lo [|v vs]; cbn [runs interleave]; try done.
  intros (Hp & Hv & Hr). destruct (IH _ _ Hr) as (Hs & Hperm & Hlo).
  split; [|split].
  - constructor; [|by constructor].
    constructor; [done|].
    destruct Hlo; constructor. lia.
  - cbn [app]. rewrite Hperm. apply Permutation_skip. apply Permutation_middle.
  - constructor; [lia|]. constructor; [lia|].
    eapply Forall_impl; [exact Hlo|]. intros; cbn beta in *; lia.
Qed.

Lemma sorted_runs lo ps vs :
  runs lo ps vs -> sorted (ps ++ vs) = interleave ps vs.
Proof.
  intros Hr. destruct (runs_interleave _ _ _ Hr) as (Hs & Hperm & _).
  apply (StronglySorted_unique Z.le).
  - apply Sorted_StronglySorted; [intros ???; lia|]. apply sorted_is_Sorted.
  - apply Sorted_StronglySorted; [intros ???; lia|]. done.
  - by rewrite sorted_Permutation, Hperm.
Qed.

Lemma pairs_interleave ps : forall vs,
  length ps = length vs -> pairs (interleave ps vs) = zip ps vs.
Proof.
  induction ps as [|p ps IH]; intros [|v vs]; cbn [length]; try done.
  intros [= Hlen]. cbn [interleave pairs zip zip_with]. f_equal. by apply IH.
Qed.

Lemma crossings_runs (suf : list Z) : forall pre prev ps vs,
  Forall bit suf ->
  pre = [] \/ last pre = Some prev ->
  crossings prev (Z.of_nat (length pre)) (suf ++ [0]) = (ps, vs) ->
  let b := pre ++ suf ++ [0] in
  (prev = 0 -> Forall2 (is_run b) ps vs) /\
  (prev = 1 ->
   exists v0 vs',
     vs = v0 :: vs' /\ Z.of_nat (length pre) - 1 <= v0 /\
     (forall k, Z.of_nat (length pre) <= k <= v0 -> b !! Z.to_nat k = Some 1) /\
     b !! Z.to_nat (v0 + 1) = Some 0 /\
     Forall2 (is_run b) ps vs').
Proof.
  induction suf as [|x suf IH]; intros pre prev ps vs Hbits Hlast Hc b.
  - cbn [app crossings] in Hc. unfold b. cbn [app]. split; intros ->.
    + cbn in Hc. injection Hc as <- <-. constructor.
    + cbn in Hc. injection Hc as <- <-.
      exists (Z.of_nat (length pre) - 1), []. split; [done|]. split; [lia|].
      split; [intros k ?; lia|]. split; [|constructor].
      replace (Z.to_nat (Z.of_nat (length pre) - 1 + 1)) with (length pre) by lia.
      by apply list_lookup_middle.
  - apply Forall_cons in Hbits as [Hx Hbits].
    cbn [app crossings] in Hc.
    destruct (crossings x (Z.of_nat (length pre) + 1) (suf ++ [0]))
      as [ps' vs'] eqn:E.
    specialize (IH (pre ++ [x]) x ps' vs' Hbits).
    rewrite length_app in IH. cbn [length] in IH.
    replace (Z.of_nat (length pre + 1)) with (Z.of_nat (length pre) + 1)
      in IH by lia.
    specialize (IH (or_intror (last_snoc _ _)) E). cbv zeta in IH.
    rewrite <- app_assoc in IH. cbn [app] in IH.
    assert (Hbx : b !! Z.to_nat (Z.of_nat (length pre)) = Some x).
    { rewrite Nat2Z.id. unfold b. by apply list_lookup_middle. }
    fold b in IH. destruct IH as [IH0 IH1].
    destruct Hx as [-> | ->]; split; intros ->; cbn in Hc; injection Hc as <- <-.
    + by apply IH0.
    + pose proof (IH0 eq_refl) as Hruns.
      exists (Z.of_nat (length pre) - 1), vs'. split; [done|]. split; [lia|].
      split; [intros k ?; lia|]. split; [|done].
      by replace (Z.of_nat (length pre) - 1 + 1) with (Z.of_nat (length pre)) by lia.
    + destruct (IH1 eq_refl) as (v0 & vs'' & -> & Hv0 & Hones & Hend & Hruns).
      constructor; [|done]. split; [lia|]. split; [|split; [|done]].
      * intros k Hk. destruct (decide (k = Z.of_nat (length pre))) as [->|Hne];
          [done|]. apply Hones. lia.
      * intros Hpos. destruct Hlast as [->|Hlast]; [cbn in Hpos; lia|].
        rewrite last_lookup in Hlast. unfold b.
        rewrite lookup_app_l by lia.
        by replace (Z.to_nat (Z.of_nat (length pre) - 1))
          with (pred (length pre)) by lia.
    + destruct (IH1 eq_refl) as (v0 & vs'' & -> & Hv0 & Hones & Hend & Hruns).
      exists v0, vs''. split; [done|]. split; [lia|]. split; [|done].
      intros k Hk. destruct (decide (k = Z.of_nat (length pre))) as [->|Hne];
        [done|]. apply Hones. lia.
Qed.

Lemma Forall2_zip_elem {A B : Type} (R : A -> B -> Prop) (l : list A) (k : list B)
    (x : A) (y : B) :
  Forall2 R l k -> (x, y) ∈ zip l k -> R x y.
Proof.
  induction 1 as [|a b l k Hab Hlk IH]; cbn [zip zip_with].
  - by intros ?%elem_of_nil.
  - intros [[= -> ->]|Hin]%elem_of_cons; [done|]. by apply IH.
Qed.

(** The flags that [sign_changes] compares, for the policy [positive]. *)
Lemma flag_lookup (signal : list Q) (threshold : Q) (k : nat) (f : Z) :
  signal <> [] ->
  (removelast (above0_of (map (fun x => (x - threshold)%Q) signal)) ++ [0]) !! k
    = Some f ->
  (S k = length signal /\ f = 0) \/
  (S k < length signal)%nat /\
  exists x, signal !! k = Some x /\
            ((f = 1 /\ (threshold < x)%Q) \/ (f = 0 /\ (x <= threshold)%Q)).
Proof.
  intros Hne.
  set (a := above0_of (map (fun x => (x - threshold)%Q) signal)).
  assert (Hlen : length a = length signal).
  { unfold a, above0_of. by rewrite !length_map. }
  assert (length signal <> 0%nat) by (by destruct signal).
  rewrite removelast_firstn_len. intros Hk.
  apply lookup_app_Some in Hk as [Hk|[Hge Hk]].
  - right. apply lookup_take_Some in Hk as [Hk Hlt].
    split; [lia|]. unfold a, above0_of in Hk.
    rewrite list_lookup_fmap, list_lookup_fmap in Hk.
    destruct (signal !! k) as [x|] eqn:Hx; [|done]. cbn in Hk.
    exists x. split; [done|]. injection Hk as <-.
    destruct (Qltb 0 (x - threshold)) eqn:E.
    + left. split; [done|]. apply Qltb_lt in E. lra.
    + right. split; [done|]. apply Qltb_ge in E. lra.
  - left. rewrite length_take in Hge, Hk.
    apply list_lookup_singleton_Some in Hk as [Hk <-]. split; [lia|done].
Qed.

(** X6: what holds of every interval: it does not start after its end,
    the samples from its start to its end exceed the threshold, the sample
    before its start does not, and neither does the sample after its end,
    unless that is the last sample of the signal. *)
Lemma intervals_above_threshold_runs (signal : list Q) (threshold : Q)
    (out : list (Z * Z)) (s e : Z) :
  intervals_above_threshold signal threshold = Ok out ->
  (s, e) ∈ out ->
  0 <= s <= e /\ e + 1 < Z.of_nat (length signal) /\
  (forall k x, s <= k <= e -> signal !! Z.to_nat k = Some x -> (threshold < x)%Q) /\
  (forall x, 0 < s -> signal !! Z.to_nat (s - 1) = Some x -> (x <= threshold)%Q) /\
  (forall x, e + 2 < Z.of_nat (length signal) ->
             signal !! Z.to_nat (e + 1) = Some x -> (x <= threshold)%Q).
Proof.
  unfold intervals_above_threshold. intros Hout Hin.
  destruct signal as [|s0 signal]; [done|].
  set (sig := s0 :: signal) in *.
  assert (Hne : sig <> []) by done.
  rewrite sign_changes_crossings in Hout by done.
  cbv zeta in Hout. cbn [first_index_marker] in Hout.
  rewrite bind_Ok in Hout.
  set (b := removelast (above0_of (map (fun x => (x - threshold)%Q) sig)) ++ [0])
    in *.
  destruct (crossings 0 0 b) as [ps vs] eqn:E. cbn [fst snd] in Hout.
  assert (Hbits : Forall bit
            (removelast (above0_of (map (fun x => (x - threshold)%Q) sig)))).
  { rewrite removelast_firstn_len. apply Forall_take, above0_of_bits. }
  pose proof (proj1 (crossings_bits _ Hbits 0 ps vs) E) as Hruns.
  destruct (crossings_runs _ [] 0 ps vs Hbits (or_introl eq_refl) E) as [Hsem _].
  specialize (Hsem eq_refl). cbn [app] in Hsem. fold b in Hsem.
  destruct (runs_Sorted _ _ _ Hruns) as [Sp Sv].
  rewrite (sorted_Sorted ps), (sorted_Sorted vs) in Hout by done.
  rewrite (sorted_runs _ _ _ Hruns) in Hout.
  rewrite pairs_interleave in Hout by (by eapply runs_length).
  injection Hout as <-.
  destruct (Forall2_zip_elem _ _ _ _ _ Hsem Hin) as (Hse & Hones & Hbefore & Hafter).
  apply (flag_lookup sig threshold _ _ Hne) in Hafter as Hafter'.
  split; [done|]. split; [|split; [|split]].
  - destruct Hafter' as [[? _]|[? _]]; lia.
  - intros k x Hk Hx. specialize (Hones k Hk).
    apply (flag_lookup sig threshold _ _ Hne) in Hones
      as [[_ ?]|(_ & x' & Hx' & [[_ ?]|[? _]])]; try done.
    rewrite Hx in Hx'. by injection Hx' as <-.
  - intros x Hs Hx. specialize (Hbefore Hs).
    apply (flag_lookup sig threshold _ _ Hne) in Hbefore
      as [[? _]|(_ & x' & Hx' & [[? _]|[_ ?]])]; try done.
    + apply lookup_lt_Some in Hx. lia.
    + rewrite Hx in Hx'. by injection Hx' as <-.
  - intros x He Hx.
    destruct Hafter' as [[? _]|(_ & x' & Hx' & [[? _]|[_ ?]])]; try done.
    + lia.
    + rewrite Hx in Hx'. by injection Hx' as <-.
Qed.

(** What holds for the policy [never]: index 0 is not among
    the positions where the signal becomes positive, and no position
    reported is negative. *)
Lemma sign_changes_never_becomes_positive (signal : list Q) (ps vs : list Z) :
  sign_changes signal never = Ok (ps, vs) ->
  ~ 0 ∈ ps /\ Forall (Z.le 0) vs.
Proof.
  destruct signal as [|s0 signal]; [done|].
  rewrite sign_changes_crossings by done. cbv zeta. cbn [first_index_marker].
  destruct signal as [|s1 signal].
  { intros [= <- <-]. split; [apply not_elem_of_nil|constructor]. }
  change (removelast (above0_of (s0 :: s1 :: signal)))
    with ((if Qltb 0 s0 then 1 else 0) :: removelast (above0_of (s1 :: signal))).
  cbn [app crossings].
  destruct (crossings _ (0 + 1) _) as [ps' vs'] eqn:E.
  apply crossings_range in E as [Hp Hv].
  rewrite Forall_forall in Hp, Hv.
  assert (Hps : ~ 0 ∈ sorted ps').
  { rewrite sorted_elem. intros Hin. specialize (Hp _ Hin). lia. }
  assert (Hvs : Forall (Z.le 0) (sorted vs')).
  { apply Forall_forall. intros v Hin. apply (proj1 (sorted_elem _ _)) in Hin.
    specialize (Hv _ Hin). cbn beta in Hv. lia. }
  destruct (Qltb 0 s0); cbn; by intros [= <- <-].
Qed.

(** C5: with boundary policy [never] index 0 should be in neither output
    of [sign_changes], but on the signal [1, 0, 0] the list of indices
    where the signal becomes non-positive is [0]: the crossing seen at
    position 1 is shifted down by one. *)
Theorem sign_changes_never_reports_index_0 :
  exists becomes_positive becomes_non_positive,
    sign_changes [1; 0; 0]%Q never = Ok (becomes_positive, becomes_non_positive) /\
    becomes_positive = [] /\
    becomes_non_positive = [0] /\
    0 ∈ becomes_non_positive.
Proof.
  exists [], [0]. repeat split. apply list_elem_of_here.
Qed.

(** C6: every interval of [intervals_above_threshold] should have the
    samples next to its boundaries at or below the threshold, but for the
    signal [0, 1, 1] and threshold 0 the only interval is (1, 1) while the
    sample at index 2, just right of it, is above the threshold: the marker
    of the boundary policy overwrites the last sample. *)
Theorem intervals_above_threshold_drops_last_sample :
  intervals_above_threshold [0; 1; 1]%Q 0 = Ok [(1, 1)] /\
  exists x, py_index [0; 1; 1]%Q (1 + 1) = Ok x /\ Qgtb x 0 = true.
Proof.
  split; [reflexivity|]. exists 1%Q. split; reflexivity.
Qed.

End SignalMathFacts.

Module SignalMathEdges.
Import SignalMath SignalMathSpec SignalMathFacts.

Lemma above0_of_snoc (s : list Q) (x : Q) :
  removelast (above0_of (s ++ [x])) = above0_of s.
Proof. unfold above0_of. rewrite map_app. cbn [map]. apply removelast_last. Qed.

(** The flags that [sign_changes] compares, whatever the policy. *)
Lemma sign_changes_snoc (s : list Q) (x : Q) (policy : report_first_index) :
  let marker := first_index_marker policy in
  let cr := crossings marker 0 (above0_of s ++ [marker]) in
  sign_changes (s ++ [x]) policy = Ok (sorted cr.1, sorted cr.2).
Proof.
  cbv zeta. rewrite sign_changes_crossings by (by destruct s).
  cbv zeta. by rewrite above0_of_snoc.
Qed.

(** The intervals are the starts and ends of the runs of flags, paired. *)
Lemma intervals_above_threshold_zip (signal : list Q) (threshold : Q)
    (out : list (Z * Z)) :
  intervals_above_threshold signal threshold = Ok out ->
  exists ps vs,
    crossings 0 0
      (removelast (above0_of (map (fun x => (x - threshold)%Q) signal)) ++ [0])
      = (ps, vs) /\
    runs 0 ps vs /\ out = zip ps vs.
Proof.
  unfold intervals_above_threshold. intros Hout.
  destruct signal as [|s0 signal]; [done|].
  set (sig := s0 :: signal) in *.
  rewrite sign_changes_crossings in Hout by done.
  cbv zeta in Hout. cbn [first_index_marker] in Hout.
  rewrite bind_Ok in Hout.
  set (b := removelast (above0_of (map (fun x => (x - threshold)%Q) sig)) ++ [0])
    in *.
  destruct (crossings 0 0 b) as [ps vs] eqn:E. cbn [fst snd] in Hout.
  assert (Hbits : Forall bit
            (removelast (above0_of (map (fun x => (x - threshold)%Q) sig)))).
  { rewrite removelast_firstn_len. apply Forall_take, above0_of_bits. }
  pose proof (proj1 (crossings_bits _ Hbits 0 ps vs) E) as Hruns.
  destruct (runs_Sorted _ _ _ Hruns) as [Sp Sv].
  rewrite (sorted_Sorted ps), (sorted_Sorted vs) in Hout by done.
  rewrite (sorted_runs _ _ _ Hruns) in Hout.
  rewrite pairs_interleave in Hout by (by eapply runs_length).
  injection Hout as <-. by exists ps, vs.
Qed.

(** Between the end of a run and the start of the next one there is a
    position. *)
Lemma runs_zip_separated (ps : list Z) : forall lo vs (k : nat) s e s' e',
  runs lo ps vs ->
  zip ps vs !! k = Some (s, e) -> zip ps vs !! S k = Some (s', e') ->
  e + 2 <= s'.
Proof.
  induction ps as [|p ps IH]; intros lo [|v vs] k s e s' e'; cbn [runs zip zip_with];
    try done.
  intros (_ & _ & Hr) H1 H2. destruct k as [|k].
  - injection H1 as <- <-. cbn in H2.
    destruct ps as [|p' ps]; destruct vs as [|v' vs]; cbn in H2, Hr; try done.
    injection H2 as <- <-. lia.
  - cbn in H1, H2. by eapply IH.
Qed.

(** Every flag that is set lies in a run. *)
Lemma crossings_complete (suf : list Z) : forall prev i ps vs,
  Forall bit suf ->
  crossings prev i (suf ++ [0]) = (ps, vs) ->
  (prev = 0 ->
   forall k : nat, suf !! k = Some 1 ->
     exists p v, (p, v) ∈ zip ps vs /\ p <= i + Z.of_nat k <= v) /\
  (prev = 1 ->
   exists v0 vs', vs = v0 :: vs' /\ i - 1 <= v0 /\
     forall k : nat, suf !! k = Some 1 ->
       i + Z.of_nat k <= v0 \/
       exists p v, (p, v) ∈ zip ps vs' /\ p <= i + Z.of_nat k <= v).
Proof.
  induction suf as [|x suf IH]; intros prev i ps vs Hbits.
  - cbn [app crossings]. intros H. split; intros ->; cbn in H; injection H as <- <-.
    + intros k Hk. done.
    + exists (i - 1), []. split; [done|]. split; [lia|]. intros k Hk. done.
  - apply Forall_cons in Hbits as [Hx Hbits].
    cbn [app crossings].
    destruct (crossings x (i + 1) (suf ++ [0])) as [ps' vs'] eqn:E.
    destruct (IH _ _ _ _ Hbits E) as [IH0 IH1].
    intros H.
    split; intros ->; destruct Hx as [-> | ->]; cbn in H; injection H as <- <-.
    + intros [|k] Hk; [done|]. cbn in Hk.
      destruct (IH0 eq_refl k Hk) as (p & v & Hin & Hr).
      exists p, v. split; [done|lia].
    + destruct (IH1 eq_refl) as (v0 & vs'' & -> & Hv0 & Hc).
      intros [|k] Hk.
      * exists i, v0. split; [apply list_elem_of_here|lia].
      * cbn in Hk. destruct (Hc k Hk) as [Hle|(p & v & Hin & Hr)].
        -- exists i, v0. split; [apply list_elem_of_here|lia].
        -- exists p, v. split; [by apply list_elem_of_further|lia].
    + exists (i - 1), vs'. split; [done|]. split; [lia|].
      intros [|k] Hk; [done|]. cbn in Hk. right.
      destruct (IH0 eq_refl k Hk) as (p & v & Hin & Hr).
      exists p, v. split; [done|lia].
    + destruct (IH1 eq_refl) as (v0 & vs'' & -> & Hv0 & Hc).
      exists v0, vs''. split; [done|]. split; [lia|].
      intros [|k] Hk; [left; lia|]. cbn in Hk.
      destruct (Hc k Hk) as [Hle|(p & v & Hin & Hr)]; [left; lia|right].
      exists p, v. split; [done|lia].
Qed.

(** X1: neither function has a result for an empty signal: writing the
    marker into the last flag raises [IndexError]. For any other signal
    both return. *)
Theorem empty_signal_raises_IndexError (signal : list Q)
    (policy : report_first_index) (threshold : Q) :
  (signal = [] ->
   sign_changes signal policy = Raise IndexError /\
   intervals_above_threshold signal threshold = Raise IndexError) /\
  (signal <> [] ->
   (exists r, sign_changes signal policy = Ok r) /\
   (exists out, intervals_above_threshold signal threshold = Ok out)).
Proof.
  split.
  - intros ->. split; reflexivity.
  - intros Hne. split.
    + rewrite sign_changes_crossings by done. eauto.
    + unfold intervals_above_threshold.
      rewrite sign_changes_crossings by (by destruct signal).
      cbv zeta. rewrite bind_Ok. destruct (crossings _ _ _). cbn. eauto.
Qed.

(** X2: the last sample of the signal is never read: the marker of the
    boundary policy overwrites its flag, so two signals that differ only
    in their last sample have the same sign changes and the same intervals
    above any threshold. *)
Theorem last_sample_is_ignored (s : list Q) (x y : Q)
    (policy : report_first_index) (threshold : Q) :
  sign_changes (s ++ [x]) policy = sign_changes (s ++ [y]) policy /\
  intervals_above_threshold (s ++ [x]) threshold
  = intervals_above_threshold (s ++ [y]) threshold.
Proof.
  split.
  - by rewrite !sign_changes_snoc.
  - unfold intervals_above_threshold.
    rewrite !map_app. cbn [map].
    by rewrite !sign_changes_snoc.
Qed.

(** X3: with the default policy [positive] the two outputs pair up: they
    have the same length, the signal becomes non-positive just after a
    position that is not before the one where it became positive, the next
    rise is at least two positions later, and every position reported is
    before the last sample. *)
Theorem sign_changes_positive_pairs_up (signal : list Q) (ps vs : list Z) :
  sign_changes signal positive = Ok (ps, vs) ->
  length ps = length vs /\
  runs 0 ps vs /\
  Forall (fun v => v + 1 < Z.of_nat (length signal)) vs.
Proof.
  destruct signal as [|s0 signal]; [done|].
  set (sig := s0 :: signal).
  rewrite sign_changes_crossings by done. cbv zeta. cbn [first_index_marker].
  destruct (crossings 0 0 (removelast (above0_of sig) ++ [0])) as [ps' vs'] eqn:E.
  cbn [fst snd].
  assert (Hbits : Forall bit (removelast (above0_of sig))).
  { rewrite removelast_firstn_len. apply Forall_take, above0_of_bits. }
  pose proof (proj1 (crossings_bits _ Hbits 0 ps' vs') E) as Hruns.
  destruct (runs_Sorted _ _ _ Hruns) as [Sp Sv].
  rewrite (sorted_Sorted ps'), (sorted_Sorted vs') by done.
  intros [= <- <-]. split; [by eapply runs_length|]. split; [done|].
  apply crossings_range in E as [_ Hv].
  rewrite length_app, removelast_firstn_len, length_take in Hv.
  unfold above0_of in Hv. rewrite length_map in Hv. cbn [length] in Hv.
  eapply Forall_impl; [exact Hv|]. intros v Hr. cbn beta in Hr.
  unfold sig in *. cbn [length Init.Nat.pred] in *. lia.
Qed.

Lemma sign_changes_positive_pairs_up_witness :
  sign_changes [0; 2; 3; 0; -1; 4; 0]%Q positive = Ok ([1; 5], [2; 5]) /\
  length [1; 5] = length [2; 5] /\
  runs 0 [1; 5] [2; 5] /\
  Forall (fun v => v + 1 < Z.of_nat (length [0; 2; 3; 0; -1; 4; 0]%Q)) [2; 5].
Proof.
  split; [reflexivity|].
  apply (sign_changes_positive_pairs_up [0; 2; 3; 0; -1; 4; 0]%Q). reflexivity.
Defined.

(** X4: what the policies [positive] and [non_positive] report for the
    first sample. With [positive], index 0 is among the positions where the
    signal becomes positive exactly when the first sample is positive and
    is not the only one. With [non_positive], a first sample that is not
    positive (and not the only one) is reported as index -1 among the
    positions where the signal becomes non-positive, and index 0 is never
    reported as a rise. *)
Theorem sign_changes_reports_first_sample (signal : list Q)
    (ps vs ps' vs' : list Z) :
  sign_changes signal positive = Ok (ps, vs) ->
  sign_changes signal non_positive = Ok (ps', vs') ->
  (0 ∈ ps <->
   (2 <= length signal)%nat /\ exists x0, signal !! 0%nat = Some x0 /\ (0 < x0)%Q) /\
  (-1 ∈ vs' <->
   (2 <= length signal)%nat /\ exists x0, signal !! 0%nat = Some x0 /\ (x0 <= 0)%Q) /\
  ~ 0 ∈ ps'.
Proof.
  destruct signal as [|s0 signal]; [done|].
  rewrite !sign_changes_crossings by done. cbv zeta. cbn [first_index_marker].
  destruct signal as [|s1 signal].
  { cbn. intros [= <- <-] [= <- <-].
    split; [|split]; [split|split|]; try (intros Hin; by apply elem_of_nil in Hin);
      intros [? _]; cbn in *; lia. }
  change (removelast (above0_of (s0 :: s1 :: signal)))
    with ((if Qltb 0 s0 then 1 else 0) :: removelast (above0_of (s1 :: signal))).
  cbn [app crossings].
  destruct (crossings _ (0 + 1) _) as [p1 v1] eqn:E1.
  destruct (crossings _ (0 + 1) _) as [p2 v2] eqn:E2 in |- *.
  apply crossings_range in E1 as [Hp1 Hv1].
  apply crossings_range in E2 as [Hp2 Hv2].
  rewrite Forall_forall in Hp1, Hv1, Hp2, Hv2.
  cbn [fst snd]. intros [= <- <-] [= <- <-].
  rewrite !sorted_elem.
  assert (Hlen : (2 <= length (s0 :: s1 :: signal))%nat) by (cbn; lia).
  destruct (Qltb 0 s0) eqn:E0; cbn.
  - apply Qltb_lt in E0. split; [|split].
    + split; [intros _|intros _; apply list_elem_of_here].
      split; [lia|]. by exists s0.
    + split.
      * intros Hin. specialize (Hv2 _ Hin). cbn beta in Hv2. lia.
      * intros (_ & x0 & [= <-] & Hx). lra.
    + intros Hin. specialize (Hp2 _ Hin). cbn beta in Hp2. lia.
  - apply Qltb_ge in E0. split; [|split].
    + split.
      * intros Hin. specialize (Hp1 _ Hin). cbn beta in Hp1. lia.
      * intros (_ & x0 & [= <-] & Hx). lra.
    + split; [intros _|intros _; apply list_elem_of_here].
      split; [lia|]. by exists s0.
    + intros Hin. specialize (Hp2 _ Hin). cbn beta in Hp2. lia.
Qed.

Lemma sign_changes_reports_first_sample_witness :
  (0 ∈ [1] <->
   (2 <= length [0; 2; 0; 0]%Q)%nat /\
   exists x0, [0; 2; 0; 0]%Q !! 0%nat = Some x0 /\ (0 < x0)%Q) /\
  (-1 ∈ [-1; 1] <->
   (2 <= length [0; 2; 0; 0]%Q)%nat /\
   exists x0, [0; 2; 0; 0]%Q !! 0%nat = Some x0 /\ (x0 <= 0)%Q) /\
  ~ 0 ∈ [1; 3].
Proof.
  apply (sign_changes_reports_first_sample [0; 2; 0; 0]%Q [1] [1] [1; 3] [-1; 1]);
    reflexivity.
Defined.

(** X5: with the policy [never], index 0 is never among the positions
    where the signal becomes positive, but it is among the positions where
    it becomes non-positive exactly when the signal has at least three
    samples, the first one positive and the second one not. *)
Theorem sign_changes_never_first_sample (signal : list Q) (ps vs : list Z) :
  sign_changes signal never = Ok (ps, vs) ->
  ~ 0 ∈ ps /\
  (0 ∈ vs <->
   (3 <= length signal)%nat /\
   exists x0 x1, signal !! 0%nat = Some x0 /\ signal !! 1%nat = Some x1 /\
                 (0 < x0)%Q /\ (x1 <= 0)%Q).
Proof.
  destruct signal as [|s0 signal]; [done|].
  rewrite sign_changes_crossings by done. cbv zeta. cbn [first_index_marker].
  destruct signal as [|s1 signal].
  { cbn. intros [= <- <-]. split; [apply not_elem_of_nil|].
    split; [by intros ?%elem_of_nil|]. intros [? _]. cbn in *. lia. }
  destruct signal as [|s2 signal].
  { intros H. assert (ps = [] /\ vs = []) as [-> ->].
    { revert H. cbn. destruct (Qltb 0 s0); cbn; by intros [= <- <-]. }
    split; [apply not_elem_of_nil|].
    split; [by intros ?%elem_of_nil|]. intros [? _]. cbn in *. lia. }
  change (removelast (above0_of (s0 :: s1 :: s2 :: signal)))
    with ((if Qltb 0 s0 then 1 else 0) :: (if Qltb 0 s1 then 1 else 0)
          :: removelast (above0_of (s2 :: signal))).
  cbn [app crossings].
  destruct (crossings _ (0 + 1 + 1) _) as [p2 v2] eqn:E.
  apply crossings_range in E as [Hp Hv].
  rewrite Forall_forall in Hp, Hv.
  assert (Hlen : (3 <= length (s0 :: s1 :: s2 :: signal))%nat) by (cbn; lia).
  destruct (Qltb 0 s0) eqn:E0; destruct (Qltb 0 s1) eqn:E1; cbn -[sorted];
    intros [= <- <-]; rewrite ?insert_sorted_elem, ?sorted_elem;
    (split; [intros Hin;
             assert (Hin' : 0 ∈ p2) by (by destruct Hin as [?|?]; [lia|]) || (exact Hin);
             specialize (Hp _ Hin'); cbn beta in Hp; lia|]).
  - apply Qltb_lt in E1. split.
    + intros Hin. specialize (Hv _ Hin). cbn beta in Hv. lia.
    + intros (_ & x0 & x1 & [= <-] & [= <-] & ? & ?). lra.
  - apply Qltb_lt in E0. apply Qltb_ge in E1.
    split; [intros _|intros _; left; lia].
    split; [lia|]. by exists s0, s1.
  - apply Qltb_ge in E0. split.
    + intros Hin. specialize (Hv _ Hin). cbn beta in Hv. lia.
    + intros (_ & x0 & x1 & [= <-] & [= <-] & ? & ?). lra.
  - apply Qltb_ge in E0. split.
    + intros Hin. specialize (Hv _ Hin). cbn beta in Hv. lia.
    + intros (_ & x0 & x1 & [= <-] & [= <-] & ? & ?). lra.
Qed.

Lemma sign_changes_never_first_sample_witness :
  ~ 0 ∈ [3] /\
  (0 ∈ [0] <->
   (3 <= length [1; 0; 0; 2; 0]%Q)%nat /\
   exists x0 x1, [1; 0; 0; 2; 0]%Q !! 0%nat = Some x0 /\
                 [1; 0; 0; 2; 0]%Q !! 1%nat = Some x1 /\
                 (0 < x0)%Q /\ (x1 <= 0)%Q).
Proof.
  apply (sign_changes_never_first_sample [1; 0; 0; 2; 0]%Q [3] [0]). reflexivity.
Defined.

Lemma intervals_above_threshold_runs_witness :
  let signal := [0; 2; 3; 0; -1; 4; 0]%Q in
  0 <= 1 <= 2 /\ 2 + 1 < Z.of_nat (length signal) /\
  (forall k x, 1 <= k <= 2 -> signal !! Z.to_nat k = Some x -> (1 < x)%Q) /\
  (forall x, 0 < 1 -> signal !! Z.to_nat (1 - 1) = Some x -> (x <= 1)%Q) /\
  (forall x, 2 + 2 < Z.of_nat (length signal) ->
             signal !! Z.to_nat (2 + 1) = Some x -> (x <= 1)%Q).
Proof.
  apply (intervals_above_threshold_runs [0; 2; 3; 0; -1; 4; 0]%Q 1
           [(1, 2); (5, 5)] 1 2); [reflexivity|apply list_elem_of_here].
Defined.

(** X7: consecutive intervals are given in ascending order and are
    separated: between the end of one and the start of the next there is at
    least one sample. *)
Theorem intervals_above_threshold_separated (signal : list Q) (threshold : Q)
    (out : list (Z * Z)) (k : nat) (s e s' e' : Z) :
  intervals_above_threshold signal threshold = Ok out ->
  out !! k = Some (s, e) -> out !! S k = Some (s', e') ->
  e + 2 <= s'.
Proof.
  intros (ps & vs & _ & Hruns & ->)%intervals_above_threshold_zip.
  by eapply runs_zip_separated.
Qed.

Lemma intervals_above_threshold_separated_witness :
  intervals_above_threshold [0; 2; 3; 0; -1; 4; 0]%Q 1 = Ok [(1, 2); (5, 5)] /\
  2 + 2 <= 5.
Proof.
  split; [reflexivity|].
  apply (intervals_above_threshold_separated [0; 2; 3; 0; -1; 4; 0]%Q 1
           [(1, 2); (5, 5)] 0 1 2 5 5); reflexivity.
Defined.

(** X8: every sample above the threshold, the last sample of the signal
    apart, lies in one of the intervals. *)
Theorem intervals_above_threshold_complete (signal : list Q) (threshold : Q)
    (out : list (Z * Z)) (k : nat) (x : Q) :
  intervals_above_threshold signal threshold = Ok out ->
  signal !! k = Some x -> (S k < length signal)%nat -> (threshold < x)%Q ->
  exists s e, (s, e) ∈ out /\ s <= Z.of_nat k <= e.
Proof.
  intros (ps & vs & E & _ & ->)%intervals_above_threshold_zip Hx Hk Hgt.
  set (suf := removelast (above0_of (map (fun x => (x - threshold)%Q) signal))) in *.
  assert (Hbits : Forall bit suf).
  { unfold suf. rewrite removelast_firstn_len. apply Forall_take, above0_of_bits. }
  destruct (crossings_complete _ _ _ _ _ Hbits E) as [Hc _].
  destruct (Hc eq_refl k) as (p & v & Hin & Hr).
  - unfold suf. rewrite removelast_firstn_len.
    unfold above0_of. rewrite !length_map.
    rewrite lookup_take_lt by lia.
    rewrite !list_lookup_fmap, Hx. cbn.
    rewrite Qltb_of_lt; [done|lra].
  - exists p, v. split; [done|lia].
Qed.

Lemma intervals_above_threshold_complete_witness :
  intervals_above_threshold [0; 2; 3; 0; -1; 4; 0]%Q 1 = Ok [(1, 2); (5, 5)] /\
  exists s e, (s, e) ∈ [(1, 2); (5, 5)] /\ s <= Z.of_nat 2 <= e.
Proof.
  split; [reflexivity|].
  apply (intervals_above_threshold_complete [0; 2; 3; 0; -1; 4; 0]%Q 1
           [(1, 2); (5, 5)] 2 3%Q); [reflexivity|reflexivity|cbn; lia|reflexivity].
Defined.

End SignalMathEdges.

Module PeakBoundsFacts.
Import PeakBounds.

Lemma np_where_from_app (b1 b2 : list bool) : forall i,
  np_where_from i (b1 ++ b2)
  = np_where_from i b1 ++ np_where_from (i + Z.of_nat (length b1)) b2.
Proof.
  induction b1 as [|x b1 IH]; intros i; cbn [app np_where_from length].
  - by rewrite Z.add_0_r.
  - rewrite IH. replace (i + 1 + Z.of_nat (length b1))
      with (i + Z.of_nat (S (length b1))) by lia.
    by destruct x.
Qed.

Lemma np_where_from_shift (b : list bool) : forall i,
  np_where_from i b = map (Z.add i) (np_where_from 0 b).
Proof.
  induction b as [|x b IH]; intros i; cbn [np_where_from]; [done|].
  rewrite (IH (i + 1)), (IH (0 + 1)).
  assert (Hm : map (Z.add (i + 1)) (np_where_from 0 b)
               = map (Z.add i) (map (Z.add (0 + 1)) (np_where_from 0 b))).
  { rewrite map_map. apply map_ext. intros; lia. }
  rewrite Hm. destruct x; cbn [map]; [|done]. by rewrite Z.add_0_r.
Qed.

Lemma np_where_from_range (b : list bool) : forall i,
  Forall (fun k => i <= k < i + Z.of_nat (length b)) (np_where_from i b).
Proof.
  induction b as [|x b IH]; intros i; cbn [np_where_from length]; [constructor|].
  specialize (IH (i + 1)).
  assert (Forall (fun k => i <= k < i + Z.of_nat (S (length b)))
                 (np_where_from (i + 1) b)) as IH'.
  { eapply Forall_impl; [exact IH|]. intros; cbn beta in *; lia. }
  destruct x; [constructor; [lia|]|]; done.
Qed.

(** The hits of a predicate: positions where it holds. *)
Lemma np_where_from_hit (a : list Q) (predicate : Q -> bool) : forall i k,
  k ∈ np_where_from i (map predicate a) ->
  exists x, a !! Z.to_nat (k - i) = Some x /\ predicate x = true.
Proof.
  induction a as [|y a IH]; intros i k; cbn [map np_where_from].
  { by intros ?%elem_of_nil. }
  pose proof (np_where_from_range (map predicate a) (i + 1)) as Hr.
  rewrite Forall_forall in Hr.
  destruct (predicate y) eqn:Hy.
  - intros [->|Hin]%elem_of_cons.
    + exists y. by rewrite Z.sub_diag.
    + specialize (Hr _ Hin). destruct (IH _ _ Hin) as (x & Hx & Hp).
      exists x. split; [|done].
      replace (Z.to_nat (k - i)) with (S (Z.to_nat (k - (i + 1)))) by lia. done.
  - intros Hin. specialize (Hr _ Hin). destruct (IH _ _ Hin) as (x & Hx & Hp).
    exists x. split; [|done].
    replace (Z.to_nat (k - i)) with (S (Z.to_nat (k - (i + 1)))) by lia. done.
Qed.

(** The chunks do not matter: [scan_chunks] finds the first hit of the
    whole array. *)
Lemma scan_chunks_head (a : list Q) (predicate : Q -> bool) (l : list nat) :
  forall i0,
    np_where (map predicate (take i0 a)) = [] ->
    scan_chunks a predicate i0 (map Some l ++ [None])
    = head (np_where (map predicate a)).
Proof.
  unfold np_where.
  assert (Hsplit : forall i0,
    np_where_from 0 (map predicate (take i0 a)) = [] ->
    np_where_from 0 (map predicate a)
    = map (Z.add (Z.of_nat i0)) (np_where_from 0 (map predicate (drop i0 a)))).
  { intros i0 Hnil. rewrite <- (take_drop i0 a) at 1.
    rewrite map_app, np_where_from_app, Hnil. cbn [app].
    rewrite np_where_from_shift, length_map, length_take.
    destruct (Nat.le_gt_cases i0 (length a)) as [Hle|Hgt].
    - rewrite Nat.min_l by lia. by rewrite Z.add_0_l.
    - rewrite drop_ge by lia. done. }
  induction l as [|i1 l IH]; intros i0 Hnil; cbn [map app scan_chunks chunk_of];
    unfold np_where.
  - rewrite (Hsplit i0 Hnil).
    destruct (np_where_from 0 (map predicate (drop i0 a))) as [|ind inds];
      cbn [map head]; [done|]. f_equal. lia.
  - unfold py_slice.
    destruct (np_where_from 0 (map predicate (take (i1 - i0) (drop i0 a))))
      as [|ind inds] eqn:Hchunk.
    + apply IH.
      destruct (Nat.le_gt_cases i0 i1) as [Hle|Hgt].
      * replace i1 with (i0 + (i1 - i0))%nat at 1 by lia.
        rewrite <- take_take_drop, map_app, np_where_from_app, Hnil.
        cbn [app]. by rewrite np_where_from_shift, Hchunk.
      * replace (take i1 a) with (take i1 (take i0 a))
          by (rewrite take_take; f_equal; lia).
        rewrite <- (take_drop i1 (take i0 a)), map_app, np_where_from_app in Hnil.
        by apply app_eq_nil in Hnil as [? _].
    + rewrite (Hsplit i0 Hnil).
      rewrite <- (take_drop (i1 - i0) (drop i0 a)), map_app, np_where_from_app, Hchunk.
      cbn [app map head]. f_equal. lia.
Qed.

Lemma find_first_fast_unchunked (a : list Q) (predicate : Q -> bool) :
  find_first_fast a predicate
  = match np_where (map predicate a) with
    | ind :: _ => ind
    | [] => Z.of_nat (length a) - 1
    end.
Proof.
  unfold find_first_fast, chunk_inds.
  rewrite <- (map_map (fun k => (chunk_size * S k)%nat) Some).
  rewrite scan_chunks_head by done.
  by destruct (np_where (map predicate a)).
Qed.

Lemma find_first_fast_range (a : list Q) (predicate : Q -> bool) :
  a <> [] -> 0 <= find_first_fast a predicate < Z.of_nat (length a).
Proof.
  intros Ha. rewrite find_first_fast_unchunked. unfold np_where.
  pose proof (np_where_from_range (map predicate a) 0) as Hr.
  destruct (np_where_from 0 (map predicate a)) as [|ind inds].
  - destruct a; [done|]. cbn [length]. lia.
  - apply Forall_inv in Hr. rewrite length_map in Hr. lia.
Qed.

(** [find_first_fast] returns the position of the first hit, or the last
    position when there is none. *)
Lemma find_first_fast_hit (a : list Q) (predicate : Q -> bool) :
  (exists x, a !! Z.to_nat (find_first_fast a predicate) = Some x /\
             predicate x = true) \/
  (Forall (fun x => predicate x = false) a /\
   find_first_fast a predicate = Z.of_nat (length a) - 1).
Proof.
  rewrite find_first_fast_unchunked. unfold np_where.
  destruct (np_where_from 0 (map predicate a)) as [|ind inds] eqn:E.
  - right. split; [|done]. clear -E. revert E. generalize 0.
    induction a as [|y a IH]; intros i; cbn [map np_where_from]; [constructor|].
    destruct (predicate y) eqn:Hy; [done|]. intros E. constructor; [done|].
    by eapply IH.
  - left. destruct (np_where_from_hit a predicate 0 ind) as (x & Hx & Hp).
    { rewrite E. apply list_elem_of_here. }
    exists x. by rewrite Z.sub_0_r in Hx.
Qed.

Lemma slice_down_valid {A : Type} (signal : list A) (max_idx : Z) :
  0 <= max_idx < Z.of_nat (length signal) ->
  slice_down signal max_idx = reverse (take (S (Z.to_nat max_idx)) signal).
Proof.
  intros Hk. unfold slice_down.
  destruct (Z.ltb_spec max_idx 0) as [?|_]; [lia|].
  destruct (Z.ltb_spec max_idx 0) as [?|_]; [lia|].
  rewrite Z.min_l by lia. by rewrite Nat.add_1_r.
Qed.

Lemma slice_from_valid {A : Type} (signal : list A) (max_idx : Z) :
  0 <= max_idx < Z.of_nat (length signal) ->
  slice_from signal max_idx = drop (Z.to_nat max_idx) signal.
Proof.
  intros Hk. unfold slice_from.
  by destruct (Z.ltb_spec max_idx 0) as [?|_]; [lia|].
Qed.

(** The bounds enclose the peak and are positions of the signal. *)
Lemma peak_bounds_contains_peak (signal : list Q) (max_idx : Z)
    (fraction_of_max zero_level : Q) (l r : Z) :
  0 <= max_idx < Z.of_nat (length signal) ->
  peak_bounds signal max_idx fraction_of_max zero_level = Ok (l, r) ->
  0 <= l <= max_idx /\ max_idx <= r < Z.of_nat (length signal).
Proof.
  intros Hk. unfold peak_bounds.
  destruct signal as [|s0 signal]; [cbn in Hk; lia|].
  cbn [length Nat.eqb].
  destruct (py_index_in_range (s0 :: signal) max_idx Hk) as (h & -> & _).
  rewrite bind_Ok.
  destruct (Qltb h _).
  { intros [= <- <-]. cbn [length] in Hk. lia. }
  rewrite slice_down_valid, slice_from_valid by done.
  intros [= <- <-].
  match goal with
  | |- context [find_first_fast ?a ?p + max_idx] =>
      pose proof (find_first_fast_range a p) as Hr
  end.
  match goal with
  | |- context [max_idx - find_first_fast ?a ?p] =>
      pose proof (find_first_fast_range a p) as Hl
  end.
  rewrite length_reverse in Hl. cbn [length] in Hl. rewrite length_take in Hl.
  rewrite length_drop in Hr. cbn [length] in *.
  assert (Hne1 : forall (A : Type) (y : A) (l : list A), reverse (y :: l) <> []).
  { intros A y l' E. apply (f_equal length) in E.
    rewrite length_reverse in E. discriminate. }
  assert (drop (Z.to_nat max_idx) (s0 :: signal) <> []) as Hne2.
  { intros E. apply (f_equal length) in E.
    rewrite length_drop in E. cbn [length] in E. lia. }
  specialize (Hl (Hne1 _ _ _)). specialize (Hr Hne2). lia.
Qed.

(** Where some sample left of the peak is below the threshold, the sample
    at the left bound is below it too. *)
Lemma peak_bounds_left_below_threshold (signal : list Q) (max_idx : Z)
    (fraction_of_max zero_level : Q) (l r : Z) (h : Q) (k : nat) (x : Q) :
  0 <= max_idx < Z.of_nat (length signal) ->
  py_index signal max_idx = Ok h ->
  let threshold := py_min zero_level (h * fraction_of_max)%Q in
  Qltb h threshold = false ->
  (k < Z.to_nat max_idx)%nat -> signal !! k = Some x -> Qltb x threshold = true ->
  peak_bounds signal max_idx fraction_of_max zero_level = Ok (l, r) ->
  exists y, py_index signal l = Ok y /\ Qltb y threshold = true.
Proof.
  intros Hk Hh threshold Hheight Hkl Hx Hbelow. unfold peak_bounds.
  destruct signal as [|s0 signal]; [cbn in Hk; lia|].
  cbn [length Nat.eqb]. rewrite Hh, bind_Ok. fold threshold. rewrite Hheight.
  rewrite slice_down_valid by done. intros [= <- _].
  set (a := reverse (take (S (Z.to_nat max_idx)) (s0 :: signal))).
  assert (Hlen : length a = S (Z.to_nat max_idx)).
  { unfold a. rewrite length_reverse, length_take. cbn [length] in *. lia. }
  destruct (find_first_fast_hit a (fun x => Qltb x threshold))
    as [(y & Hy & Hp)|[Hall _]].
  - pose proof (find_first_fast_range a (fun x => Qltb x threshold)) as Hr.
    rewrite Hlen in Hr.
    assert (a <> []) as Hne by (intros E; rewrite E in Hlen; done).
    specialize (Hr Hne).
    set (off := find_first_fast a (fun x => Qltb x threshold)) in *.
    unfold a in Hy. rewrite reverse_lookup in Hy
      by (rewrite length_take; cbn [length] in *; lia).
    rewrite length_take in Hy. rewrite lookup_take_lt in Hy
      by (cbn [length] in *; lia).
    destruct (py_index_in_range (s0 :: signal) (max_idx - off))
      as (y' & Hy' & Hy''); [cbn [length] in *; lia|].
    exists y'. split; [done|].
    replace (Z.to_nat (max_idx - off))
      with (S (Z.to_nat max_idx) `min` length (s0 :: signal) - S (Z.to_nat off))%nat
      in Hy'' by (cbn [length] in *; lia).
    rewrite Hy in Hy''. by injection Hy'' as <-.
  - exfalso. rewrite Forall_forall in Hall.
    assert (x ∈ a) as Hin.
    { unfold a. apply elem_of_reverse. apply list_elem_of_lookup.
      exists k. rewrite lookup_take_lt by lia. done. }
    specialize (Hall _ Hin). cbn beta in Hall. congruence.
Qed.

(** C2: when the peak is not below the threshold, the samples at the
    bounds returned by [peak_bounds] should be at or above the threshold,
    but for the signal [-1, 5, -1], peak index 1 and fraction 1/2 the
    threshold is 0 and the bounds are (0, 2), where the samples are -1: each
    bound is the first sample below the threshold, not the last one at or
    above it. *)
Theorem peak_bounds_includes_sample_below_threshold :
  let signal := [-1; 5; -1]%Q in
  let threshold := py_min 0 (5 * (1 # 2))%Q in
  Qltb 5 threshold = false /\
  peak_bounds signal 1 (1 # 2) 0 = Ok (0, 2) /\
  (exists x, py_index signal 0 = Ok x /\ Qltb x threshold = true) /\
  (exists x, py_index signal 2 = Ok x /\ Qltb x threshold = true).
Proof.
  repeat split; try reflexivity; exists (-1)%Q; split; reflexivity.
Qed.

(** C3: on the triangular pulse [-1, -1, 0, 1, 2, 3, 2, 1, 0, -1, -1],
    whose maximum 3 is at index 5, with offset 100, [find_peak_in_signal]
    should report the maximum at 105 with height 3; it reports 104 and
    height 2, because the position of the maximum within [left, right] is
    used as if it were a position in the whole waveform. *)
Theorem find_peak_in_signal_misplaces_maximum :
  let pulse := [-1; -1; 0; 1; 2; 3; 2; 1; 0; -1; -1]%Q in
  np_argmax pulse = Ok 5 /\
  py_index pulse 5 = Ok 3%Q /\
  find_peak_in_signal pulse pulse (1 # 2) 100 =
    Ok {| index_of_maximum := 104; height := 2; left_ := 101; right_ := 109;
          area := np_sum [-1; 0; 1; 2; 3; 2; 1; 0; -1]%Q |}.
Proof.
  repeat split.
Qed.

End PeakBoundsFacts.

Module PeakBoundsEdges.
Import PeakBounds PeakBoundsFacts.

(** Before the first hit the predicate fails. *)
Lemma np_where_from_first (a : list Q) (predicate : Q -> bool) :
  forall i ind inds (j : nat) x,
    np_where_from i (map predicate a) = ind :: inds ->
    i + Z.of_nat j < ind -> a !! j = Some x -> predicate x = false.
Proof.
  induction a as [|y a IH]; intros i ind inds j x; cbn [map np_where_from]; [done|].
  destruct (predicate y) eqn:Hy.
  - intros [= <- _] Hj. lia.
  - intros E Hj Hx. destruct j as [|j].
    + by injection Hx as <-.
    + cbn in Hx. eapply (IH (i + 1)); [exact E| |exact Hx]. lia.
Qed.

Lemma np_where_from_none (a : list Q) (predicate : Q -> bool) : forall i,
  np_where_from i (map predicate a) = [] ->
  Forall (fun x => predicate x = false) a.
Proof.
  induction a as [|y a IH]; intros i; cbn [map np_where_from]; [constructor|].
  destruct (predicate y) eqn:Hy; [done|]. intros E. constructor; [done|].
  by eapply IH.
Qed.

Lemma find_first_fast_before (a : list Q) (predicate : Q -> bool) (j : nat) (x : Q) :
  Z.of_nat j < find_first_fast a predicate -> a !! j = Some x ->
  predicate x = false.
Proof.
  rewrite find_first_fast_unchunked. unfold np_where.
  destruct (np_where_from 0 (map predicate a)) as [|ind inds] eqn:E.
  - intros _ Hx. apply np_where_from_none in E.
    rewrite Forall_forall in E. apply E. by eapply list_elem_of_lookup_2.
  - intros Hj Hx. eapply np_where_from_first; [exact E| |exact Hx]. lia.
Qed.

(** The maximum found by [np.argmax] and its position. *)
Lemma argmax_from_spec (l : list Q) : forall best besti i,
  let k := argmax_from best besti i l in
  (k = besti /\ Forall (fun y => (y <= best)%Q) l) \/
  (i <= k < i + Z.of_nat (length l) /\
   exists x, l !! Z.to_nat (k - i) = Some x /\ (best < x)%Q /\
     Forall (fun y => (y <= x)%Q) l /\
     forall (j : nat) y, Z.of_nat j < k - i -> l !! j = Some y -> (y < x)%Q).
Proof.
  induction l as [|x l IH]; intros best besti i; cbn [argmax_from length].
  { left. split; [done|constructor]. }
  destruct (Qltb best x) eqn:E.
  - apply Qltb_lt in E. right.
    destruct (IH x i (i + 1)) as [[Hk Hall]|(Hk & x' & Hx' & Hlt & Hall & Hfirst)].
    + rewrite Hk. split; [lia|]. exists x.
      rewrite Z.sub_diag. split; [done|]. split; [done|].
      split; [constructor; [lra|done]|]. intros j y Hj. lia.
    + split; [lia|]. exists x'.
      replace (Z.to_nat (argmax_from x i (i + 1) l - i))
        with (S (Z.to_nat (argmax_from x i (i + 1) l - (i + 1)))) by lia.
      split; [done|]. split; [lra|]. split; [constructor; [lra|done]|].
      intros [|j] y Hj Hy.
      * injection Hy as <-. done.
      * cbn in Hy. apply (Hfirst j); [lia|done].
  - apply Qltb_ge in E.
    destruct (IH best besti (i + 1)) as [[Hk Hall]|(Hk & x' & Hx' & Hlt & Hall & Hfirst)].
    + left. split; [done|]. constructor; done.
    + right. split; [lia|]. exists x'.
      replace (Z.to_nat (argmax_from best besti (i + 1) l - i))
        with (S (Z.to_nat (argmax_from best besti (i + 1) l - (i + 1)))) by lia.
      split; [done|]. split; [done|]. split; [constructor; [lra|done]|].
      intros [|j] y Hj Hy.
      * injection Hy as <-. lra.
      * cbn in Hy. apply (Hfirst j); [lia|done].
Qed.

Lemma np_argmax_spec (l : list Q) (k : Z) :
  np_argmax l = Ok k ->
  0 <= k < Z.of_nat (length l) /\
  exists x, l !! Z.to_nat k = Some x /\
    Forall (fun y => (y <= x)%Q) l /\
    forall (j : nat) y, Z.of_nat j < k -> l !! j = Some y -> (y < x)%Q.
Proof.
  destruct l as [|x l]; [done|]. cbn [np_argmax length]. intros [= <-].
  destruct (argmax_from_spec l x 0 1) as [[Hk Hall]|(Hk & x' & Hx' & Hlt & Hall & Hfirst)].
  - rewrite Hk. split; [lia|]. exists x. split; [done|].
    split; [constructor; [lra|done]|]. intros j y Hj. lia.
  - split; [lia|]. exists x'.
    replace (Z.to_nat (argmax_from x 0 1 l))
      with (S (Z.to_nat (argmax_from x 0 1 l - 1))) by lia.
    split; [done|]. split; [constructor; [lra|done]|].
    intros [|j] y Hj Hy.
    + by injection Hy as <-.
    + cbn in Hy. apply (Hfirst j); [lia|done].
Qed.

(** [a[lo:hi]] for bounds within the array. *)
Lemma py_slice_Z_lookup {A : Type} (a : list A) (lo hi : Z) (j : nat) :
  0 <= lo -> 0 <= hi -> Z.of_nat j < hi - lo ->
  py_slice_Z a lo hi !! j = a !! (Z.to_nat lo + j)%nat.
Proof.
  intros Hlo Hhi Hj. unfold py_slice_Z, py_slice.
  destruct (Z.ltb_spec lo 0) as [?|_]; [lia|].
  destruct (Z.ltb_spec hi 0) as [?|_]; [lia|].
  rewrite lookup_take_lt by lia. by rewrite lookup_drop.
Qed.

Lemma py_slice_Z_length {A : Type} (a : list A) (lo hi : Z) :
  0 <= lo <= hi -> hi <= Z.of_nat (length a) ->
  Z.of_nat (length (py_slice_Z a lo hi)) = hi - lo.
Proof.
  intros Hlo Hhi. unfold py_slice_Z, py_slice.
  destruct (Z.ltb_spec lo 0) as [?|_]; [lia|].
  destruct (Z.ltb_spec hi 0) as [?|_]; [lia|].
  rewrite length_take, length_drop. lia.
Qed.

(** X9: [find_first_fast] on an array that is not empty returns a position
    of the array before which the predicate fails everywhere; the predicate
    holds at that position, unless it holds nowhere, and then the position
    is the last one. The chunking does not show. *)
Theorem find_first_fast_first_hit (a : list Q) (predicate : Q -> bool) :
  a <> [] ->
  let k := find_first_fast a predicate in
  0 <= k < Z.of_nat (length a) /\
  (forall (j : nat) x, Z.of_nat j < k -> a !! j = Some x -> predicate x = false) /\
  ((exists x, a !! Z.to_nat k = Some x /\ predicate x = true) \/
   (Forall (fun x => predicate x = false) a /\ k = Z.of_nat (length a) - 1)).
Proof.
  intros Hne k. split; [by apply find_first_fast_range|]. split.
  - intros j x. apply find_first_fast_before.
  - apply find_first_fast_hit.
Qed.

Lemma find_first_fast_first_hit_witness :
  let a := (replicate 200 5 ++ [-1; 7; -2])%Q in
  let k := find_first_fast a (fun x => Qltb x 0) in
  0 <= k < Z.of_nat (length a) /\
  (forall (j : nat) x, Z.of_nat j < k -> a !! j = Some x -> Qltb x 0 = false) /\
  ((exists x, a !! Z.to_nat k = Some x /\ Qltb x 0 = true) \/
   (Forall (fun x => Qltb x 0 = false) a /\ k = Z.of_nat (length a) - 1)).
Proof.
  apply (find_first_fast_first_hit (replicate 200 5 ++ [-1; 7; -2])%Q
           (fun x => Qltb x 0)).
  done.
Defined.

(** X10: for a peak index that is a position of the signal the bounds
    enclose it and are positions of the signal; every sample strictly
    between the bounds is at or above the threshold; and each bound is
    either a sample below the threshold or the end of the signal on its
    side. *)
Theorem peak_bounds_stop_below_threshold (signal : list Q) (max_idx : Z)
    (fraction_of_max zero_level : Q) (l r : Z) (h : Q) :
  0 <= max_idx < Z.of_nat (length signal) ->
  py_index signal max_idx = Ok h ->
  peak_bounds signal max_idx fraction_of_max zero_level = Ok (l, r) ->
  let threshold := py_min zero_level (h * fraction_of_max)%Q in
  (0 <= l <= max_idx /\ max_idx <= r < Z.of_nat (length signal)) /\
  (forall k x, l < k < r -> signal !! Z.to_nat k = Some x -> (threshold <= x)%Q) /\
  (forall x, signal !! Z.to_nat l = Some x -> (threshold <= x)%Q -> l = 0) /\
  (forall x, signal !! Z.to_nat r = Some x -> (threshold <= x)%Q ->
             r = Z.of_nat (length signal) - 1).
Proof.
  intros Hk Hh Hb threshold.
  pose proof (peak_bounds_contains_peak _ _ _ _ _ _ Hk Hb) as Hrange.
  split; [exact Hrange|].
  revert Hb. unfold peak_bounds.
  destruct signal as [|s0 signal]; [cbn in Hk; lia|].
  set (sig := s0 :: signal) in *.
  cbn [length Nat.eqb]. rewrite Hh, bind_Ok. fold threshold.
  destruct (py_index_nonneg _ _ _ (proj1 Hk) Hh) as [Hh' _].
  destruct (Qltb h threshold) eqn:Hht.
  { intros [= <- <-]. apply Qltb_lt in Hht.
    split; [intros; lia|]. split; intros x Hx Hge; rewrite Hh' in Hx;
      injection Hx as <-; lra. }
  rewrite slice_down_valid, slice_from_valid by done.
  set (p := fun x => Qltb x threshold).
  set (down := reverse (take (S (Z.to_nat max_idx)) sig)).
  set (up := drop (Z.to_nat max_idx) sig).
  intros [= Hl Hr].
  assert (Hdown : forall j : nat, (j <= Z.to_nat max_idx)%nat ->
            down !! j = sig !! (Z.to_nat max_idx - j)%nat).
  { intros j Hj. unfold down. rewrite reverse_lookup by (rewrite length_take; lia).
    rewrite length_take. rewrite lookup_take_lt by lia. f_equal. lia. }
  assert (Hup : forall j : nat, up !! j = sig !! (Z.to_nat max_idx + j)%nat).
  { intros j. unfold up. by rewrite lookup_drop. }
  assert (Hld : length down = S (Z.to_nat max_idx)).
  { unfold down. rewrite length_reverse, length_take. lia. }
  assert (Hlu : Z.of_nat (length up) = Z.of_nat (length sig) - max_idx).
  { unfold up. rewrite length_drop. lia. }
  split; [|split].
  - intros k x Hkr Hx.
    destruct (Z.le_gt_cases k max_idx) as [Hle|Hgt].
    + assert (p x = false) as Hp.
      { apply (find_first_fast_before down p (Z.to_nat (max_idx - k))); [lia|].
        rewrite Hdown by lia. rewrite <- Hx. f_equal. lia. }
      by apply Qltb_ge in Hp.
    + assert (p x = false) as Hp.
      { apply (find_first_fast_before up p (Z.to_nat (k - max_idx))); [lia|].
        rewrite Hup. rewrite <- Hx. f_equal. lia. }
      by apply Qltb_ge in Hp.
  - intros x Hx Hge.
    destruct (find_first_fast_hit down p) as [(y & Hy & Hp)|[_ Hlast]].
    + rewrite Hdown in Hy by lia.
      replace (Z.to_nat max_idx - Z.to_nat (find_first_fast down p))%nat
        with (Z.to_nat l) in Hy by lia.
      rewrite Hx in Hy. injection Hy as <-. apply Qltb_lt in Hp. lra.
    + lia.
  - intros x Hx Hge.
    destruct (find_first_fast_hit up p) as [(y & Hy & Hp)|[_ Hlast]].
    + rewrite Hup in Hy.
      replace (Z.to_nat max_idx + Z.to_nat (find_first_fast up p))%nat
        with (Z.to_nat r) in Hy by lia.
      rewrite Hx in Hy. injection Hy as <-. apply Qltb_lt in Hp. lra.
    + lia.
Qed.

Lemma peak_bounds_stop_below_threshold_witness :
  let signal := [1; -1; 2; 5; 3; 1]%Q in
  let threshold := py_min 0 (5 * (1 # 2))%Q in
  (0 <= 1 <= 3 /\ 3 <= 5 < Z.of_nat (length signal)) /\
  (forall k x, 1 < k < 5 -> signal !! Z.to_nat k = Some x -> (threshold <= x)%Q) /\
  (forall x, signal !! Z.to_nat 1 = Some x -> (threshold <= x)%Q -> 1 = 0) /\
  (forall x, signal !! Z.to_nat 5 = Some x -> (threshold <= x)%Q ->
             5 = Z.of_nat (length signal) - 1).
Proof.
  apply (peak_bounds_stop_below_threshold [1; -1; 2; 5; 3; 1]%Q 3 (1 # 2) 0 1 5 5%Q);
    [cbn; lia|reflexivity|reflexivity].
Defined.

(** X11: on a signal that is not empty, [peak_bounds] returns bounds
    exactly when the peak index is one that Python accepts,
    [-len(signal) <= max_idx < len(signal)], and raises [IndexError] for
    every other index. *)
Theorem peak_bounds_index_errors (signal : list Q) (max_idx : Z)
    (fraction_of_max zero_level : Q) :
  signal <> [] ->
  let n := Z.of_nat (length signal) in
  (- n <= max_idx < n ->
   exists bounds, peak_bounds signal max_idx fraction_of_max zero_level = Ok bounds) /\
  (~ - n <= max_idx < n ->
   peak_bounds signal max_idx fraction_of_max zero_level = Raise IndexError).
Proof.
  intros Hne n. unfold peak_bounds.
  destruct signal as [|s0 signal]; [done|]. cbn [length Nat.eqb].
  pose proof (py_index_ok_iff (s0 :: signal) max_idx) as Hiff.
  split.
  - intros Hk. destruct (proj2 Hiff Hk) as [h ->]. rewrite bind_Ok.
    destruct (Qltb h _); eauto.
  - intros Hk. destruct (py_index (s0 :: signal) max_idx) as [h|e] eqn:E.
    + exfalso. apply Hk, Hiff. eauto.
    + apply py_index_raises in E as ->. done.
Qed.

Lemma peak_bounds_index_errors_witness :
  (exists bounds, peak_bounds [1; -1; 2; 5; 3; 1]%Q (-3) (1 # 2) 0 = Ok bounds) /\
  peak_bounds [1; -1; 2; 5; 3; 1]%Q 6 (1 # 2) 0 = Raise IndexError.
Proof.
  split.
  - apply (peak_bounds_index_errors [1; -1; 2; 5; 3; 1]%Q (-3) (1 # 2) 0); [done|].
    cbn. lia.
  - apply (peak_bounds_index_errors [1; -1; 2; 5; 3; 1]%Q 6 (1 # 2) 0); [done|].
    cbn. lia.
Defined.

(** X12: a negative peak index counts from the end of the signal, and
    so do the bounds returned for it: they are the bounds for
    [max_idx + len(signal)], each less [len(signal)]. *)
Theorem peak_bounds_negative_index (signal : list Q) (max_idx : Z)
    (fraction_of_max zero_level : Q) (l r : Z) :
  let n := Z.of_nat (length signal) in
  - n <= max_idx < 0 ->
  peak_bounds signal (max_idx + n) fraction_of_max zero_level = Ok (l, r) ->
  peak_bounds signal max_idx fraction_of_max zero_level = Ok (l - n, r - n).
Proof.
  intros n Hk. unfold peak_bounds.
  destruct (length signal =? 0)%nat; [done|].
  rewrite (py_index_negative signal max_idx Hk). fold n.
  destruct (py_index signal (max_idx + n)) as [h|e]; [|done].
  rewrite !bind_Ok. destruct (Qltb h _).
  { intros [= <- <-]. f_equal. f_equal; lia. }
  assert (Hd : slice_down signal max_idx = slice_down signal (max_idx + n)).
  { unfold slice_down. cbv zeta. fold n.
    destruct (Z.ltb_spec max_idx 0) as [_|?]; [|lia].
    destruct (Z.ltb_spec (max_idx + n) 0) as [?|_]; [lia|].
    destruct (Z.ltb_spec (max_idx + n) 0) as [?|_]; [lia|]. done. }
  assert (Hu : slice_from signal max_idx = slice_from signal (max_idx + n)).
  { unfold slice_from. cbv zeta. fold n.
    destruct (Z.ltb_spec max_idx 0) as [_|?]; [|lia].
    destruct (Z.ltb_spec (max_idx + n) 0) as [?|_]; [lia|].
    by rewrite Z.max_l by lia. }
  rewrite Hd, Hu. intros [= <- <-]. f_equal. f_equal; lia.
Qed.

Lemma peak_bounds_negative_index_witness :
  peak_bounds [1; -1; 2; 5; 3; 1]%Q (-3) (1 # 2) 0 = Ok (1 - 6, 5 - 6).
Proof.
  apply (peak_bounds_negative_index [1; -1; 2; 5; 3; 1]%Q (-3) (1 # 2) 0 1 5);
    [cbn; lia|reflexivity].
Defined.

(** X13: for a peak index that is a position of the wave,
    [width_at_fraction] returns a width of at least one sample and at most
    the length of the wave. *)
Theorem width_at_fraction_range (peak_wave : list Q) (fraction_of_max : Q)
    (max_idx : Z) :
  0 <= max_idx < Z.of_nat (length peak_wave) ->
  exists w, width_at_fraction peak_wave fraction_of_max max_idx = Ok w /\
            1 <= w <= Z.of_nat (length peak_wave).
Proof.
  intros Hk. unfold width_at_fraction.
  destruct (peak_bounds peak_wave max_idx fraction_of_max 0) as [[l r]|e] eqn:E.
  - rewrite bind_Ok. exists (r - l + 1). split; [done|].
    apply peak_bounds_contains_peak in E; [lia|done].
  - exfalso. revert E. unfold peak_bounds.
    destruct peak_wave as [|s0 w]; [cbn in Hk; lia|]. cbn [length Nat.eqb].
    destruct (py_index_in_range (s0 :: w) max_idx Hk) as (h & -> & _).
    rewrite bind_Ok. by destruct (Qltb h _).
Qed.

Lemma width_at_fraction_range_witness :
  exists w, width_at_fraction [1; -1; 2; 5; 3; 1]%Q (1 # 2) 3 = Ok w /\
            1 <= w <= Z.of_nat (length [1; -1; 2; 5; 3; 1]%Q).
Proof.
  apply (width_at_fraction_range [1; -1; 2; 5; 3; 1]%Q (1 # 2) 3). cbn. lia.
Defined.

(** For a peak index that is a position of the signal [peak_bounds]
    returns. *)
Lemma peak_bounds_valid_returns (signal : list Q) (max_idx : Z)
    (fraction_of_max zero_level : Q) :
  0 <= max_idx < Z.of_nat (length signal) ->
  exists l r,
    peak_bounds signal max_idx fraction_of_max zero_level = Ok (l, r) /\
    0 <= l <= max_idx /\ max_idx <= r < Z.of_nat (length signal).
Proof.
  intros Hk.
  destruct (peak_bounds signal max_idx fraction_of_max zero_level) as [[l r]|e] eqn:E.
  - exists l, r. split; [done|]. by eapply peak_bounds_contains_peak.
  - exfalso. revert E. unfold peak_bounds.
    destruct signal as [|s0 w]; [cbn in Hk; lia|]. cbn [length Nat.eqb].
    destruct (py_index_in_range (s0 :: w) max_idx Hk) as (h & -> & _).
    rewrite bind_Ok. by destruct (Qltb h _).
Qed.

Lemma np_argmax_returns (l : list Q) :
  l <> [] -> exists k, np_argmax l = Ok k.
Proof. destruct l; [done|]. cbn. eauto. Qed.

(** X14: [find_peak_in_signal] raises [ValueError] on an empty signal.
    On any other signal, with an unfiltered waveform at least as long, it
    returns a peak whose bounds lie in the interval that starts at
    [offset], enclose the maximum of the signal, and whose area is the sum
    of the unfiltered samples from the left bound to the right bound; the
    index of the maximum is at least [offset] and exceeds it by no more
    than the peak is long. *)
Theorem find_peak_in_signal_returns (signal unfiltered : list Q)
    (integration_bound_fraction : Q) (offset : Z) :
  (signal = [] ->
   find_peak_in_signal signal unfiltered integration_bound_fraction offset
   = Raise ValueError) /\
  (signal <> [] -> (length signal <= length unfiltered)%nat ->
   exists p,
     find_peak_in_signal signal unfiltered integration_bound_fraction offset = Ok p /\
     offset <= left_ p /\ left_ p <= right_ p /\
     right_ p < offset + Z.of_nat (length signal) /\
     (forall m, np_argmax signal = Ok m -> left_ p <= offset + m <= right_ p) /\
     offset <= index_of_maximum p <= offset + (right_ p - left_ p) /\
     area p = np_sum (py_slice_Z unfiltered (left_ p - offset) (right_ p - offset + 1))).
Proof.
  split; [by intros ->|]. intros Hne Hlen. unfold find_peak_in_signal.
  destruct (np_argmax_returns signal Hne) as [m Hm]. rewrite Hm, bind_Ok.
  destruct (np_argmax_spec _ _ Hm) as [Hmr _].
  destruct (peak_bounds_valid_returns signal m integration_bound_fraction 0 Hmr)
    as (l & r & -> & Hl & Hr).
  rewrite bind_Ok.
  assert (Hsl : Z.of_nat (length (py_slice_Z unfiltered l (r + 1))) = r + 1 - l).
  { apply py_slice_Z_length; lia. }
  destruct (np_argmax_returns (py_slice_Z unfiltered l (r + 1))) as [um Hum].
  { intros E. rewrite E in Hsl. cbn in Hsl. lia. }
  rewrite Hum, bind_Ok.
  destruct (np_argmax_spec _ _ Hum) as [Humr _]. rewrite Hsl in Humr.
  destruct (py_index_in_range unfiltered um) as (h & -> & _); [lia|].
  rewrite bind_Ok. eexists. split; [reflexivity|]. cbn.
  split; [lia|]. split; [lia|]. split; [lia|]. split.
  - intros m' [= <-]. lia.
  - split; [lia|]. do 2 f_equal; lia.
Qed.

Lemma find_peak_in_signal_returns_witness :
  let pulse := [-1; -1; 0; 1; 2; 3; 2; 1; 0; -1; -1]%Q in
  exists p,
    find_peak_in_signal pulse pulse (1 # 2) 100 = Ok p /\
    100 <= left_ p /\ left_ p <= right_ p /\
    right_ p < 100 + Z.of_nat (length pulse) /\
    (forall m, np_argmax pulse = Ok m -> left_ p <= 100 + m <= right_ p) /\
    100 <= index_of_maximum p <= 100 + (right_ p - left_ p) /\
    area p = np_sum (py_slice_Z pulse (left_ p - 100) (right_ p - 100 + 1)).
Proof.
  apply (find_peak_in_signal_returns [-1; -1; 0; 1; 2; 3; 2; 1; 0; -1; -1]%Q
           [-1; -1; 0; 1; 2; 3; 2; 1; 0; -1; -1]%Q (1 # 2) 100); [done|cbn; lia].
Defined.

(** X15: where the maximum fields of the peak come from. Counting from
    [offset], let the peak have bounds [l] and [r] and index of maximum
    [m]. Then [m] is the position of the largest unfiltered sample of the
    peak counted from the left bound: that sample is at [l + m]. The height
    is the unfiltered sample at [m], not at [l + m]. So both fields are
    those of the maximum only when the left bound is the start of the
    interval. *)
Theorem find_peak_in_signal_maximum_is_relative (signal unfiltered : list Q)
    (integration_bound_fraction : Q) (offset : Z) (p : Peak) :
  find_peak_in_signal signal unfiltered integration_bound_fraction offset = Ok p ->
  let l := left_ p - offset in
  let r := right_ p - offset in
  let m := index_of_maximum p - offset in
  0 <= l /\ 0 <= m <= r - l /\
  (exists x, unfiltered !! Z.to_nat (l + m) = Some x /\
     forall k y, l <= k <= r -> unfiltered !! Z.to_nat k = Some y -> (y <= x)%Q) /\
  unfiltered !! Z.to_nat m = Some (height p).
Proof.
  unfold find_peak_in_signal. intros H.
  apply bind_ok in H as (mi & Hm & H).
  apply bind_ok in H as ([l r] & Hb & H).
  apply bind_ok in H as (um & Hum & H).
  apply bind_ok in H as (h & Hh & H). injection H as <-. cbn.
  replace (offset + l - offset) with l by lia.
  replace (offset + r - offset) with r by lia.
  replace (offset + um - offset) with um by lia.
  destruct (np_argmax_spec _ _ Hm) as [Hmr _].
  destruct (peak_bounds_contains_peak _ _ _ _ _ _ Hmr Hb) as [Hl Hr].
  destruct (np_argmax_spec _ _ Hum) as (Humr & x & Hx & Hall & _).
  assert (Hle : Z.of_nat (length (py_slice_Z unfiltered l (r + 1))) <= r + 1 - l).
  { unfold py_slice_Z, py_slice.
    destruct (Z.ltb_spec l 0) as [?|_]; [lia|].
    destruct (Z.ltb_spec (r + 1) 0) as [?|_]; [lia|].
    rewrite length_take. lia. }
  split; [lia|]. split; [lia|]. split.
  - exists x. split.
    + rewrite py_slice_Z_lookup in Hx by lia.
      rewrite <- Hx. f_equal. lia.
    + intros k y Hk Hy. rewrite Forall_forall in Hall. apply Hall.
      apply list_elem_of_lookup. exists (Z.to_nat (k - l)).
      rewrite py_slice_Z_lookup by lia. rewrite <- Hy. f_equal. lia.
  - apply py_index_nonneg in Hh; [|lia]. by destruct Hh.
Qed.

Lemma find_peak_in_signal_maximum_is_relative_witness :
  let pulse := [-1; -1; 0; 1; 2; 3; 2; 1; 0; -1; -1]%Q in
  0 <= 101 - 100 /\ 0 <= 104 - 100 <= 109 - 100 - (101 - 100) /\
  (exists x, pulse !! Z.to_nat (101 - 100 + (104 - 100)) = Some x /\
     forall k y, 101 - 100 <= k <= 109 - 100 -> pulse !! Z.to_nat k = Some y ->
                 (y <= x)%Q) /\
  pulse !! Z.to_nat (104 - 100) = Some 2%Q.
Proof.
  apply (find_peak_in_signal_maximum_is_relative
           [-1; -1; 0; 1; 2; 3; 2; 1; 0; -1; -1]%Q
           [-1; -1; 0; 1; 2; 3; 2; 1; 0; -1; -1]%Q (1 # 2) 100
           {| index_of_maximum := 104; height := 2; left_ := 101; right_ := 109;
              area := np_sum [-1; 0; 1; 2; 3; 2; 1; 0; -1]%Q |}).
  reflexivity.
Defined.

End PeakBoundsEdges.

Module RefinerFacts.
Import SignalMath Refiner SignalMathSpec RefinerSpec SignalMathFacts.

Lemma length_convolve_same (signal : list Q) :
  (length derivative_kernel <= length signal)%nat ->
  length (convolve_same signal derivative_kernel) = length signal.
Proof.
  unfold convolve_same, convolve_full.
  rewrite length_take, length_drop, length_map, length_seq.
  change (length derivative_kernel) with 9%nat.
  change ((9 - 1) / 2)%nat with 4%nat. lia.
Qed.

Lemma zero_edges_shape (s : list Q) :
  (8 <= length s)%nat ->
  exists m, zero_edges 4 s = 0%Q :: ([0; 0; 0]%Q ++ m ++ [0; 0]%Q) ++ [0; 0]%Q /\
            (length m + 8 = length s)%nat.
Proof.
  intros Hs. exists (take (length s - 8) (drop 4 s)). split.
  - unfold zero_edges. rewrite length_app, length_replicate, length_drop.
    replace (4 + (length s - 4) - 4)%nat with (4 + (length s - 8))%nat by lia.
    rewrite take_app_add' by (symmetry; apply length_replicate).
    cbn [replicate app]. rewrite <- !app_assoc. done.
  - rewrite length_take, length_drop. lia.
Qed.

Lemma np_select_where (mask : list bool) : forall (pre a : list Z),
  (length mask <= length a)%nat ->
  np_select (pre ++ a) (np_where_from (Z.of_nat (length pre)) mask)
  = compress mask a.
Proof.
  unfold np_select.
  induction mask as [|m mask IH]; intros pre [|x a] Hlen; cbn [length] in Hlen;
    try done; try lia.
  cbn [np_where_from compress].
  specialize (IH (pre ++ [x]) a).
  rewrite length_app, <- app_assoc in IH. cbn [length app] in IH.
  replace (Z.of_nat (length pre + 1)) with (Z.of_nat (length pre) + 1) in IH by lia.
  destruct m.
  - cbn [omap list_omap]. rewrite Nat2Z.id, list_lookup_middle by done.
    rewrite IH by lia. done.
  - apply IH. lia.
Qed.

Lemma alternate_weaken lo lo' ps vs :
  lo' <= lo -> alternate lo ps vs -> alternate lo' ps vs.
Proof.
  destruct ps as [|p ps], vs as [|v vs]; simpl; try done.
  intros ? (? & ? & ?). repeat split; [lia|done..].
Qed.

Lemma runs_alternate ps : forall lo vs,
  runs lo ps vs ->
  let mask := zip_with (fun p v => negb (p =? v)) ps vs in
  alternate (lo - 1) (compress mask ps) (compress mask vs).
Proof.
  induction ps as [|p ps IH]; intros lo [|v vs]; cbn [runs]; try done.
  intros (Hp & Hv & Hr). cbn [zip_with compress].
  specialize (IH _ _ Hr). cbv zeta in IH.
  destruct (Z.eqb_spec p v) as [->|Hne]; cbn [negb].
  - apply (alternate_weaken (v + 2 - 1)); [lia|done].
  - cbn [alternate]. repeat split; [lia..|].
    apply (alternate_weaken (v + 2 - 1)); [lia|done].
Qed.

Lemma alternate_length lo ps vs : alternate lo ps vs -> length ps = length vs.
Proof.
  revert lo vs. induction ps as [|p ps IH]; intros lo [|v vs]; simpl; try done.
  intros (_ & _ & Hr). f_equal. by eapply IH.
Qed.

Lemma alternate_check lo ps vs :
  alternate lo ps vs ->
  forallb id (zip_with (fun v p => p <? v) vs ps) = true.
Proof.
  revert lo vs. induction ps as [|p ps IH]; intros lo [|v vs]; simpl; try done.
  intros (_ & Hv & Hr). apply andb_true_iff. split; [|by eapply IH].
  unfold id. lia.
Qed.

Lemma Forall_compress (P : Z -> Prop) mask a :
  Forall P a -> Forall P (compress mask a).
Proof.
  intros H. revert mask. induction H as [|x a Hx Ha IH]; intros [|m mask];
    cbn [compress]; try constructor.
  destruct m; [constructor|]; done.
Qed.

(** The candidates of a signal that is long enough alternate strictly and
    are positions of the signal. *)
Lemma candidates_alternate (signal : list Q) :
  (length derivative_kernel <= length signal)%nat ->
  exists ps vs,
    candidates signal = Ok (ps, vs) /\
    alternate 0 ps vs /\
    Forall (fun p => 0 <= p < Z.of_nat (length signal)) ps /\
    Forall (fun v => 0 <= v < Z.of_nat (length signal)) vs.
Proof.
  intros Hlen. unfold candidates.
  pose proof (length_convolve_same signal Hlen) as Hc.
  change ((length derivative_kernel - 1) / 2)%nat with 4%nat.
  change (length derivative_kernel) with 9%nat in Hlen.
  destruct (zero_edges_shape (convolve_same signal derivative_kernel))
    as (m & -> & Hm); [lia|].
  destruct (sign_changes_never_zero_edges ([0; 0; 0]%Q ++ m ++ [0; 0]%Q) 0%Q)
    as (ps & vs & -> & Hr & Rp & Rv).
  cbv [mbind result_bind].
  destruct (runs_Sorted _ _ _ Hr) as [Sp Sv].
  rewrite !sorted_Sorted by done.
  rewrite (runs_length _ _ _ Hr), Nat.eqb_refl. cbn [negb].
  unfold np_where.
  rewrite (np_select_where _ [] ps), (np_select_where _ [] vs);
    [|rewrite length_zip_with, (runs_length _ _ _ Hr); lia..].
  apply runs_alternate in Hr. cbv zeta in Hr. cbn in Hr.
  rewrite (alternate_check _ _ _ Hr). cbn [negb].
  eexists _, _. split; [reflexivity|]. split; [done|].
  rewrite !length_app in Rp, Rv. cbn [length] in Rp, Rv.
  split; apply Forall_compress.
  - eapply Forall_impl; [exact Rp|]. intros; cbn beta in *; lia.
  - eapply Forall_impl; [exact Rv|]. intros; cbn beta in *; lia.
Qed.

Lemma foldl_max_spec l : forall x,
  is_max (foldl Z.max x l) (x :: l).
Proof.
  induction l as [|y l IH]; intros x; cbn [foldl].
  - split; [apply list_elem_of_here|]. intros z Hz.
    apply list_elem_of_singleton in Hz. lia.
  - destruct (IH (Z.max x y)) as [Hin Hub]. split.
    + apply elem_of_cons in Hin as [Hin|Hin].
      * rewrite Hin. destruct (Z.max_spec x y) as [[_ ->]|[_ ->]].
        -- apply list_elem_of_further, list_elem_of_here.
        -- apply list_elem_of_here.
      * by do 2 apply list_elem_of_further.
    + intros z Hz. rewrite !elem_of_cons in Hz.
      destruct Hz as [->|[->|Hz]].
      * specialize (Hub (Z.max x y) (list_elem_of_here _ _)). lia.
      * specialize (Hub (Z.max x y) (list_elem_of_here _ _)). lia.
      * apply Hub. by apply list_elem_of_further.
Qed.

Lemma foldl_min_spec l : forall x,
  is_min (foldl Z.min x l) (x :: l).
Proof.
  induction l as [|y l IH]; intros x; cbn [foldl].
  - split; [apply list_elem_of_here|]. intros z Hz.
    apply list_elem_of_singleton in Hz. lia.
  - destruct (IH (Z.min x y)) as [Hin Hub]. split.
    + apply elem_of_cons in Hin as [Hin|Hin].
      * rewrite Hin. destruct (Z.min_spec x y) as [[_ ->]|[_ ->]].
        -- apply list_elem_of_here.
        -- apply list_elem_of_further, list_elem_of_here.
      * by do 2 apply list_elem_of_further.
    + intros z Hz. rewrite !elem_of_cons in Hz.
      destruct Hz as [->|[->|Hz]].
      * specialize (Hub (Z.min x y) (list_elem_of_here _ _)). lia.
      * specialize (Hub (Z.min x y) (list_elem_of_here _ _)). lia.
      * apply Hub. by apply list_elem_of_further.
Qed.

Lemma np_max_ok l x : np_max l = Ok x -> is_max x l.
Proof. destruct l as [|y l]; [done|]. intros [= <-]. apply foldl_max_spec. Qed.

Lemma np_min_ok l x : np_min l = Ok x -> is_min x l.
Proof. destruct l as [|y l]; [done|]. intros [= <-]. apply foldl_min_spec. Qed.

Lemma np_max_inhabited l y : y ∈ l -> exists x, np_max l = Ok x.
Proof. destruct l; [by intros ?%elem_of_nil|]. simpl. eauto. Qed.

Lemma np_min_inhabited l y : y ∈ l -> exists x, np_min l = Ok x.
Proof. destruct l; [by intros ?%elem_of_nil|]. simpl. eauto. Qed.

Lemma alternate_lower lo ps vs :
  alternate lo ps vs -> Forall (Z.lt lo) ps /\ Forall (Z.lt lo) vs.
Proof.
  revert lo vs. induction ps as [|p ps IH]; intros lo [|v vs]; simpl; try done.
  intros (Hp & Hv & Hr). apply IH in Hr as [H1 H2].
  split; constructor; try lia.
  - eapply Forall_impl; [exact H1|]. intros; cbn beta in *; lia.
  - eapply Forall_impl; [exact H2|]. intros; cbn beta in *; lia.
Qed.

Lemma filter_all (P : Z -> Prop) `{!forall x, Decision (P x)} (l : list Z) :
  Forall P l -> filter P l = l.
Proof.
  induction 1 as [|x l Hx Hl IH]; [done|].
  rewrite filter_cons_True by done. by rewrite IH.
Qed.

(** Every valley has a peak before it, and every peak a valley after it. *)
Lemma alternate_peak_before lo ps vs v :
  alternate lo ps vs -> v ∈ vs -> exists p, p ∈ ps /\ p < v.
Proof.
  revert lo vs. induction ps as [|p ps IH]; intros lo [|v0 vs]; simpl; try done.
  { by intros _ ?%elem_of_nil. }
  intros (Hp & Hv & Hr) Hin. apply elem_of_cons in Hin as [->|Hin].
  - exists p. split; [apply list_elem_of_here|done].
  - destruct (IH _ _ Hr Hin) as (q & Hq & Hlt).
    exists q. split; [by apply list_elem_of_further|done].
Qed.

Lemma alternate_valley_after lo ps vs p :
  alternate lo ps vs -> p ∈ ps -> exists v, v ∈ vs /\ p < v.
Proof.
  revert lo vs. induction ps as [|p0 ps IH]; intros lo [|v0 vs]; simpl; try done.
  { by intros _ ?%elem_of_nil. }
  intros (Hp & Hv & Hr) Hin. apply elem_of_cons in Hin as [->|Hin].
  - exists v0. split; [apply list_elem_of_here|done].
  - destruct (IH _ _ Hr Hin) as (q & Hq & Hlt).
    exists q. split; [by apply list_elem_of_further|done].
Qed.

Lemma alternate_disjoint lo ps vs p v :
  alternate lo ps vs -> p ∈ ps -> v ∈ vs -> p <> v.
Proof.
  revert lo vs. induction ps as [|p0 ps IH]; intros lo [|v0 vs]; simpl; try done.
  { by intros _ ?%elem_of_nil. }
  intros (Hp & Hv & Hr) Hpin Hvin.
  destruct (alternate_lower _ _ _ Hr) as [Lp Lv].
  rewrite Forall_forall in Lp, Lv.
  apply elem_of_cons in Hpin as [->|Hpin]; apply elem_of_cons in Hvin as [->|Hvin].
  - lia.
  - specialize (Lv _ Hvin). lia.
  - specialize (Lp _ Hpin). lia.
  - by eapply IH.
Qed.

Lemma is_max_unique x y l : is_max x l -> is_max y l -> x = y.
Proof. intros [Hx Hxu] [Hy Hyu]. specialize (Hxu _ Hy). specialize (Hyu _ Hx). lia. Qed.

(** Removing a valley together with the nearest peak on its left. *)
Lemma alternate_remove_left ps : forall lo vs v lp,
  alternate lo ps vs -> v ∈ vs ->
  is_max lp (filter (fun p => p < v) ps) ->
  alternate lo (filter (fun p => p <> lp) ps) (filter (fun w => w <> v) vs) /\
  (length (filter (fun p => p <> lp) ps) + 1 = length ps)%nat /\
  (length (filter (fun w => w <> v) vs) + 1 = length vs)%nat.
Proof.
  induction ps as [|p ps IH]; intros lo [|v0 vs] v lp; cbn [alternate]; try done.
  { by intros _ ?%elem_of_nil. }
  intros (Hp & Hv & Hr) Hin [Hlp Hmax].
  destruct (alternate_lower _ _ _ Hr) as [Lp Lv].
  apply list_elem_of_filter in Hlp as [Hlpv Hlp].
  apply elem_of_cons in Hin as [->|Hin].
  - assert (lp = p) as ->.
    { apply elem_of_cons in Hlp as [->|Hlp]; [done|].
      rewrite Forall_forall in Lp. specialize (Lp _ Hlp). lia. }
    rewrite filter_cons_False by (intros ?; done).
    rewrite (filter_cons_False _ v0) by (intros ?; done).
    rewrite !filter_all.
    + split; [|cbn [length]; lia]. apply (alternate_weaken v0); [lia|done].
    + eapply Forall_impl; [exact Lv|]. intros; cbn beta in *; lia.
    + eapply Forall_impl; [exact Lp|]. intros; cbn beta in *; lia.
  - destruct (alternate_peak_before _ _ _ _ Hr Hin) as (q & Hq & Hqv).
    assert (Hv0 : v0 < v).
    { rewrite Forall_forall in Lv. by apply Lv. }
    assert (Hqlp : q <= lp).
    { apply Hmax. apply list_elem_of_filter. split; [done|].
      by apply list_elem_of_further. }
    assert (Hqv0 : v0 < q).
    { rewrite Forall_forall in Lp. by apply Lp. }
    assert (Hlp' : lp ∈ ps).
    { apply elem_of_cons in Hlp as [->|Hlp]; [lia|done]. }
    destruct (IH v0 vs v lp Hr Hin) as (Ha & Hl1 & Hl2).
    { split; [by apply list_elem_of_filter|].
      intros y Hy. apply Hmax. apply list_elem_of_filter in Hy as [? ?].
      apply list_elem_of_filter. split; [done|]. by apply list_elem_of_further. }
    rewrite filter_cons_True by (cbn beta; lia).
    rewrite (filter_cons_True _ v0) by (cbn beta; lia).
    cbn [alternate length]. repeat split; try done; lia.
Qed.

(** Removing a valley together with the nearest peak on its right. *)
Lemma alternate_remove_right ps : forall lo vs v rp,
  alternate lo ps vs -> v ∈ vs ->
  is_min rp (filter (fun p => p > v) ps) ->
  alternate lo (filter (fun p => p <> rp) ps) (filter (fun w => w <> v) vs) /\
  (length (filter (fun p => p <> rp) ps) + 1 = length ps)%nat /\
  (length (filter (fun w => w <> v) vs) + 1 = length vs)%nat.
Proof.
  induction ps as [|p ps IH]; intros lo [|v0 vs] v rp; cbn [alternate]; try done.
  { by intros _ ?%elem_of_nil. }
  intros (Hp & Hv & Hr) Hin [Hrp Hmin].
  destruct (alternate_lower _ _ _ Hr) as [Lp Lv].
  apply list_elem_of_filter in Hrp as [Hrpv Hrp].
  apply elem_of_cons in Hin as [->|Hin].
  - apply elem_of_cons in Hrp as [->|Hrp]; [lia|].
    destruct ps as [|p1 ps], vs as [|v1 vs]; cbn [alternate] in Hr; try done.
    { by apply elem_of_nil in Hrp. }
    destruct Hr as (Hp1 & Hv1 & Hr).
    destruct (alternate_lower _ _ _ Hr) as [Lp' Lv'].
    assert (rp = p1) as ->.
    { apply elem_of_cons in Hrp as [->|Hrp]; [done|].
      assert (p1 ∈ filter (fun p0 => p0 > v0) (p :: p1 :: ps)) as Hp1in.
      { apply list_elem_of_filter. split; [lia|].
        apply list_elem_of_further, list_elem_of_here. }
      specialize (Hmin _ Hp1in).
      rewrite Forall_forall in Lp'. specialize (Lp' _ Hrp). lia. }
    rewrite filter_cons_True by (cbn beta; lia).
    rewrite filter_cons_False by (intros ?; done).
    rewrite (filter_cons_False _ v0) by (intros ?; done).
    rewrite (filter_cons_True _ v1) by (cbn beta; lia).
    rewrite !filter_all.
    + cbn [alternate length]. repeat split; try done; lia.
    + eapply Forall_impl; [exact Lv'|]. intros; cbn beta in *; lia.
    + eapply Forall_impl; [exact Lp'|]. intros; cbn beta in *; lia.
  - assert (Hv0 : v0 < v).
    { rewrite Forall_forall in Lv. by apply Lv. }
    assert (Hrp' : rp ∈ ps).
    { apply elem_of_cons in Hrp as [->|Hrp]; [lia|done]. }
    assert (Hrpv0 : v0 < rp).
    { rewrite Forall_forall in Lp. by apply Lp. }
    destruct (IH v0 vs v rp Hr Hin) as (Ha & Hl1 & Hl2).
    { split; [by apply list_elem_of_filter|].
      intros y Hy. apply Hmin. apply list_elem_of_filter in Hy as [? ?].
      apply list_elem_of_filter. split; [done|]. by apply list_elem_of_further. }
    rewrite filter_cons_True by (cbn beta; lia).
    rewrite (filter_cons_True _ v0) by (cbn beta; lia).
    cbn [alternate length]. repeat split; try done; lia.
Qed.

Lemma in_signal_index signal l k :
  in_signal signal l -> k ∈ l -> exists x, py_index signal k = Ok x.
Proof.
  intros Hl Hk. unfold in_signal in Hl. rewrite Forall_forall in Hl.
  destruct (py_index_in_range signal k (Hl _ Hk)) as (x & Hx & _). eauto.
Qed.

Lemma check_valleys_ok signal test lo ps vs peak :
  alternate lo ps vs -> peak ∈ ps ->
  exists fl vl fr vr,
    check_valleys signal test vs peak = Ok (fl, vl, fr, vr) /\
    vr ∈ vs /\ (fl = true -> vl ∈ vs).
Proof.
  intros Ha Hp. unfold check_valleys.
  destruct (alternate_valley_after _ _ _ _ Ha Hp) as (v & Hv & Hpv).
  destruct (np_min_inhabited _ _ Hv) as (mv & Hmv). rewrite Hmv, bind_Ok.
  apply np_min_ok in Hmv as [Hmv Hmvl].
  assert (Hr : v ∈ filter (fun v => v > peak) vs).
  { apply list_elem_of_filter. split; [lia|done]. }
  destruct (np_min_inhabited _ _ Hr) as (vr & Hvr).
  assert (Hvrin : vr ∈ vs).
  { apply np_min_ok in Hvr as [Hvr _]. by apply list_elem_of_filter in Hvr as [_ ?]. }
  destruct (Z.ltb_spec peak mv) as [Hlt|Hge].
  - rewrite bind_Ok, Hvr, bind_Ok. eexists _, _, _, _.
    split; [reflexivity|]. split; [done|]. done.
  - assert (Hl : mv ∈ filter (fun v => v < peak) vs).
    { apply list_elem_of_filter. split; [|done].
      pose proof (alternate_disjoint _ _ _ _ _ Ha Hp Hmv). lia. }
    destruct (np_max_inhabited _ _ Hl) as (vl & Hvl).
    rewrite Hvl, !bind_Ok, Hvr, bind_Ok. eexists _, _, _, _.
    split; [reflexivity|]. split; [done|]. intros _.
    apply np_max_ok in Hvl as [Hvl _]. by apply list_elem_of_filter in Hvl as [_ ?].
Qed.

Lemma valley_to_remove_ok signal fl fr vl vr vs :
  in_signal signal vs -> vr ∈ vs -> (fl = true -> vl ∈ vs) ->
  exists v, valley_to_remove_of signal fl fr vl vr = Ok v /\ v ∈ vs.
Proof.
  intros Hs Hvr Hvl. unfold valley_to_remove_of.
  destruct fl; cbn [andb].
  - destruct fr.
    + destruct (in_signal_index _ _ _ Hs (Hvl eq_refl)) as (sl & ->).
      destruct (in_signal_index _ _ _ Hs Hvr) as (sr & ->).
      rewrite !bind_Ok. destruct (Qgtb sl sr); eauto.
    + eauto.
  - eauto.
Qed.

Lemma remove_peak_ok signal lo ps vs v :
  alternate lo ps vs -> in_signal signal ps -> v ∈ vs ->
  exists q,
    remove_peak signal ps v = Ok (filter (fun p => p <> q) ps) /\
    alternate lo (filter (fun p => p <> q) ps) (filter (fun w => w <> v) vs) /\
    (length (filter (fun p => p <> q) ps) + 1 = length ps)%nat /\
    (length (filter (fun w => w <> v) vs) + 1 = length vs)%nat.
Proof.
  intros Ha Hs Hv. unfold remove_peak.
  destruct (alternate_peak_before _ _ _ _ Ha Hv) as (p & Hp & Hpv).
  assert (Hl : p ∈ filter (fun p => p < v) ps).
  { by apply list_elem_of_filter. }
  destruct (np_max_inhabited _ _ Hl) as (lp & Hlp). rewrite Hlp, bind_Ok.
  apply np_max_ok in Hlp.
  destruct (np_max_inhabited _ _ Hp) as (mp & Hmp). rewrite Hmp, bind_Ok.
  apply np_max_ok in Hmp as [Hmp _].
  destruct (Z.ltb_spec mp v) as [Hlt|Hge].
  - exists lp. split; [done|]. by apply alternate_remove_left.
  - assert (Hr : mp ∈ filter (fun p => p > v) ps).
    { apply list_elem_of_filter. split; [|done].
      pose proof (alternate_disjoint _ _ _ _ _ Ha Hmp Hv). lia. }
    destruct (np_min_inhabited _ _ Hr) as (rp & Hrp). rewrite Hrp, bind_Ok.
    apply np_min_ok in Hrp.
    assert (Hlpin : lp ∈ ps).
    { destruct Hlp as [Hlp _]. by apply list_elem_of_filter in Hlp as [_ ?]. }
    assert (Hrpin : rp ∈ ps).
    { destruct Hrp as [Hrp _]. by apply list_elem_of_filter in Hrp as [_ ?]. }
    destruct (in_signal_index _ _ _ Hs Hlpin) as (sl & ->).
    destruct (in_signal_index _ _ _ Hs Hrpin) as (sr & ->).
    rewrite !bind_Ok. destruct (Qltb sl sr).
    + exists lp. split; [done|]. by apply alternate_remove_left.
    + exists rp. split; [done|]. by apply alternate_remove_right.
Qed.

Lemma in_signal_filter signal (P : Z -> Prop) `{!forall x, Decision (P x)} l :
  in_signal signal l -> in_signal signal (filter P l).
Proof.
  unfold in_signal. rewrite !Forall_forall. intros Hall x Hx.
  apply list_elem_of_filter in Hx as [_ Hx]. by apply Hall.
Qed.

Lemma loop_body_ok signal test s :
  loop_invariant signal s ->
  (Z.of_nat (length (peaks s)) <= now_at_peak s /\
   loop_body signal test s = Ok Break) \/
  (now_at_peak s < Z.of_nat (length (peaks s)) /\
   exists s', loop_body signal test s = Ok (Continue s') /\
              loop_invariant signal s' /\
              (advances s s' \/ removes_pair s s')).
Proof.
  intros (Ha & Hps & Hvs & Hc). unfold loop_body.
  destruct (Z.ltb_spec (Z.of_nat (length (peaks s)) - 1) (now_at_peak s)) as [Hlt|Hge].
  { left. split; [lia|done]. }
  right. split; [lia|].
  destruct (py_index_in_range (peaks s) (now_at_peak s)) as (peak & -> & Hpeak); [lia|].
  rewrite bind_Ok. cbn [isnan].
  apply list_elem_of_lookup_2 in Hpeak.
  destruct (check_valleys_ok signal test _ _ _ _ Ha Hpeak)
    as (fl & vl & fr & vr & -> & Hvr & Hvl).
  rewrite bind_Ok.
  destruct (fl || fr) eqn:Hfail; cbn [negb].
  - destruct (valley_to_remove_ok signal fl fr vl vr _ Hvs Hvr Hvl) as (v & -> & Hv).
    rewrite bind_Ok.
    destruct (remove_peak_ok signal _ _ _ v Ha Hps Hv) as (q & -> & Ha' & Hl1 & Hl2).
    rewrite bind_Ok. eexists. split; [reflexivity|]. split.
    + repeat split; cbn [peaks valleys now_at_peak]; try done;
        try (by apply in_signal_filter); lia.
    + right. repeat split; cbn [peaks valleys now_at_peak]; done.
  - eexists. split; [reflexivity|]. split.
    + repeat split; cbn [peaks valleys now_at_peak]; try done; lia.
    + left. repeat split.
Qed.

Lemma alternate_interleaved ps : forall lo vs,
  alternate lo ps vs -> interleaved ps vs.
Proof.
  induction ps as [|p ps IH]; intros lo [|v vs]; cbn [alternate]; try done.
  intros (Hp & Hv & Hr). destruct (IH _ _ Hr) as [Hlen Hk].
  split; [cbn [length]; lia|].
  intros [|k] p0 v0; cbn [lookup list_lookup].
  - intros [= <-] [= <-]. split; [done|].
    destruct ps as [|p1 ps]; [done|]. intros p' [= <-].
    destruct vs as [|v1 vs]; [done|]. cbn [alternate] in Hr. lia.
  - apply Hk.
Qed.

Lemma refine_loop_terminates signal test : forall fuel s,
  loop_invariant signal s ->
  2 * Z.of_nat (length (peaks s)) + 1 <= Z.of_nat fuel + now_at_peak s ->
  exists ps vs,
    refine_loop fuel signal test s = Some (Ok (ps, vs)) /\ alternate (-1) ps vs.
Proof.
  induction fuel as [|fuel IH]; intros s Hinv Hfuel.
  { destruct Hinv as (_ & _ & _ & Hc). lia. }
  cbn [refine_loop].
  destruct (loop_body_ok signal test s Hinv)
    as [[Hc ->]|(Hc & s' & -> & Hinv' & Hstep)].
  - rewrite !filter_all by (apply Forall_true; done).
    exists (peaks s), (valleys s). split; [done|]. apply Hinv.
  - apply IH; [done|].
    destruct Hstep as [(-> & _ & ->)|(Hl & _ & ->)]; lia.
Qed.

Lemma reachable_invariant signal test s :
  reachable signal test s -> loop_invariant signal s.
Proof.
  induction 1 as [ps vs Hlen Hc Hps|s s' Hr IH Hbody].
  - destruct (candidates_alternate signal Hlen) as (ps' & vs' & Hc' & Ha & Hp & Hv).
    rewrite Hc in Hc'. injection Hc' as <- <-.
    repeat split; cbn [peaks valleys now_at_peak]; try done; try lia.
    apply (alternate_weaken 0); [lia|done].
  - destruct (loop_body_ok signal test s IH)
      as [[_ Hb]|(_ & s'' & Hb & Hinv' & _)]; rewrite Hbody in Hb; [done|].
    by injection Hb as <-.
Qed.

(** C4, as stated, fails: on [three_bumps], with a test that accepts only
    the first peak, the pass at the second peak (index 12) fails on both
    sides, with the left valley at 10 (sample 3) and the right valley at 14
    (sample 2); the valley removed is the left one, which has the larger
    sample. *)
Lemma valley_with_larger_sample_deleted :
  candidates three_bumps = Ok ([9; 12; 17], [10; 14; 21]) /\
  loop_body three_bumps (accept_only_at 9) (mkState [9; 12; 17] [10; 14; 21] 0)
    = Ok (Continue (mkState [9; 12; 17] [10; 14; 21] 1)) /\
  check_valleys three_bumps (accept_only_at 9) [10; 14; 21] 12
    = Ok (true, 10, true, 14) /\
  py_index three_bumps 10 = Ok 3%Q /\
  py_index three_bumps 14 = Ok 2%Q /\
  loop_body three_bumps (accept_only_at 9) (mkState [9; 12; 17] [10; 14; 21] 1)
    = Ok (Continue (mkState [12; 17] [14; 21] 0)) /\
  ~ deletes_smaller_valley three_bumps 10 14.
Proof.
  repeat split; try (vm_compute; reflexivity).
  intros H.
  destruct (H 10 3%Q 3%Q 2%Q eq_refl eq_refl eq_refl eq_refl) as [_ Hle].
  vm_compute in Hle. by apply Hle.
Qed.

(** C4, amended: in a pass of the refinement loop in which a test fails,
    the valley removed is, when both tests fail, the left valley if its
    sample is strictly larger than that of the right valley and the right
    valley otherwise (so the valley with the larger sample, and the right
    one on a tie); when only one test fails, it is the valley of that
    side. *)
Theorem valley_selection (signal : list Q) (test_function : list Q -> Z -> Z -> bool)
    (s s' : loop_state) (peak : Z) (fail_left fail_right : bool)
    (valley_left valley_right : Z) :
  loop_body signal test_function s = Ok (Continue s') ->
  py_index (peaks s) (now_at_peak s) = Ok peak ->
  check_valleys signal test_function (valleys s) peak
    = Ok (fail_left, valley_left, fail_right, valley_right) ->
  fail_left || fail_right = true ->
  exists v,
    valleys s' = filter (fun w => w <> v) (valleys s) /\
    (fail_left = true -> fail_right = true ->
       exists sl sr,
         py_index signal valley_left = Ok sl /\
         py_index signal valley_right = Ok sr /\
         (((sr < sl)%Q /\ v = valley_left) \/
          ((sl <= sr)%Q /\ v = valley_right))) /\
    (fail_left = true -> fail_right = false -> v = valley_left) /\
    (fail_left = false -> fail_right = true -> v = valley_right).
Proof.
  intros Hbody Hpeak Hcheck Hfail. unfold loop_body in Hbody.
  destruct (_ <? now_at_peak s); [discriminate|].
  rewrite Hpeak, bind_Ok in Hbody. cbn [isnan] in Hbody.
  rewrite Hcheck, bind_Ok, Hfail in Hbody. cbn [negb] in Hbody.
  apply bind_ok in Hbody as (v & Hv & Hbody).
  apply bind_ok in Hbody as (peaks' & _ & Hbody).
  injection Hbody as <-. exists v. split; [reflexivity|].
  unfold valley_to_remove_of in Hv.
  destruct fail_left, fail_right; cbn [andb] in Hv; try discriminate.
  - apply bind_ok in Hv as (sl & Hsl & Hv).
    apply bind_ok in Hv as (sr & Hsr & Hv).
    injection Hv as <-.
    split; [|split; intros; discriminate]. intros _ _.
    exists sl, sr. split; [done|]. split; [done|].
    unfold Qgtb. destruct (Qltb sr sl) eqn:E.
    + left. split; [by apply Qltb_lt|done].
    + right. split; [by apply Qltb_ge|done].
  - injection Hv as <-. repeat split; intros; (done || discriminate).
  - injection Hv as <-. repeat split; intros; (done || discriminate).
Qed.

Lemma valley_selection_witness :
  exists v,
    [14; 21] = filter (fun w => w <> v) [10; 14; 21] /\
    (true = true -> true = true ->
       exists sl sr,
         py_index three_bumps 10 = Ok sl /\
         py_index three_bumps 14 = Ok sr /\
         (((sr < sl)%Q /\ v = 10) \/ ((sl <= sr)%Q /\ v = 14))) /\
    (true = true -> true = false -> v = 10) /\
    (true = false -> true = true -> v = 14).
Proof.
  apply (valley_selection three_bumps (accept_only_at 9)
           (mkState [9; 12; 17] [10; 14; 21] 1) (mkState [12; 17] [14; 21] 0)
           12 true true 10 14); vm_compute; reflexivity.
Defined.

(** C7: whenever [peaks_and_valleys] returns, the peaks and valleys
    returned have equal length and are strictly interleaved (every valley
    after the peak at its position and before the next peak); the same holds
    of the lists at the top of every pass through the refinement loop. *)
Theorem refiner_interleaved (signal : list Q)
    (test_function : list Q -> Z -> Z -> bool) :
  (forall ps vs,
     peaks_and_valleys signal test_function = Some (Ok (ps, vs)) ->
     interleaved ps vs) /\
  (forall s,
     reachable signal test_function s -> interleaved (peaks s) (valleys s)).
Proof.
  split.
  - intros ps vs. unfold peaks_and_valleys.
    destruct (Nat.ltb_spec (length signal) (length derivative_kernel)) as [_|Hlen].
    { intros [= <- <-]. split; [done|]. intros k p v. by rewrite lookup_nil. }
    destruct (candidates_alternate signal Hlen) as (ps' & vs' & -> & Ha & Hp & Hv).
    destruct (Nat.ltb_spec (length ps') 2) as [_|Hps].
    { intros [= <- <-]. by eapply alternate_interleaved. }
    destruct (refine_loop_terminates signal test_function
                (loop_fuel (length ps')) (mkState ps' vs' 0))
      as (ps'' & vs'' & -> & Ha').
    { repeat split; cbn [peaks valleys now_at_peak]; try done; try lia.
      apply (alternate_weaken 0); [lia|done]. }
    { cbn [peaks now_at_peak]. unfold loop_fuel. lia. }
    intros [= <- <-]. by eapply alternate_interleaved.
  - intros s Hs. apply reachable_invariant in Hs as (Ha & _).
    by eapply alternate_interleaved.
Qed.

Lemma refiner_interleaved_witness :
  interleaved [9; 12] [10; 14] /\ interleaved [12; 17] [14; 21].
Proof.
  split.
  - apply (proj1 (refiner_interleaved three_bumps (fun _ _ v => Z.even v))).
    vm_compute. reflexivity.
  - apply (proj2 (refiner_interleaved three_bumps (accept_only_at 9))
             (mkState [12; 17] [14; 21] 0)).
    apply (reach_pass _ _ (mkState [9; 12; 17] [10; 14; 21] 1));
      [|vm_compute; reflexivity].
    apply (reach_pass _ _ (mkState [9; 12; 17] [10; 14; 21] 0));
      [|vm_compute; reflexivity].
    apply reach_start; [vm_compute; lia|vm_compute; reflexivity|simpl; lia].
Defined.

(** C10: [peaks_and_valleys] returns for every signal and every test: the
    refinement loop reaches its [break] within the fuel given. At the top
    of every pass either the cursor is past the end of the peaks and the
    loop breaks, or the pass continues: it moves the cursor one peak
    forward and leaves the lists alone, or it removes exactly one peak and
    one valley and moves the cursor one peak back, but not below 0. *)
Theorem refinement_terminates (signal : list Q)
    (test_function : list Q -> Z -> Z -> bool) :
  (exists ps vs, peaks_and_valleys signal test_function = Some (Ok (ps, vs))) /\
  (forall s,
     reachable signal test_function s ->
     (Z.of_nat (length (peaks s)) <= now_at_peak s /\
      loop_body signal test_function s = Ok Break) \/
     (now_at_peak s < Z.of_nat (length (peaks s)) /\
      exists s', loop_body signal test_function s = Ok (Continue s') /\
                 (advances s s' \/ removes_pair s s'))).
Proof.
  split.
  - unfold peaks_and_valleys.
    destruct (Nat.ltb_spec (length signal) (length derivative_kernel)) as [_|Hlen].
    { by eexists _, _. }
    destruct (candidates_alternate signal Hlen) as (ps' & vs' & -> & Ha & Hp & Hv).
    destruct (Nat.ltb_spec (length ps') 2) as [_|Hps].
    { by eexists _, _. }
    destruct (refine_loop_terminates signal test_function
                (loop_fuel (length ps')) (mkState ps' vs' 0))
      as (ps'' & vs'' & -> & Ha').
    { repeat split; cbn [peaks valleys now_at_peak]; try done; try lia.
      apply (alternate_weaken 0); [lia|done]. }
    { cbn [peaks now_at_peak]. unfold loop_fuel. lia. }
    by eexists _, _.
  - intros s Hs. apply reachable_invariant in Hs.
    destruct (loop_body_ok signal test_function s Hs)
      as [?|(Hc & s' & Hb & _ & Hstep)]; [by left|].
    right. split; [done|]. by exists s'.
Qed.

Lemma refinement_terminates_witness :
  (Z.of_nat (length [9; 12; 17]) <= 1 /\
   loop_body three_bumps (accept_only_at 9) (mkState [9; 12; 17] [10; 14; 21] 1)
     = Ok Break) \/
  (1 < Z.of_nat (length [9; 12; 17]) /\
   exists s',
     loop_body three_bumps (accept_only_at 9) (mkState [9; 12; 17] [10; 14; 21] 1)
       = Ok (Continue s') /\
     (advances (mkState [9; 12; 17] [10; 14; 21] 1) s' \/
      removes_pair (mkState [9; 12; 17] [10; 14; 21] 1) s')).
Proof.
  apply (proj2 (refinement_terminates three_bumps (accept_only_at 9))
           (mkState [9; 12; 17] [10; 14; 21] 1)).
  apply (reach_pass _ _ (mkState [9; 12; 17] [10; 14; 21] 0));
    [|vm_compute; reflexivity].
  apply reach_start; [vm_compute; lia|vm_compute; reflexivity|simpl; lia].
Defined.

End RefinerFacts.

Module RefinerOutcome.
Import SignalMath Refiner SignalMathSpec RefinerSpec RefinerOutcomeSpec.
Import SignalMathFacts RefinerFacts.

(** How [peaks_and_valleys] comes to a result. *)
Lemma peaks_and_valleys_cases signal test ps vs :
  peaks_and_valleys signal test = Some (Ok (ps, vs)) ->
  ((length signal < length derivative_kernel)%nat /\ ps = [] /\ vs = []) \/
  ((length derivative_kernel <= length signal)%nat /\
   exists cps cvs,
     candidates signal = Ok (cps, cvs) /\
     (((length cps < 2)%nat /\ ps = cps /\ vs = cvs) \/
      ((2 <= length cps)%nat /\
       refine_loop (loop_fuel (length cps)) signal test (mkState cps cvs 0)
       = Some (Ok (ps, vs))))).
Proof.
  unfold peaks_and_valleys.
  destruct (Nat.ltb_spec (length signal) (length derivative_kernel)) as [Hlt|Hge].
  { intros [= <- <-]. left. done. }
  destruct (candidates signal) as [[cps cvs]|e]; [|done].
  destruct (Nat.ltb_spec (length cps) 2) as [Hlt|Hge2].
  - intros [= <- <-]. right. split; [done|]. exists cps, cvs.
    split; [done|]. left. done.
  - intros H. right. split; [done|]. exists cps, cvs.
    split; [done|]. right. done.
Qed.

(** A pass through the loop leaves the peaks and the valleys as they are
    or takes some away. *)
Lemma loop_body_sublist signal test s s' :
  loop_body signal test s = Ok (Continue s') ->
  peaks s' `sublist_of` peaks s /\ valleys s' `sublist_of` valleys s.
Proof.
  unfold loop_body.
  destruct (_ <? now_at_peak s); [done|].
  intros H. apply bind_ok in H as (peak & _ & H). cbn [isnan] in H.
  apply bind_ok in H as ([[[fl vl] fr] vr] & _ & H).
  destruct (negb (fl || fr)).
  { injection H as <-. done. }
  apply bind_ok in H as (v & _ & H).
  apply bind_ok in H as (ps' & Hrm & H). injection H as <-.
  cbn [peaks valleys]. split; [|apply sublist_filter].
  revert Hrm. unfold remove_peak. intros H.
  apply bind_ok in H as (lp & _ & H).
  apply bind_ok in H as (mp & _ & H).
  destruct (mp <? v).
  { injection H as <-. apply sublist_filter. }
  apply bind_ok in H as (rp & _ & H).
  apply bind_ok in H as (sl & _ & H).
  apply bind_ok in H as (sr & _ & H).
  destruct (Qltb sl sr); injection H as <-; apply sublist_filter.
Qed.

Lemma refine_loop_sublist signal test : forall fuel s ps vs,
  refine_loop fuel signal test s = Some (Ok (ps, vs)) ->
  ps `sublist_of` peaks s /\ vs `sublist_of` valleys s.
Proof.
  induction fuel as [|fuel IH]; intros s ps vs; cbn [refine_loop]; [done|].
  destruct (loop_body signal test s) as [[|s']|e] eqn:E; [| |done].
  - intros [= <- <-]. split; apply sublist_filter.
  - intros H. destruct (IH _ _ _ H) as [Hp Hv].
    destruct (loop_body_sublist _ _ _ _ E) as [Hp' Hv'].
    split; etrans; done.
Qed.

(** With a test that accepts everything a pass changes neither list. *)
Lemma loop_body_all_pass signal test s s' :
  (forall p v, test signal p v = true) ->
  loop_body signal test s = Ok (Continue s') ->
  peaks s' = peaks s /\ valleys s' = valleys s.
Proof.
  intros Hall. unfold loop_body.
  destruct (_ <? now_at_peak s); [done|].
  intros H. apply bind_ok in H as (peak & _ & H). cbn [isnan] in H.
  apply bind_ok in H as ([[[fl vl] fr] vr] & Hc & H).
  assert (fl = false /\ fr = false) as [-> ->].
  { revert Hc. unfold check_valleys. intros Hc.
    apply bind_ok in Hc as (mv & _ & Hc).
    apply bind_ok in Hc as ([fl' vl'] & Hl & Hc).
    apply bind_ok in Hc as (vr' & _ & Hc).
    injection Hc as <- <- <- <-. rewrite Hall. split; [|done].
    destruct (peak <? mv); [by injection Hl as <- <-|].
    apply bind_ok in Hl as (vl'' & _ & Hl). injection Hl as <- <-.
    by rewrite Hall. }
  cbn in H. by injection H as <-.
Qed.

Lemma refine_loop_all_pass signal test :
  (forall p v, test signal p v = true) ->
  forall fuel s ps vs,
    refine_loop fuel signal test s = Some (Ok (ps, vs)) ->
    ps = peaks s /\ vs = valleys s.
Proof.
  intros Hall. induction fuel as [|fuel IH]; intros s ps vs; cbn [refine_loop];
    [done|].
  destruct (loop_body signal test s) as [[|s']|e] eqn:E; [| |done].
  - intros [= <- <-]. rewrite !filter_all by (apply Forall_true; done). done.
  - intros H. destruct (IH _ _ _ H) as [-> ->].
    by apply loop_body_all_pass in E.
Qed.

(** The flags of the slope with its edges set to zero: a flag that is set
    is at least four positions from either end. *)
Lemma inner_flag (m : list Q) (k : nat) :
  ([0] ++ above0_of ([0; 0; 0]%Q ++ m ++ [0; 0]%Q) ++ [0]) !! k = Some 1 ->
  (4 <= k < 4 + length m)%nat.
Proof.
  unfold above0_of. rewrite !map_app. cbn [map app].
  change (if Qltb 0 0 then 1 else 0) with 0.
  do 4 (destruct k as [|k]; [done|]). cbn [lookup list_lookup].
  rewrite <- app_assoc. cbn [app].
  intros H. apply lookup_app_Some in H as [H|[_ H]].
  - apply lookup_lt_Some in H. rewrite length_map in H. lia.
  - rewrite length_map in H.
    destruct (k - length m)%nat as [|[|[|?]]]; done.
Qed.

Lemma sign_changes_never_inner (m : list Q) (y : Q) (ps vs : list Z) :
  sign_changes (0%Q :: ([0; 0; 0]%Q ++ m ++ [0; 0]%Q) ++ [0%Q; y]) never = Ok (ps, vs) ->
  Forall (fun k => 4 <= k < 4 + Z.of_nat (length m)) ps /\
  Forall (fun k => 4 <= k < 4 + Z.of_nat (length m)) vs.
Proof.
  set (s := [0; 0; 0]%Q ++ m ++ [0; 0]%Q).
  rewrite sign_changes_crossings by done. cbv zeta.
  assert (Hb : above0_of (0%Q :: s ++ [0%Q; y]) =
               (0 :: above0_of s ++ [0]) ++ [if Qltb 0 y then 1 else 0]).
  { unfold above0_of. rewrite fmap_cons, fmap_app. cbn. by rewrite <- app_assoc. }
  rewrite Hb, removelast_last. cbn [first_index_marker].
  cbn [app crossings].
  rewrite <- app_assoc. cbn [app].
  rewrite crossings_marker by lia.
  destruct (crossings 0 (0 + 1) (above0_of s ++ [0])) as [ps' vs'] eqn:E.
  change (0 - -1234 =? 1) with false. change (0 - -1234 =? -1) with false.
  cbn [fst snd]. intros [= <- <-].
  destruct (crossings_runs (above0_of s) [0] 0 ps' vs' (above0_of_bits s)
              (or_intror eq_refl) E) as [Hsem _].
  specialize (Hsem eq_refl).
  assert (Hone : forall k, 0 <= k ->
            ([0] ++ above0_of s ++ [0]) !! Z.to_nat k = Some 1 ->
            4 <= k < 4 + Z.of_nat (length m)).
  { intros k Hk Hl. apply inner_flag in Hl. lia. }
  split; apply Forall_forall; intros k Hin; apply (proj1 (sorted_elem _ _)) in Hin.
  - apply list_elem_of_lookup in Hin as [i Hi].
    destruct (Forall2_lookup_l _ _ _ _ _ Hsem Hi) as (v & _ & (Hr & Hones & _)).
    apply Hone; [lia|]. apply Hones. lia.
  - apply list_elem_of_lookup in Hin as [i Hi].
    destruct (Forall2_lookup_r _ _ _ _ _ Hsem Hi) as (p & _ & (Hr & Hones & _)).
    apply Hone; [lia|]. apply Hones. lia.
Qed.

Lemma candidates_inner (signal : list Q) (cps cvs : list Z) :
  (length derivative_kernel <= length signal)%nat ->
  candidates signal = Ok (cps, cvs) ->
  Forall (inner signal) cps /\ Forall (inner signal) cvs.
Proof.
  intros Hlen. unfold candidates.
  pose proof (length_convolve_same signal Hlen) as Hc.
  change ((length derivative_kernel - 1) / 2)%nat with 4%nat.
  change (length derivative_kernel) with 9%nat in Hlen.
  destruct (zero_edges_shape (convolve_same signal derivative_kernel))
    as (m & -> & Hm); [lia|].
  destruct (sign_changes_never_zero_edges ([0; 0; 0]%Q ++ m ++ [0; 0]%Q) 0%Q)
    as (ps & vs & Hsc & Hr & _ & _).
  destruct (sign_changes_never_inner _ _ _ _ Hsc) as [Rp Rv].
  rewrite Hsc. cbv [mbind result_bind].
  destruct (runs_Sorted _ _ _ Hr) as [Sp Sv].
  rewrite !sorted_Sorted by done.
  rewrite (runs_length _ _ _ Hr), Nat.eqb_refl. cbn [negb].
  unfold np_where.
  rewrite (np_select_where _ [] ps), (np_select_where _ [] vs);
    [|rewrite length_zip_with, (runs_length _ _ _ Hr); lia..].
  apply runs_alternate in Hr. cbv zeta in Hr. cbn in Hr.
  rewrite (alternate_check _ _ _ Hr). cbn [negb].
  intros [= <- <-]. unfold inner.
  split; apply Forall_compress.
  - eapply Forall_impl; [exact Rp|]. intros; cbn beta in *; lia.
  - eapply Forall_impl; [exact Rv|]. intros; cbn beta in *; lia.
Qed.

(** X23: no peak and no valley is reported within four samples of either
    end of the signal: the slope is set to zero there before its sign
    changes are looked for. *)
Theorem peaks_and_valleys_away_from_edges (signal : list Q)
    (test_function : list Q -> Z -> Z -> bool) (ps vs : list Z) :
  peaks_and_valleys signal test_function = Some (Ok (ps, vs)) ->
  Forall (inner signal) ps /\ Forall (inner signal) vs.
Proof.
  intros [(_ & -> & ->)|(Hlen & cps & cvs & Hc & H)]%peaks_and_valleys_cases; [done|].
  destruct (candidates_inner _ _ _ Hlen Hc) as [Hp Hv].
  destruct H as [(_ & -> & ->)|(_ & H)]; [done|].
  apply refine_loop_sublist in H as [Hps Hvs]. cbn [peaks valleys] in *.
  apply sublist_subseteq in Hps, Hvs.
  rewrite Forall_forall in Hp, Hv.
  split; apply Forall_forall; intros k Hk; [apply Hp|apply Hv]; set_solver.
Qed.

Lemma peaks_and_valleys_away_from_edges_witness :
  Forall (inner three_bumps) [12] /\ Forall (inner three_bumps) [21].
Proof.
  apply (peaks_and_valleys_away_from_edges three_bumps (accept_only_at 12)).
  by vm_compute.
Defined.

(** X24: the peaks and valleys returned are candidates, in the order of
    the candidates: the refinement only removes. With a test that accepts
    every peak it removes nothing. *)
Theorem peaks_and_valleys_are_candidates (signal : list Q)
    (test_function : list Q -> Z -> Z -> bool) (ps vs : list Z) :
  (length derivative_kernel <= length signal)%nat ->
  peaks_and_valleys signal test_function = Some (Ok (ps, vs)) ->
  exists cps cvs,
    candidates signal = Ok (cps, cvs) /\
    ps `sublist_of` cps /\ vs `sublist_of` cvs /\
    ((forall p v, test_function signal p v = true) -> ps = cps /\ vs = cvs).
Proof.
  intros Hlen [(? & _)|(_ & cps & cvs & Hc & H)]%peaks_and_valleys_cases; [lia|].
  exists cps, cvs. split; [done|].
  destruct H as [(_ & -> & ->)|(_ & H)]; [done|].
  destruct (refine_loop_sublist _ _ _ _ _ _ H) as [Hps Hvs].
  split; [done|]. split; [done|]. intros Hall.
  by apply (refine_loop_all_pass _ _ Hall) in H.
Qed.

Lemma peaks_and_valleys_are_candidates_witness :
  exists cps cvs,
    candidates three_bumps = Ok (cps, cvs) /\
    [12] `sublist_of` cps /\ [21] `sublist_of` cvs /\
    ((forall p v, accept_only_at 12 three_bumps p v = true) ->
     [12] = cps /\ [21] = cvs).
Proof.
  apply (peaks_and_valleys_are_candidates three_bumps (accept_only_at 12));
    [cbn; lia|by vm_compute].
Defined.

(** The order of alternating peaks and valleys, by position. *)
Lemma alternate_order ps : forall lo vs,
  alternate lo ps vs ->
  forall (i j : nat) a b,
    (ps !! i = Some a -> ps !! j = Some b -> (i < j)%nat -> a < b) /\
    (vs !! i = Some a -> vs !! j = Some b -> (i < j)%nat -> a < b) /\
    (ps !! i = Some a -> vs !! j = Some b -> (i <= j)%nat -> a < b) /\
    (vs !! i = Some a -> ps !! j = Some b -> (i < j)%nat -> a < b).
Proof.
  induction ps as [|p ps IH]; intros lo [|v vs]; cbn [alternate]; try done.
  intros (Hp & Hv & Hr) i j a b.
  destruct (alternate_lower _ _ _ Hr) as [Lp Lv].
  rewrite Forall_lookup in Lp, Lv.
  destruct i as [|i], j as [|j]; cbn [lookup list_lookup].
  - repeat split; intros; simplify_eq; lia.
  - repeat split; intros Ha Hb _; simplify_eq;
      first [specialize (Lp _ _ Hb)|specialize (Lv _ _ Hb)]; lia.
  - repeat split; intros; lia.
  - destruct (IH _ _ Hr i j a b) as (H1 & H2 & H3 & H4).
    split; [|split; [|split]]; intros Hx Hy Hlt;
      [apply H1|apply H2|apply H3|apply H4]; try done; lia.
Qed.

Lemma is_min_unique x y l : is_min x l -> is_min y l -> x = y.
Proof. intros [Hx Hxl] [Hy Hyl]. specialize (Hxl _ Hy). specialize (Hyl _ Hx). lia. Qed.

(** The valleys that [check_valleys] looks at are the ones at the position
    of the peak and at the position before. *)
Lemma valley_right_position lo ps vs (c : nat) peak vr :
  alternate lo ps vs -> ps !! c = Some peak ->
  is_min vr (filter (fun v => v > peak) vs) ->
  vs !! c = Some vr.
Proof.
  intros Ha Hp [Hin Hmin].
  pose proof (alternate_length _ _ _ Ha) as Hlen.
  destruct (lookup_lt_is_Some_2 vs c) as [v Hv].
  { rewrite <- Hlen. by eapply lookup_lt_Some. }
  destruct (alternate_order _ _ _ Ha c c peak v) as (_ & _ & H3 & _).
  specialize (H3 Hp Hv ltac:(lia)).
  assert (vr <= v) as Hle.
  { apply Hmin. apply list_elem_of_filter. split; [lia|]. by eapply list_elem_of_lookup_2. }
  apply list_elem_of_filter in Hin as [Hgt Hin].
  apply list_elem_of_lookup in Hin as [j Hj].
  destruct (Nat.lt_trichotomy j c) as [Hjc|[->|Hjc]]; [| done |].
  - destruct (alternate_order _ _ _ Ha j c vr peak) as (_ & _ & _ & H4).
    specialize (H4 Hj Hp Hjc). lia.
  - destruct (alternate_order _ _ _ Ha c j v vr) as (_ & H2 & _ & _).
    specialize (H2 Hv Hj Hjc). lia.
Qed.

Lemma valley_left_position lo ps vs (c : nat) peak vl :
  alternate lo ps vs -> ps !! c = Some peak ->
  is_max vl (filter (fun v => v < peak) vs) ->
  (0 < c)%nat /\ vs !! (c - 1)%nat = Some vl.
Proof.
  intros Ha Hp [Hin Hmax].
  pose proof (alternate_length _ _ _ Ha) as Hlen.
  pose proof (lookup_lt_Some _ _ _ Hp) as Hc.
  apply list_elem_of_filter in Hin as [Hlt Hin].
  apply list_elem_of_lookup in Hin as [j Hj].
  assert (j < c)%nat as Hjc.
  { destruct (Nat.lt_ge_cases j c) as [?|Hge]; [done|].
    destruct (alternate_order _ _ _ Ha c j peak vl) as (_ & _ & H3 & _).
    specialize (H3 Hp Hj Hge). lia. }
  split; [lia|].
  destruct (lookup_lt_is_Some_2 vs (c - 1)) as [w Hw]; [lia|].
  destruct (alternate_order _ _ _ Ha (c - 1) c w peak) as (_ & _ & _ & H4).
  specialize (H4 Hw Hp ltac:(lia)).
  assert (w <= vl) as Hle.
  { apply Hmax. apply list_elem_of_filter. split; [lia|]. by eapply list_elem_of_lookup_2. }
  destruct (Nat.lt_trichotomy j (c - 1)) as [Hlt'|[->|?]]; [|done|lia].
  destruct (alternate_order _ _ _ Ha j (c - 1) vl w) as (_ & H2 & _ & _).
  specialize (H2 Hj Hw Hlt'). lia.
Qed.

Lemma no_left_valley lo ps vs (c : nat) peak mv :
  alternate lo ps vs -> ps !! c = Some peak ->
  is_min mv vs -> peak < mv -> c = 0%nat.
Proof.
  intros Ha Hp [_ Hmin] Hlt.
  pose proof (alternate_length _ _ _ Ha) as Hlen.
  pose proof (lookup_lt_Some _ _ _ Hp) as Hc.
  destruct c as [|c]; [done|]. exfalso.
  destruct (lookup_lt_is_Some_2 vs c) as [w Hw]; [lia|].
  destruct (alternate_order _ _ _ Ha c (S c) w peak) as (_ & _ & _ & H4).
  specialize (H4 Hw Hp ltac:(lia)).
  specialize (Hmin w ltac:(by eapply list_elem_of_lookup_2)). lia.
Qed.

(** The peak removed next to a valley is not before the position of that
    valley. *)
Lemma removed_peak_position lo ps vs (jr j : nat) v q :
  alternate lo ps vs -> vs !! jr = Some v -> ps !! j = Some q ->
  is_max q (filter (fun p => p < v) ps) \/ is_min q (filter (fun p => p > v) ps) ->
  (jr <= j)%nat.
Proof.
  intros Ha Hv Hq Hsel.
  pose proof (alternate_length _ _ _ Ha) as Hlen.
  destruct (Nat.le_gt_cases jr j) as [?|Hlt]; [done|]. exfalso.
  destruct Hsel as [[_ Hmax]|[Hin _]].
  - destruct (lookup_lt_is_Some_2 ps jr) as [p0 Hp0].
    { rewrite Hlen. by eapply lookup_lt_Some. }
    destruct (alternate_order _ _ _ Ha jr jr p0 v) as (_ & _ & H3 & _).
    specialize (H3 Hp0 Hv ltac:(lia)).
    assert (p0 <= q) as Hle.
    { apply Hmax. apply list_elem_of_filter. split; [lia|].
      by eapply list_elem_of_lookup_2. }
    destruct (alternate_order _ _ _ Ha j jr q p0) as (H1 & _ & _ & _).
    specialize (H1 Hq Hp0 Hlt). lia.
  - apply list_elem_of_filter in Hin as [Hgt _].
    destruct (alternate_order _ _ _ Ha j jr q v) as (_ & _ & H3 & _).
    specialize (H3 Hq Hv ltac:(lia)). lia.
Qed.

(** Filtering leaves a prefix on which the predicate holds in place. *)
Lemma filter_lookup_prefix (P : Z -> Prop) `{!forall x, Decision (P x)}
    (l : list Z) (m : nat) :
  (forall (j : nat) x, (j < m)%nat -> l !! j = Some x -> P x) ->
  forall k : nat, (k < m)%nat -> filter P l !! k = l !! k.
Proof.
  intros Hall k Hk.
  rewrite <- (take_drop m l) at 1. rewrite filter_app.
  rewrite (filter_all P (take m l)).
  2:{ apply Forall_lookup. intros j x Hj.
      apply lookup_take_Some in Hj as [Hj ?]. by eapply Hall. }
  destruct (Nat.lt_ge_cases k (length l)) as [Hlt|Hge].
  - rewrite lookup_app_l by (rewrite length_take; lia).
    by rewrite lookup_take_lt.
  - rewrite drop_ge by lia. rewrite filter_nil, app_nil_r.
    rewrite take_ge by lia. done.
Qed.

Lemma check_valleys_inv signal test vs peak fl vl fr vr :
  check_valleys signal test vs peak = Ok (fl, vl, fr, vr) ->
  is_min vr (filter (fun v => v > peak) vs) /\
  fr = negb (test signal peak vr) /\
  exists mv, is_min mv vs /\
    ((peak < mv /\ fl = false) \/
     (mv <= peak /\ is_max vl (filter (fun v => v < peak) vs) /\
      fl = negb (test signal peak vl))).
Proof.
  unfold check_valleys. intros H.
  apply bind_ok in H as (mv & Hmv & H).
  apply bind_ok in H as ([fl' vl'] & Hl & H).
  apply bind_ok in H as (vr' & Hvr & H).
  injection H as <- <- <- <-.
  split; [by apply np_min_ok|]. split; [done|].
  exists mv. split; [by apply np_min_ok|].
  destruct (Z.ltb_spec peak mv) as [Hlt|Hge].
  - injection Hl as <- <-. left. done.
  - apply bind_ok in Hl as (vl'' & Hvl & Hl). injection Hl as <- <-.
    right. split; [done|]. split; [by apply np_max_ok|done].
Qed.

Lemma valley_to_remove_inv signal fl fr vl vr v :
  valley_to_remove_of signal fl fr vl vr = Ok v ->
  (v = vl /\ fl = true) \/ v = vr.
Proof.
  unfold valley_to_remove_of. destruct fl, fr; cbn [andb].
  - intros H. apply bind_ok in H as (sl & _ & H).
    apply bind_ok in H as (sr & _ & H). injection H as <-.
    destruct (Qgtb sl sr); [left|right]; done.
  - intros [= <-]. left. done.
  - intros [= <-]. right. done.
  - intros [= <-]. right. done.
Qed.

Lemma remove_peak_inv signal ps v ps' :
  remove_peak signal ps v = Ok ps' ->
  exists q, ps' = filter (fun p => p <> q) ps /\
    (is_max q (filter (fun p => p < v) ps) \/
     is_min q (filter (fun p => p > v) ps)).
Proof.
  unfold remove_peak. intros H.
  apply bind_ok in H as (lp & Hlp & H). apply np_max_ok in Hlp.
  apply bind_ok in H as (mp & _ & H).
  destruct (mp <? v).
  { injection H as <-. exists lp. split; [done|]. by left. }
  apply bind_ok in H as (rp & Hrp & H). apply np_min_ok in Hrp.
  apply bind_ok in H as (sl & _ & H).
  apply bind_ok in H as (sr & _ & H).
  destruct (Qltb sl sr); injection H as <-.
  - exists lp. split; [done|]. by left.
  - exists rp. split; [done|]. by right.
Qed.

(** A pass through the loop keeps the peaks before the cursor accepted. *)
Lemma loop_body_accepted signal test s s' :
  loop_invariant signal s -> accepted signal test s ->
  loop_body signal test s = Ok (Continue s') ->
  accepted signal test s'.
Proof.
  intros (Ha & _ & _ & Hc) Hacc. unfold loop_body.
  destruct (Z.ltb_spec (Z.of_nat (length (peaks s)) - 1) (now_at_peak s)) as [?|Hlt];
    [done|].
  intros H. apply bind_ok in H as (peak & Hpeak & H). cbn [isnan] in H.
  apply py_index_nonneg in Hpeak as [Hpeak _]; [|lia].
  set (c := Z.to_nat (now_at_peak s)) in *.
  apply bind_ok in H as ([[[fl vl] fr] vr] & Hchk & H).
  apply check_valleys_inv in Hchk as (Hvr & Hfr & mv & Hmv & Hleft).
  pose proof (valley_right_position _ _ _ _ _ _ Ha Hpeak Hvr) as Hvrc.
  destruct (fl || fr) eqn:Hfail; cbn [negb] in H.
  - (* a valley and a peak are removed *)
    apply bind_ok in H as (v & Hv & H).
    apply bind_ok in H as (ps' & Hrm & H). injection H as <-.
    apply valley_to_remove_inv in Hv.
    apply remove_peak_inv in Hrm as (q & -> & Hq).
    assert (exists jr : nat, (c - 1 <= jr)%nat /\ valleys s !! jr = Some v)
      as (jr & Hjr & Hvjr).
    { destruct Hv as [[-> ->] | ->].
      - destruct Hleft as [[_ ?]|(_ & Hvl & _)]; [done|].
        destruct (valley_left_position _ _ _ _ _ _ Ha Hpeak Hvl) as [? Hvlc].
        exists (c - 1)%nat. done.
      - exists c. split; [lia|done]. }
    intros k Hk. cbn [now_at_peak peaks valleys] in *.
    assert (Hkc : (k < c - 1)%nat) by lia.
    assert (Hps : forall i : nat, (i < c - 1)%nat ->
              filter (fun p => p <> q) (peaks s) !! i = peaks s !! i).
    { apply filter_lookup_prefix. intros j x Hj Hx ->.
      pose proof (removed_peak_position _ _ _ _ _ _ _ Ha Hvjr Hx Hq). lia. }
    assert (Hvs : forall i : nat, (i < c - 1)%nat ->
              filter (fun w => w <> v) (valleys s) !! i = valleys s !! i).
    { apply filter_lookup_prefix. intros j x Hj Hx ->.
      destruct (alternate_order _ _ _ Ha j jr v v) as (_ & H2 & _ & _).
      specialize (H2 Hx Hvjr ltac:(lia)). lia. }
    unfold passes. rewrite Hps by lia. rewrite Hvs by lia.
    intros p Hp. destruct (Hacc k ltac:(lia) p Hp) as [Hr Hl].
    split; [exact Hr|]. intros w Hk0. rewrite Hvs by lia. by apply Hl.
  - (* the peak passes and the cursor moves on *)
    injection H as <-. apply orb_false_iff in Hfail as [-> ->].
    intros k Hk. cbn [now_at_peak peaks valleys] in *.
    destruct (decide (k = c)) as [->|Hne]; [|apply Hacc; lia].
    intros p Hp. rewrite Hpeak in Hp. injection Hp as <-. split.
    + intros v Hv. rewrite Hvrc in Hv. injection Hv as <-.
      by destruct (test signal peak vr).
    + intros v Hc0 Hv.
      destruct Hleft as [[Hlt' _]|(_ & Hvl & Hfl)].
      * pose proof (no_left_valley _ _ _ _ _ _ Ha Hpeak Hmv Hlt'). lia.
      * destruct (valley_left_position _ _ _ _ _ _ Ha Hpeak Hvl) as [_ Hvlc].
        rewrite Hvlc in Hv. injection Hv as <-.
        by destruct (test signal peak vl).
Qed.

Lemma refine_loop_accepted signal test : forall fuel s ps vs,
  loop_invariant signal s -> accepted signal test s ->
  refine_loop fuel signal test s = Some (Ok (ps, vs)) ->
  length ps = length vs /\ forall k, passes signal test ps vs k.
Proof.
  induction fuel as [|fuel IH]; intros s ps vs Hinv Hacc; cbn [refine_loop]; [done|].
  destruct (loop_body_ok signal test s Hinv)
    as [[Hc ->]|(Hc & s' & Hb & Hinv' & _)].
  - rewrite !filter_all by (apply Forall_true; done). intros [= <- <-].
    split; [eapply alternate_length; apply Hinv|].
    intros k p Hp. apply Hacc; [|done].
    apply lookup_lt_Some in Hp. lia.
  - rewrite Hb. apply IH; [done|]. exact (loop_body_accepted _ _ _ _ Hinv Hacc Hb).
Qed.

Lemma refined_from_candidates signal test cps cvs ps vs :
  (length derivative_kernel <= length signal)%nat ->
  candidates signal = Ok (cps, cvs) -> (2 <= length cps)%nat ->
  refine_loop (loop_fuel (length cps)) signal test (mkState cps cvs 0)
  = Some (Ok (ps, vs)) ->
  length ps = length vs /\ forall k, passes signal test ps vs k.
Proof.
  intros Hlen Hc H2. apply refine_loop_accepted.
  - apply (reachable_invariant signal test). by apply reach_start.
  - intros k Hk. cbn [now_at_peak] in Hk. lia.
Qed.

(** X25: when the refinement loop has run, that is, when there were at
    least two candidate peaks, every peak returned passes the test against
    the valleys next to it on either side: the valley returned at the same
    position and, but for the first peak, the valley at the position
    before. *)
Theorem refined_peaks_pass_the_test (signal : list Q)
    (test_function : list Q -> Z -> Z -> bool) (cps cvs ps vs : list Z)
    (k : nat) (p v : Z) :
  (length derivative_kernel <= length signal)%nat ->
  candidates signal = Ok (cps, cvs) -> (2 <= length cps)%nat ->
  peaks_and_valleys signal test_function = Some (Ok (ps, vs)) ->
  ps !! k = Some p ->
  vs !! k = Some v \/ ((0 < k)%nat /\ vs !! (k - 1)%nat = Some v) ->
  test_function signal p v = true.
Proof.
  intros Hlen Hc H2 [(? & _)|(_ & cps' & cvs' & Hc' & H)]%peaks_and_valleys_cases;
    [lia|].
  rewrite Hc in Hc'. injection Hc' as <- <-.
  destruct H as [(? & _)|(_ & H)]; [lia|].
  destruct (refined_from_candidates _ _ _ _ _ _ Hlen Hc H2 H) as [_ Hpass].
  intros Hp [Hv|[Hk Hv]]; destruct (Hpass k p Hp) as [Hr Hl]; eauto.
Qed.

Lemma refined_peaks_pass_the_test_witness :
  accept_only_at 12 three_bumps 12 21 = true.
Proof.
  apply (refined_peaks_pass_the_test three_bumps (accept_only_at 12)
           [9; 12; 17] [10; 14; 21] [12] [21] 0 12 21);
    [cbn; lia|by vm_compute|cbn; lia|by vm_compute|reflexivity|by left].
Defined.

(** X26: with a test that rejects every peak the refinement returns no
    peak and no valley, unless there are fewer than two candidate peaks:
    then the loop is skipped and the candidates are returned untested. *)
Theorem rejecting_test_empties (signal : list Q)
    (test_function : list Q -> Z -> Z -> bool) (ps vs : list Z) :
  (forall p v, test_function signal p v = false) ->
  peaks_and_valleys signal test_function = Some (Ok (ps, vs)) ->
  (ps = [] /\ vs = []) \/
  ((length ps < 2)%nat /\ candidates signal = Ok (ps, vs)).
Proof.
  intros Hrej [(_ & -> & ->)|(Hlen & cps & cvs & Hc & H)]%peaks_and_valleys_cases;
    [by left|].
  destruct H as [(? & -> & ->)|(H2 & H)]; [by right|]. left.
  destruct (refined_from_candidates _ _ _ _ _ _ Hlen Hc H2 H) as [Hl Hpass].
  destruct ps as [|p ps].
  - destruct vs; [done|discriminate].
  - destruct vs as [|v vs]; [discriminate|].
    destruct (Hpass 0%nat p eq_refl) as [Hr _].
    specialize (Hr v eq_refl). rewrite Hrej in Hr. done.
Qed.

Lemma rejecting_test_empties_witness :
  let ps : list Z := [] in
  let vs : list Z := [] in
  (ps = [] /\ vs = []) \/
  ((length ps < 2)%nat /\ candidates three_bumps = Ok (ps, vs)).
Proof.
  apply (rejecting_test_empties three_bumps (fun _ _ _ => false) [] []);
    [done|by vm_compute].
Defined.

End RefinerOutcome.

Module ClustererFacts.
Import EventClusterer ClustererSpec.

Lemma Sorted_lookup_le (x : list Z) : forall (a b : nat) (xa xb : Z),
  Sorted Z.le x -> (a <= b)%nat ->
  x !! a = Some xa -> x !! b = Some xb -> xa <= xb.
Proof.
  intros a b xa xb Hs. apply Sorted_StronglySorted in Hs; [|intros ???; lia].
  revert a b. induction Hs as [|h t Ht IH Hh]; intros a b Hab; [done|].
  destruct a as [|a], b as [|b]; cbn [lookup list_lookup]; try lia.
  - intros [= <-] [= <-]. lia.
  - intros [= <-] Hb. rewrite Forall_lookup in Hh. by eapply Hh.
  - apply IH. lia.
Qed.


















(** Where the left extension is as long as the window, the ranges that
    the main loop builds touch: each starts where the one before it
    stops. *)
Example sliding_window_ranges_touch :
  window_loop (window_fuel 4) [0; 10; 20; 30] 5 0 (-5) 5 (mkWindow [] 0 0)
    = Some (Ok (mkWindow [(-5, 5); (5, 15); (15, 25)] 3 4)) /\
  sliding_window [0; 10; 20; 30] 5 0 (-5) 5
    = Some (Ok [(-5, 5); (5, 15); (15, 25); (25, 35)]).
Proof. split; reflexivity. Qed.

(** The range that the flush appends is not compared with the one before
    it: here the window is longer than the left extension, and the second
    range starts inside the first. *)
Example sliding_window_flush_overlaps :
  window_loop (window_fuel 7) [0; 1; 2; 3; 20; 21; 22] 10 2 0 100 (mkWindow [] 0 0)
    = Some (Ok (mkWindow [(0, 103)] 4 7)) /\
  sliding_window [0; 1; 2; 3; 20; 21; 22] 10 2 0 100
    = Some (Ok [(0, 103); (20, 122)]).
Proof. split; reflexivity. Qed.

(** The scenario of the specification: two clusters, each extended by the
    margins. *)
Example sliding_window_two_clusters :
  sliding_window [0; 1; 2; 50; 51; 52; 53] 5 2 (-1) 1
    = Some (Ok [(-1, 3); (49, 54)]).
Proof. reflexivity. Qed.

End ClustererFacts.

Module ClustererEdges.
Import EventClusterer ClustererSpec ClustererFacts.

(** With a negative window the start of the range to test runs ahead of
    its end, until it leaves the array. *)
Lemma window_loop_negative_window x window multiplicity left right :
  window < 0 ->
  forall fuel s,
    0 <= j s < Z.of_nat (length x) -> j s <= i s <= Z.of_nat (length x) ->
    2 * Z.of_nat (length x) + 1 <= Z.of_nat fuel + i s + j s ->
    window_loop fuel x window multiplicity left right s = Some (Raise IndexError).
Proof.
  intros Hw. induction fuel as [|fuel IH]; intros s Hj Hi Hfuel; [lia|].
  cbn [window_loop].
  destruct (Z.ltb_spec (j s) (Z.of_nat (length x))) as [_|?]; [|lia].
  unfold window_body.
  destruct (py_index_in_range x (j s)) as (xj & -> & Hxj); [lia|].
  rewrite bind_Ok.
  destruct (Z.eq_dec (i s) (Z.of_nat (length x))) as [Hin|Hin].
  { destruct (py_index x (i s)) as [xi|e] eqn:E.
    - apply py_index_nonneg in E; lia.
    - apply py_index_raises in E as ->. done. }
  destruct (py_index_in_range x (i s)) as (xi & -> & Hxi); [lia|].
  rewrite bind_Ok.
  destruct (Z.ltb_spec window (xj - xi)) as [Hgt|Hle].
  - assert (exists r, (if multiplicity <? j s - i s
                       then xlast ← py_index x (j s - 1);
                            match last (ranges s) with
                            | Some (_, stop) =>
                                if xi <? stop + window
                                then Ok (set_last_stop (ranges s) (xlast + right))
                                else Ok (ranges s ++ [(xi + left, xlast + right)])
                            | None => Ok (ranges s ++ [(xi + left, xlast + right)])
                            end
                       else Ok (ranges s)) = Ok r) as [r ->].
    { destruct (multiplicity <? j s - i s); [|eauto].
      assert (exists xl, py_index x (j s - 1) = Ok xl) as [xl ->].
      { apply py_index_ok_iff. lia. }
      rewrite bind_Ok. destruct (last (ranges s)) as [[? stop]|]; [|eauto].
      destruct (xi <? stop + window); eauto. }
    rewrite bind_Ok. apply IH; cbn [i j]; lia.
  - assert (i s <> j s) as Hne.
    { intros E. rewrite E in Hxi. rewrite Hxi in Hxj. injection Hxj as ->. lia. }
    apply IH; cbn [i j]; lia.
Qed.

(** While every timestamp is within the window of the first one, the end
    of the range to test moves to the end of the array. *)
Lemma window_loop_single_burst x window multiplicity left right x0 :
  x !! 0%nat = Some x0 ->
  Forall (fun t => t - x0 <= window) x ->
  forall (k fuel : nat) (jj : Z),
    0 <= jj -> jj + Z.of_nat k = Z.of_nat (length x) -> (k < fuel)%nat ->
    window_loop fuel x window multiplicity left right (mkWindow [] 0 jj)
    = Some (Ok (mkWindow [] 0 (Z.of_nat (length x)))).
Proof.
  intros H0 Hall. induction k as [|k IH]; intros fuel jj Hjj Hk Hfuel.
  - destruct fuel as [|fuel]; [lia|]. cbn [window_loop j].
    destruct (Z.ltb_spec jj (Z.of_nat (length x))) as [?|_]; [lia|].
    do 3 f_equal. lia.
  - destruct fuel as [|fuel]; [lia|]. cbn [window_loop j].
    destruct (Z.ltb_spec jj (Z.of_nat (length x))) as [_|?]; [|lia].
    unfold window_body. cbn [i j ranges].
    destruct (py_index_in_range x jj) as (xj & -> & Hxj); [lia|].
    destruct (py_index_in_range x 0) as (x0' & -> & Hx0); [lia|].
    change (Z.to_nat 0) with 0%nat in Hx0. rewrite H0 in Hx0. injection Hx0 as <-.
    rewrite !bind_Ok.
    rewrite Forall_forall in Hall.
    assert (xj - x0 <= window) as Hle.
    { apply Hall. by eapply list_elem_of_lookup_2. }
    destruct (Z.ltb_spec window (xj - x0)) as [?|_]; [lia|].
    apply IH; lia.
Qed.

(** X16: with a negative window and timestamps to look at,
    [sliding_window] has no result: it raises [IndexError], whatever the
    multiplicity and the extensions. *)
Theorem sliding_window_negative_window (x : list Z)
    (window multiplicity left right : Z) :
  x <> [] -> window < 0 -> left <= 0 ->
  sliding_window x window multiplicity left right = Some (Raise IndexError).
Proof.
  intros Hne Hw Hl. unfold sliding_window.
  destruct (Z.ltb_spec 0 left) as [?|_]; [lia|].
  assert (0 < Z.of_nat (length x)) by (destruct x; [done|cbn; lia]).
  rewrite (window_loop_negative_window x window multiplicity left right Hw);
    [done|cbn [i j]; lia..|].
  unfold window_fuel. cbn [i j]. lia.
Qed.

Lemma sliding_window_negative_window_witness :
  sliding_window [0; 1; 2; 50; 51] (-1) 2 (-1) 1 = Some (Raise IndexError).
Proof.
  apply (sliding_window_negative_window [0; 1; 2; 50; 51] (-1) 2 (-1) 1);
    [done|lia|lia].
Defined.

(** X17: timestamps in ascending order that all lie within one window of
    the first give one range, from the first timestamp extended by [left]
    to the last one extended by [right], when there are more than
    [multiplicity] of them, and no range otherwise. *)
Theorem sliding_window_single_burst (x : list Z)
    (window multiplicity left right : Z) (x0 xn : Z) :
  Sorted Z.le x -> left <= 0 ->
  head x = Some x0 -> last x = Some xn -> xn - x0 <= window ->
  sliding_window x window multiplicity left right
  = Some (Ok (if multiplicity <? Z.of_nat (length x)
              then [(x0 + left, xn + right)] else [])).
Proof.
  intros Hs Hl H0 Hn Hw. unfold sliding_window.
  destruct (Z.ltb_spec 0 left) as [?|_]; [lia|].
  assert (Hx0 : x !! 0%nat = Some x0) by (by destruct x).
  assert (Hxn : x !! (length x - 1)%nat = Some xn).
  { rewrite last_lookup in Hn.
    by replace (length x - 1)%nat with (Init.Nat.pred (length x)) by lia. }
  assert (Hlen : (0 < length x)%nat) by (destruct x; [done|cbn; lia]).
  assert (Hall : Forall (fun t => t - x0 <= window) x).
  { apply Forall_forall. intros t Ht.
    apply list_elem_of_lookup in Ht as [k Hk].
    pose proof (lookup_lt_Some _ _ _ Hk).
    pose proof (Sorted_lookup_le x k (length x - 1) t xn Hs ltac:(lia) Hk Hxn). lia. }
  rewrite (window_loop_single_burst x window multiplicity left right x0 Hx0 Hall
             (length x) (window_fuel (length x)) 0);
    [|lia|lia|unfold window_fuel; lia].
  unfold flush. cbn [i j ranges]. rewrite Z.sub_0_r.
  destruct (multiplicity <? Z.of_nat (length x)); [|done].
  destruct (py_index_in_range x 0) as (x0' & -> & Hx0'); [lia|].
  change (Z.to_nat 0) with 0%nat in Hx0'. rewrite Hx0 in Hx0'. injection Hx0' as <-.
  destruct (py_index_in_range x (Z.of_nat (length x) - 0 - 1)) as (xn' & Hxn' & Hxn'');
    [lia|].
  rewrite Z.sub_0_r in *.
  rewrite Hxn'.
  replace (Z.to_nat (Z.of_nat (length x) - 1)) with (length x - 1)%nat in Hxn'' by lia.
  rewrite Hxn in Hxn''. injection Hxn'' as <-. done.
Qed.

Lemma sliding_window_single_burst_witness :
  sliding_window [3; 4; 4; 6; 9] 10 2 (-1) 1
  = Some (Ok (if 2 <? Z.of_nat (length [3; 4; 4; 6; 9]) then [(3 + -1, 9 + 1)] else [])).
Proof.
  apply (sliding_window_single_burst [3; 4; 4; 6; 9] 10 2 (-1) 1 3 9);
    [repeat constructor; lia|lia|reflexivity|reflexivity|lia].
Defined.

End ClustererEdges.

Module ErrorFacts.
Import PeakBounds EventClusterer.

Lemma peak_bounds_raises (signal : list Q) (max_idx : Z) (f z : Q) (e : exn) :
  peak_bounds signal max_idx f z = Raise e ->
  (signal = [] /\ e = RuntimeError) \/ (signal <> [] /\ e = IndexError).
Proof.
  unfold peak_bounds. destruct signal as [|x signal]; simpl.
  - intros [= <-]. left. split; reflexivity.
  - intros H. right. split; [done|].
    apply bind_raises in H as [H|(h & _ & H)].
    + by apply py_index_raises in H.
    + by destruct (Qltb h _).
Qed.

Lemma window_body_raises x window multiplicity left right s e :
  window_body x window multiplicity left right s = Raise e -> e = IndexError.
Proof.
  unfold window_body. intros H.
  apply bind_raises in H as [H|(xj & _ & H)]; [by apply py_index_raises in H|].
  apply bind_raises in H as [H|(xi & _ & H)]; [by apply py_index_raises in H|].
  destruct (window <? xj - xi); [|done].
  apply bind_raises in H as [H|(r & _ & H)]; [|done].
  destruct (multiplicity <? j s - i s); [|done].
  apply bind_raises in H as [H|(xl & _ & H)]; [by apply py_index_raises in H|].
  destruct (last (ranges s)) as [[? stop]|]; [|done].
  by destruct (xi <? stop + window).
Qed.

Lemma window_loop_raises fuel x window multiplicity left right s e :
  window_loop fuel x window multiplicity left right s = Some (Raise e) ->
  e = IndexError.
Proof.
  revert s. induction fuel as [|fuel IH]; intros s; simpl; [done|].
  destruct (j s <? _); [|done].
  destruct (window_body _ _ _ _ _ s) as [s'|e'] eqn:E.
  - apply IH.
  - intros [= <-]. by apply window_body_raises in E.
Qed.

Lemma flush_raises x multiplicity left right s e :
  flush x multiplicity left right s = Raise e -> e = IndexError.
Proof.
  unfold flush. destruct (multiplicity <? _); [|done]. intros H.
  apply bind_raises in H as [H|(xi & _ & H)]; [by apply py_index_raises in H|].
  apply bind_raises in H as [H|(xl & _ & H)]; [by apply py_index_raises in H|].
  done.
Qed.

(** C9: [peak_bounds] raises its input-validation error exactly when the
    signal is empty, whatever the other arguments, and returns bounds for
    every non-empty signal and valid peak index; [sliding_window] raises
    its input-validation error exactly when [left] is positive, whatever
    the timestamps. Each check is the first statement of its function. *)
Theorem input_validation_errors
    (signal : list Q) (max_idx : Z) (fraction_of_max zero_level : Q)
    (x : list Z) (window multiplicity left right : Z) :
  (peak_bounds signal max_idx fraction_of_max zero_level = Raise RuntimeError
     <-> signal = []) /\
  (0 <= max_idx < Z.of_nat (length signal) ->
     exists bounds,
       peak_bounds signal max_idx fraction_of_max zero_level = Ok bounds) /\
  (sliding_window x window multiplicity left right = Some (Raise ValueError)
     <-> 0 < left).
Proof.
  split; [|split].
  - split.
    + intros H. apply peak_bounds_raises in H as [[? _]|[_ ?]]; done.
    + by intros ->.
  - intros Hk. unfold peak_bounds.
    destruct signal as [|s0 signal]; [simpl in Hk; lia|].
    destruct (py_index_in_range (s0 :: signal) max_idx Hk) as (h & -> & _).
    simpl. destruct (Qltb h _); eauto.
  - unfold sliding_window. destruct (Z.ltb_spec 0 left) as [Hl|Hl].
    + split; [done|]. done.
    + split; [|lia].
      destruct (window_loop _ _ _ _ _ _ _) as [[s|e]|] eqn:E; [| |done].
      * intros [= H]. by apply flush_raises in H.
      * intros [= ->]. by apply window_loop_raises in E.
Qed.

Lemma input_validation_errors_witness :
  (peak_bounds [-1; 5; -1]%Q 1 (1 # 2) 0 = Raise RuntimeError
     <-> [-1; 5; -1]%Q = []) /\
  (exists bounds, peak_bounds [-1; 5; -1]%Q 1 (1 # 2) 0 = Ok bounds) /\
  (sliding_window [0; 1; 2; 50; 51; 52; 53] 5 2 (-1) 1 = Some (Raise ValueError)
     <-> 0 < -1).
Proof.
  destruct (input_validation_errors [-1; 5; -1]%Q 1 (1 # 2) 0
              [0; 1; 2; 50; 51; 52; 53] 5 2 (-1) 1) as (H1 & H2 & H3).
  split; [exact H1|]. split; [|exact H3].
  apply H2. simpl. lia.
Defined.

End ErrorFacts.

Module DispatcherFacts.
Import Dispatcher DispatcherSpec.
Local Open Scope nat_scope.

Section Facts.
Context {Event : Type}.
Implicit Types (ps : list (list Event)) (c : consumer Event)
  (p : producer Event) (b : nat * payload Event).

Lemma data_blocks_snoc ps : forall start q,
  data_blocks start (ps ++ [q])
  = data_blocks start ps ++ [(start + length ps, Events q)].
Proof.
  induction ps as [|p0 ps IH]; intros start q; cbn [app data_blocks length].
  - by rewrite Nat.add_0_r.
  - rewrite IH. by replace (start + S (length ps)) with (S start + length ps) by lia.
Qed.

Lemma numbered_data_blocks ps : forall start,
  numbered start ps = data_blocks start ps ++ [(start + length ps, NO_MORE_EVENTS)].
Proof.
  induction ps as [|p0 ps IH]; intros start; cbn [app data_blocks numbered length].
  - by rewrite Nat.add_0_r.
  - rewrite IH. by replace (start + S (length ps)) with (S start + length ps) by lia.
Qed.

Lemma numbered_keys_ge ps : forall start n pl,
  (n, pl) ∈ numbered start ps -> start <= n.
Proof.
  induction ps as [|p0 ps IH]; intros start n pl; cbn [numbered].
  - intros [= -> _]%list_elem_of_singleton. lia.
  - intros [[= -> _]|Hin]%elem_of_cons; [lia|].
    apply IH in Hin. lia.
Qed.

Lemma numbered_head ps start pl :
  (start, pl) ∈ numbered start ps ->
  pl = match ps with [] => NO_MORE_EVENTS | p0 :: _ => Events p0 end.
Proof.
  destruct ps as [|p0 ps]; cbn [numbered].
  - by intros [= ->]%list_elem_of_singleton.
  - intros [[= ->]|Hin]%elem_of_cons; [done|].
    apply numbered_keys_ge in Hin. lia.
Qed.

Lemma numbered_NoDup ps : forall start, NoDup ((numbered start ps).*1).
Proof.
  induction ps as [|p0 ps IH]; intros start; cbn [numbered fmap list_fmap].
  - apply NoDup_singleton.
  - constructor; [|apply IH].
    intros [[n pl] [Hn Hin]]%list_elem_of_fmap. cbn in Hn. subst n.
    apply numbered_keys_ge in Hin. lia.
Qed.

(** The producer: its queue holds the data blocks numbered from 0. *)
Lemma write_events_blocks (events : list Event) : forall p ps,
  queue p = data_blocks 0 ps -> next_sequence p = length ps ->
  exists ps',
    queue (foldl write_event p events) = data_blocks 0 ps' /\
    next_sequence (foldl write_event p events) = length ps' /\
    concat ps' ++ pending (foldl write_event p events)
      = concat ps ++ pending p ++ events.
Proof.
  induction events as [|e events IH]; intros p ps Hq Hn; cbn [foldl].
  - exists ps. by rewrite app_nil_r.
  - set (p1 := mkProducer (batch_size p) (pending p ++ [e])
                          (next_sequence p) (queue p)).
    assert (Hw : write_event p e = push_block p1 (Events (pending p ++ [e])) \/
                 write_event p e = p1).
    { unfold write_event. fold p1. destruct (_ =? _)%nat; auto. }
    destruct Hw as [-> | ->]; subst p1.
    + destruct (IH (push_block
                      (mkProducer (batch_size p) (pending p ++ [e])
                                  (next_sequence p) (queue p))
                      (Events (pending p ++ [e])))
                   (ps ++ [pending p ++ [e]])) as (ps' & Hq' & Hn' & Hc').
      * cbn [push_block queue next_sequence]. rewrite data_blocks_snoc, Hq, Hn. reflexivity.
      * cbn [push_block next_sequence]. rewrite length_app, Hn. cbn. lia.
      * exists ps'. split; [done|]. split; [done|]. rewrite Hc'.
        cbn [push_block pending]. rewrite concat_app. cbn [concat].
        by rewrite !app_nil_r, <- !app_assoc.
    + destruct (IH (mkProducer (batch_size p) (pending p ++ [e])
                               (next_sequence p) (queue p)) ps)
        as (ps' & Hq' & Hn' & Hc'); [done..|].
      exists ps'. split; [done|]. split; [done|]. rewrite Hc'.
      cbn [pending]. by rewrite <- !app_assoc.
Qed.

Lemma pushed_numbered (size : nat) (events : list Event) :
  exists ps, pushed size events = numbered 0 ps /\ concat ps = events.
Proof.
  unfold pushed.
  destruct (write_events_blocks events (mkProducer size [] 0 []) [])
    as (ps & Hq & Hn & Hc); [done..|].
  cbn [concat pending app] in Hc.
  set (p := foldl write_event (mkProducer size [] 0 []) events) in *.
  unfold shutdown. destruct (pending p) as [|e0 es] eqn:Hp.
  - exists ps. cbn [push_block queue].
    rewrite numbered_data_blocks, Hq, Hn. split; [done|].
    by rewrite app_nil_r in Hc.
  - exists (ps ++ [e0 :: es]). cbn [push_block queue next_sequence].
    rewrite numbered_data_blocks, data_blocks_snoc, Hq, Hn, length_app.
    cbn [length]. split.
    + rewrite <- !app_assoc. cbn [app Nat.add].
      by replace (length ps + 1) with (S (length ps)) by lia.
    + rewrite concat_app. cbn [concat]. by rewrite app_nil_r.
Qed.

Lemma numbered_has_head ps start :
  exists pl, (start, pl) ∈ numbered start ps.
Proof. destruct ps; eexists; apply list_elem_of_here. Qed.

(** A block that is still to come is not held. *)
Lemma held_fresh c b R ps :
  map_to_list (held c) ++ b :: R ≡ₚ numbered (next_expected c) ps ->
  held c !! b.1 = None.
Proof.
  intros Hperm.
  pose proof (numbered_NoDup ps (next_expected c)) as Hnd.
  rewrite <- Hperm, fmap_app in Hnd.
  apply NoDup_app in Hnd as (_ & Hdisj & _).
  destruct (held c !! b.1) as [pl|] eqn:E; [|done].
  exfalso. apply (Hdisj b.1).
  - apply list_elem_of_fmap. exists (b.1, pl). split; [done|].
    by apply elem_of_map_to_list.
  - apply list_elem_of_fmap. exists b. split; [done|]. apply list_elem_of_here.
Qed.

Lemma drain_spec : forall fuel c ps R,
  size (held c) <= fuel ->
  map_to_list (held c) ++ R ≡ₚ numbered (next_expected c) ps ->
  exists out finished c' ps1 ps2,
    drain fuel c = (out, finished, c') /\ ps = ps1 ++ ps2 /\ out = concat ps1 /\
    if finished then ps2 = [] /\ R = []
    else held c' !! next_expected c' = None /\
         map_to_list (held c') ++ R ≡ₚ numbered (next_expected c') ps2.
Proof.
  induction fuel as [|fuel IH]; intros c ps R Hsize Hperm.
  - exists [], false, c, [], ps. repeat split; [|done].
    assert (held c = ∅) as -> by (apply map_size_empty_inv; lia).
    apply lookup_empty.
  - cbn [drain]. destruct (held c !! next_expected c) as [pl|] eqn:E.
    2:{ exists [], false, c, [], ps. by repeat split. }
    assert (Hin : (next_expected c, pl) ∈ numbered (next_expected c) ps).
    { rewrite <- Hperm. apply elem_of_app. left. by apply elem_of_map_to_list. }
    apply numbered_head in Hin. destruct ps as [|p0 ps]; subst pl.
    + exists [], true, (mkConsumer (S (next_expected c))
                                  (delete (next_expected c) (held c))), [], [].
      repeat split.
      cbn [numbered] in Hperm. apply Permutation_singleton_r in Hperm.
      apply elem_of_map_to_list in E.
      destruct (map_to_list (held c)) as [|x l]; [by apply elem_of_nil in E|].
      cbn [app] in Hperm. injection Hperm as _ Hl.
      by apply app_eq_nil in Hl as [_ ->].
    + destruct (IH (mkConsumer (S (next_expected c))
                               (delete (next_expected c) (held c))) ps R)
        as (out & fin & c' & ps1 & ps2 & Hd & -> & -> & Hfin).
      * cbn [held]. rewrite map_size_delete, E. cbn. lia.
      * cbn [held next_expected numbered] in *.
        apply (Permutation_cons_inv (a := (next_expected c, Events p0))).
        rewrite <- Hperm, app_comm_cons.
        by rewrite (map_to_list_delete _ _ _ E).
      * rewrite Hd. exists (p0 ++ concat ps1), fin, c', (p0 :: ps1), ps2.
        by repeat split.
Qed.

Lemma consume_spec : forall rest c ps missing,
  held c !! next_expected c = None ->
  map_to_list (held c) ++ rest ++ missing ≡ₚ numbered (next_expected c) ps ->
  exists out o,
    consume c rest = (out, o) /\
    (missing = [] -> out = concat ps /\ o = Terminated) /\
    (missing <> [] -> out `prefix_of` concat ps /\ o = Waiting).
Proof.
  induction rest as [|b rest IH]; intros c ps missing Hnone Hperm.
  - exists [], Waiting. split; [done|]. split.
    + intros ->. exfalso. cbn [app] in Hperm. rewrite app_nil_r in Hperm.
      destruct (numbered_has_head ps (next_expected c)) as (pl & Hin).
      rewrite <- Hperm in Hin. apply elem_of_map_to_list in Hin. congruence.
    + intros _. split; [apply prefix_nil|done].
  - cbn [consume]. unfold on_block.
    change ((b :: rest) ++ missing) with (b :: rest ++ missing) in Hperm.
    destruct (Nat.eqb_spec b.1 (next_expected c)) as [Heq|Hne].
    + destruct b as [n pl]. cbn [fst snd] in *. subst n.
      assert (Hin : (next_expected c, pl) ∈ numbered (next_expected c) ps).
      { rewrite <- Hperm. apply elem_of_app. right. apply list_elem_of_here. }
      apply numbered_head in Hin. destruct ps as [|p0 ps]; subst pl.
      * exists [], Terminated. split; [done|].
        cbn [numbered] in Hperm. apply Permutation_singleton_r in Hperm.
        destruct (map_to_list (held c)) as [|x l]; cbn [app] in Hperm.
        2:{ injection Hperm as _ Hl. by destruct l. }
        injection Hperm as Hl. apply app_eq_nil in Hl as [_ ->].
        split; [done|]. by intros ?.
      * cbn [numbered] in Hperm.
        rewrite <- Permutation_middle in Hperm.
        apply Permutation_cons_inv in Hperm.
        destruct (drain_spec (size (held c))
                    (mkConsumer (S (next_expected c)) (held c)) ps
                    (rest ++ missing))
          as (out1 & fin & c' & ps1 & ps2 & Hd & -> & -> & Hfin);
          [done..|].
        cbn [held] in Hd |- *. rewrite Hd. destruct fin.
        -- destruct Hfin as [-> Hrest].
           apply app_eq_nil in Hrest as [-> ->].
           exists (p0 ++ concat ps1), Terminated. split; [done|].
           split; [|by intros ?]. intros _.
           by rewrite app_nil_r.
        -- destruct Hfin as [Hnone' Hperm'].
           destruct (IH c' ps2 missing Hnone' Hperm') as (out2 & o & -> & H1 & H2).
           exists ((p0 ++ concat ps1) ++ out2), o. split; [done|].
           cbn [concat]. rewrite concat_app, <- app_assoc. split.
           ++ intros Hm. destruct (H1 Hm) as [-> ->]. done.
           ++ intros Hm. destruct (H2 Hm) as [Hpre ->]. split; [|done].
              by do 2 apply prefix_app.
    + pose proof (held_fresh c b (rest ++ missing) ps Hperm) as Hfresh.
      destruct (IH (mkConsumer (next_expected c) (<[b.1:=b.2]> (held c)))
                  ps missing) as (out & o & -> & H1 & H2).
      * cbn [held next_expected]. by rewrite lookup_insert_ne.
      * cbn [held next_expected].
        rewrite map_to_list_insert by done.
        rewrite <- Hperm, <- Permutation_middle. by destruct b.
      * exists out, o. split; [done|]. split; assumption.
Qed.
End Facts.

(** C1: whatever the batch size and the events written before the
    shutdown, and in whatever order the blocks pushed arrive, the consumer
    yields exactly the events written, in the order written, and then
    terminates; it does not terminate before the last block has arrived:
    after any shorter run of arrivals it has yielded a prefix of the
    events and waits. *)
Theorem ordered_consumer {Event : Type} (size : nat) (events : list Event)
    (arrivals : list (nat * payload Event)) :
  arrivals ≡ₚ pushed size events ->
  get_events arrivals = (events, Terminated) /\
  forall n, n < length arrivals ->
    exists out, get_events (take n arrivals) = (out, Waiting) /\
                out `prefix_of` events.
Proof.
  intros Hperm. destruct (pushed_numbered size events) as (ps & Hps & <-).
  rewrite Hps in Hperm. unfold get_events. split.
  - destruct (consume_spec arrivals (mkConsumer 0 ∅) ps [])
      as (out & o & -> & H1 & _).
    + apply lookup_empty.
    + cbn [held next_expected]. by rewrite map_to_list_empty, app_nil_r.
    + by destruct (H1 eq_refl) as [-> ->].
  - intros n Hn.
    destruct (consume_spec (take n arrivals) (mkConsumer 0 ∅) ps (drop n arrivals))
      as (out & o & -> & _ & H2).
    + apply lookup_empty.
    + cbn [held next_expected]. by rewrite map_to_list_empty, take_drop.
    + destruct H2 as [Hpre ->].
      * intros Hd. apply (f_equal length) in Hd.
        rewrite length_drop in Hd. cbn in Hd. lia.
      * by exists out.
Qed.

(** The scenario of the test: events 0..21 in batches of 10, pulled in the
    order 2, 0, 1, 3. *)
Lemma ordered_consumer_witness :
  let arrivals :=
    [(2, Events [20; 21]); (0, Events (seq 0 10)); (1, Events (seq 10 10));
     (3, NO_MORE_EVENTS)] in
  pushed 10 (seq 0 22)
    = [(0, Events (seq 0 10)); (1, Events (seq 10 10)); (2, Events [20; 21]);
       (3, NO_MORE_EVENTS)] /\
  get_events arrivals = (seq 0 22, Terminated) /\
  forall n, n < length arrivals ->
    exists out, get_events (take n arrivals) = (out, Waiting) /\
                out `prefix_of` seq 0 22.
Proof.
  intros arrivals. split; [reflexivity|].
  apply (ordered_consumer 10 (seq 0 22) arrivals).
  change (pushed 10 (seq 0 22)) with
    [(0, Events (seq 0 10)); (1, Events (seq 10 10)); (2, Events [20; 21]);
     (3, @NO_MORE_EVENTS nat)].
  unfold arrivals.
  etrans; [apply Permutation_swap|]. apply Permutation_skip, Permutation_swap.
Defined.

(** The pull of the test: twenty events in blocks 8..19, 0..4 and 5..7,
    queued in the order 2, 0, 1 and followed by the sentinel. *)
Example ordered_pull_of_the_test :
  get_events
    [(2, Events (seq 8 12)); (0, Events (seq 0 5)); (1, Events (seq 5 3));
     (3, NO_MORE_EVENTS)]
  = (seq 0 20, Terminated).
Proof. vm_compute. reflexivity. Qed.

End DispatcherFacts.

Module PeakProcessingFacts.
Import SignalMath PeakBounds PeakProcessing PeakProcessingSpec SignalMathFacts.

Lemma sorted_of_Permutation (l l' : list Z) : l ≡ₚ l' -> sorted l = sorted l'.
Proof.
  intros Hp. apply (StronglySorted_unique Z.le).
  - apply Sorted_StronglySorted; [intros ???; lia|]. apply sorted_is_Sorted.
  - apply Sorted_StronglySorted; [intros ???; lia|]. apply sorted_is_Sorted.
  - by rewrite !sorted_Permutation.
Qed.

Lemma sorted_of_Sorted_Permutation (l l' : list Z) :
  Sorted Z.le l -> l ≡ₚ l' -> sorted l' = l.
Proof.
  intros Hs Hp. rewrite <- (sorted_of_Permutation _ _ Hp). by apply sorted_Sorted.
Qed.

Lemma pairs_bounds_of (regions : list (Z * Z)) : pairs (bounds_of regions) = regions.
Proof.
  induction regions as [|[a b] regions IH]; [done|].
  cbn. f_equal. exact IH.
Qed.

Lemma length_pairs (l : list Z) : length (pairs l) = Nat.div2 (length l).
Proof.
  assert (H : forall (n : nat) (l : list Z), (length l <= n)%nat ->
                length (pairs l) = Nat.div2 (length l)).
  { clear l. induction n as [|n IH]; intros [|a [|b l]] Hl; cbn in *; try done; try lia.
    f_equal. apply IH. lia. }
  by apply (H (length l)).
Qed.

(** The bounds of the gaps are in ascending order and are the bounds that
    [free_regions] sorts. *)
Lemma gaps_bounds (peaks : list Peak) : forall lo hi,
  in_order lo hi peaks ->
  Sorted Z.le (bounds_of (gaps lo hi peaks)) /\
  bounds_of (gaps lo hi peaks) ≡ₚ (lo :: map left_ peaks) ++ (map right_ peaks ++ [hi]) /\
  head (bounds_of (gaps lo hi peaks)) = Some lo.
Proof.
  induction peaks as [|p peaks IH]; intros lo hi; cbn [in_order gaps map].
  - intros Hle. cbn. split; [|done]. repeat constructor. done.
  - intros (Hl & Hlr & Ho). destruct (IH _ _ Ho) as (Hs & Hp & Hh).
    split; [|split; [|done]].
    + change (bounds_of ((lo, left_ p) :: gaps (right_ p) hi peaks))
        with (lo :: left_ p :: bounds_of (gaps (right_ p) hi peaks)).
      constructor; [|by constructor].
      constructor; [done|].
      destruct (bounds_of (gaps (right_ p) hi peaks)) as [|b bs]; [done|].
      injection Hh as ->. by constructor.
    + change (bounds_of ((lo, left_ p) :: gaps (right_ p) hi peaks))
        with (lo :: left_ p :: bounds_of (gaps (right_ p) hi peaks)).
      rewrite Hp. cbn [app]. apply Permutation_skip, Permutation_skip.
      apply Permutation_middle.
Qed.

(** X18: [free_regions] returns one region more than the event has
    peaks, and the regions do not depend on the order in which the peaks
    are listed. *)
Theorem free_regions_count (event : Event) (peaks' : list Peak) :
  event_peaks event ≡ₚ peaks' ->
  length (free_regions event) = S (length (event_peaks event)) /\
  free_regions (mkEvent peaks' (event_length event)) = free_regions event.
Proof.
  intros Hp. split.
  - unfold free_regions. rewrite length_pairs.
    rewrite (Permutation_length (sorted_Permutation _)), length_app.
    rewrite !(Permutation_length (sorted_Permutation _)).
    cbn [length]. rewrite length_app, !length_map. cbn [length].
    replace (S (length (event_peaks event)) + (length (event_peaks event) + 1))%nat
      with (2 * S (length (event_peaks event)))%nat by lia.
    apply Nat.div2_double.
  - unfold free_regions. cbn [event_peaks event_length]. f_equal.
    apply sorted_of_Permutation.
    rewrite !sorted_Permutation. by rewrite Hp.
Qed.

Lemma free_regions_count_witness :
  let p1 := mkPeak 12 5 10 20 30 in
  let p2 := mkPeak 44 7 40 50 60 in
  length (free_regions (mkEvent [p2; p1] 100)) = S (length [p2; p1]) /\
  free_regions (mkEvent [p1; p2] 100) = free_regions (mkEvent [p2; p1] 100).
Proof.
  apply (free_regions_count (mkEvent [mkPeak 44 7 40 50 60; mkPeak 12 5 10 20 30] 100)
           [mkPeak 12 5 10 20 30; mkPeak 44 7 40 50 60]).
  apply Permutation_swap.
Defined.

(** X19: for peaks that come one after the other within the waveform,
    listed in any order, the free regions are the gaps between them: from
    the first sample to the first peak, from each peak to the next, and
    from the last peak to the last sample. *)
Theorem free_regions_are_gaps (event : Event) (ordered : list Peak) :
  event_peaks event ≡ₚ ordered ->
  in_order 0 (event_length event - 1) ordered ->
  free_regions event = gaps 0 (event_length event - 1) ordered.
Proof.
  intros Hp Ho. unfold free_regions.
  destruct (gaps_bounds _ _ _ Ho) as (Hs & Hperm & _).
  rewrite (sorted_of_Sorted_Permutation (bounds_of (gaps 0 (event_length event - 1) ordered))).
  - apply pairs_bounds_of.
  - done.
  - rewrite Hperm, !sorted_Permutation. by rewrite Hp.
Qed.

Lemma free_regions_are_gaps_witness :
  free_regions (mkEvent [mkPeak 44 7 40 50 60; mkPeak 12 5 10 20 30] 100)
  = [(0, 10); (20, 40); (50, 99)].
Proof.
  apply (free_regions_are_gaps
           (mkEvent [mkPeak 44 7 40 50 60; mkPeak 12 5 10 20 30] 100)
           [mkPeak 12 5 10 20 30; mkPeak 44 7 40 50 60]).
  - apply Permutation_swap.
  - cbn. lia.
Defined.

End PeakProcessingFacts.

Module MongoIOFacts.
Import PeakBounds MongoIO MongoIOSpec.
Local Open Scope nat_scope.

(** The chunks of size [n] that start at the multiples of [n] below
    [c * n]. *)
Lemma concat_chunks {A : Type} (l : list A) (n c : nat) :
  concat (map (fun k => take n (drop (k * n) l)) (seq 0 c)) = take (c * n) l.
Proof.
  induction c as [|c IH]; [done|].
  rewrite seq_S, map_app, concat_app, IH. cbn [map concat plus].
  rewrite app_nil_r, take_take_drop. f_equal. lia.
Qed.

Lemma py_range_chunks (len n : Z) :
  (0 < n)%Z -> (0 <= len)%Z ->
  py_range 0 len n
  = Ok (map (fun k => (Z.of_nat k * n)%Z) (seq 0 (Z.to_nat ((len + n - 1) / n)))).
Proof.
  intros Hn Hlen. unfold py_range.
  destruct (Z.eqb_spec n 0) as [?|_]; [lia|].
  destruct (Z.ltb_spec 0 n) as [_|?]; [|lia].
  rewrite Z.sub_0_r. done.
Qed.

Lemma chunk_slice {A : Type} (l : list A) (n : Z) (k : nat) :
  (0 < n)%Z ->
  py_slice_Z l (Z.of_nat k * n) (Z.of_nat k * n + n)
  = take (Z.to_nat n) (drop (k * Z.to_nat n) l).
Proof.
  intros Hn. unfold py_slice_Z, py_slice.
  destruct (Z.ltb_spec (Z.of_nat k * n) 0) as [?|_]; [nia|].
  destruct (Z.ltb_spec (Z.of_nat k * n + n) 0) as [?|_]; [nia|].
  f_equal; [nia|]. f_equal. nia.
Qed.

(** X20: for a positive size [n] the chunks, joined in order, give the
    list back; there are [ceil(len(l) / n)] of them; none is empty or
    longer than [n]; and all but the last have exactly [n] entries. *)
Theorem chunks_partition {A : Type} (l : list A) (n : Z) :
  (0 < n)%Z ->
  exists cs,
    chunks l n = Ok cs /\
    concat cs = l /\
    Z.of_nat (length cs) = ((Z.of_nat (length l) + n - 1) / n)%Z /\
    forall (k : nat) c, cs !! k = Some c ->
      (1 <= Z.of_nat (length c) <= n)%Z /\
      (S k < length cs -> Z.of_nat (length c) = n).
Proof.
  intros Hn. unfold chunks.
  rewrite py_range_chunks by lia. rewrite bind_Ok.
  set (count := Z.to_nat ((Z.of_nat (length l) + n - 1) / n)).
  set (nn := Z.to_nat n).
  assert (Hc : ((Z.of_nat count - 1) * n < Z.of_nat (length l) <= Z.of_nat count * n)%Z).
  { assert (0 <= (Z.of_nat (length l) + n - 1) / n)%Z by (apply Z.div_pos; lia).
    unfold count. rewrite Z2Nat.id by done.
    pose proof (Z.div_mod (Z.of_nat (length l) + n - 1) n ltac:(lia)).
    pose proof (Z.mod_pos_bound (Z.of_nat (length l) + n - 1) n Hn). nia. }
  assert (Hmap : map (fun i => py_slice_Z l i (i + n))
                   (map (fun k => (Z.of_nat k * n)%Z) (seq 0 count))
                 = map (fun k => take nn (drop (k * nn) l)) (seq 0 count)).
  { rewrite map_map. apply map_ext. intros k. by apply chunk_slice. }
  rewrite Hmap. eexists. split; [reflexivity|]. split; [|split].
  - rewrite concat_chunks. apply take_ge. unfold nn. nia.
  - rewrite length_map, length_seq. unfold count.
    rewrite Z2Nat.id; [done|]. apply Z.div_pos; lia.
  - intros k c Hk. rewrite length_map, length_seq.
    rewrite list_lookup_fmap in Hk.
    destruct (seq 0 count !! k) as [k'|] eqn:Hs; [|done].
    apply lookup_seq in Hs as [-> Hlt]. cbn in Hk. injection Hk as <-.
    rewrite length_take, length_drop. unfold nn. split; [nia|]. intros Hlast. nia.
Qed.

Lemma chunks_partition_witness :
  exists cs,
    chunks [1; 2; 3; 4; 5; 6; 7]%Z 3 = Ok cs /\
    concat cs = [1; 2; 3; 4; 5; 6; 7]%Z /\
    Z.of_nat (length cs) = ((Z.of_nat (length [1; 2; 3; 4; 5; 6; 7]%Z) + 3 - 1) / 3)%Z /\
    forall (k : nat) c, cs !! k = Some c ->
      (1 <= Z.of_nat (length c) <= 3)%Z /\
      (S k < length cs -> Z.of_nat (length c) = 3%Z).
Proof.
  apply (chunks_partition [1; 2; 3; 4; 5; 6; 7]%Z 3). lia.
Defined.

(** X21: a size of zero makes [chunks] raise [ValueError], the error of
    [range] with a zero step; with a negative size it yields nothing, so
    the entries of the list are dropped without an error. *)
Theorem chunks_without_positive_size {A : Type} (l : list A) (n : Z) :
  (n = 0%Z -> chunks l n = Raise ValueError) /\
  ((n < 0)%Z -> chunks l n = Ok []).
Proof.
  split.
  - intros ->. reflexivity.
  - intros Hn. unfold chunks, py_range.
    destruct (Z.eqb_spec n 0) as [?|_]; [lia|].
    destruct (Z.ltb_spec 0 n) as [?|_]; [lia|].
    rewrite bind_Ok.
    replace (Z.to_nat ((0 - Z.of_nat (length l) - n - 1) / - n)) with 0; [done|].
    destruct (Z.of_nat (length l)) as [|len|len] eqn:E; [| |lia].
    + rewrite Z.div_small; lia.
    + assert ((0 - Z.pos len - n - 1) / - n <= 0)%Z; [|lia].
      assert ((0 - Z.pos len - n - 1) / - n < 1)%Z; [|lia].
      apply Z.div_lt_upper_bound; lia.
Qed.

Lemma chunks_without_positive_size_witness :
  chunks [1; 2; 3]%Z 0 = Raise ValueError /\ chunks [1; 2; 3]%Z (-2) = Ok [].
Proof.
  destruct (chunks_without_positive_size [1; 2; 3]%Z 0) as [H0 _].
  destruct (chunks_without_positive_size [1; 2; 3]%Z (-2)) as [_ Hn].
  split; [by apply H0|apply Hn; lia].
Defined.

Lemma sampletime_loop_spec (units : list string) : forall num,
  (forall (k : nat) u, units !! k = Some u ->
     (forall j : nat, j < k -> (scaled num j <? 1000)%float = false) ->
     (scaled num k <? 1000)%float = true ->
     sampletime_loop num units = inl (scaled num k, u)) /\
  ((forall j : nat, j < length units -> (scaled num j <? 1000)%float = false) ->
   sampletime_loop num units = inr (scaled num (length units))).
Proof.
  induction units as [|x units IH]; intros num; [done|].
  cbn [sampletime_loop length]. split.
  - intros [|k] u Hu Hlo Hhi.
    + injection Hu as <-. cbn [scaled] in Hhi. by rewrite Hhi.
    + cbn in Hu. pose proof (Hlo 0 ltac:(lia)) as H0. cbn [scaled] in H0.
      rewrite H0. cbn [scaled].
      apply IH; [done| |done].
      intros j Hj. apply (Hlo (S j)). lia.
  - intros Hlo. pose proof (Hlo 0 ltac:(lia)) as H0. cbn [scaled] in H0.
    rewrite H0. cbn [scaled].
    apply IH. intros j Hj. apply (Hlo (S j)). lia.
Qed.

(** X22: the unit that [sampletime_fmt] picks, in the arithmetic of
    doubles. The number is divided by 1000.0, rounding each time, until it
    compares below 1000.0: the unit is the one at the position [k] of the
    first quotient that does, and that quotient is the number shown. When
    none of the first eight quotients compares below 1000.0, for a large
    number or for one that is not a number, the units have run out: what is
    shown is the number after eight divisions, with the unit "s". *)
Theorem sampletime_fmt_picks_unit (num : float) :
  (forall (k : nat) u, time_units !! k = Some u ->
     (forall j : nat, j < k -> (scaled num j <? 1000)%float = false) ->
     (scaled num k <? 1000)%float = true ->
     sampletime_fmt num = (scaled num k, u)) /\
  ((forall j : nat, j < 8 -> (scaled num j <? 1000)%float = false) ->
   sampletime_fmt num = (scaled num 8, "s"%string)).
Proof.
  unfold sampletime_fmt.
  destruct (sampletime_loop_spec time_units num) as [H1 H2]. split.
  - intros k u Hu Hlo Hhi. by rewrite (H1 k u Hu Hlo Hhi).
  - intros Hlo. by rewrite (H2 Hlo).
Qed.

(** 2.5 milliseconds, and the double next below [10 ^ 24]: seven rounded
    divisions bring it to 1000.0 exactly, which is not below 1000.0, so
    that it is shown as 1.0 with the unit "s". *)
Lemma sampletime_fmt_picks_unit_witness :
  sampletime_fmt 2500000 = (2.5%float, "ms"%string) /\
  sampletime_fmt 0x1.a784379d99db4p+79 = (1%float, "s"%string).
Proof.
  split.
  - apply (proj1 (sampletime_fmt_picks_unit 2500000) 2 "ms"%string);
      [reflexivity| |reflexivity].
    intros [|[|j]] Hj; [reflexivity|reflexivity|lia].
  - apply (proj2 (sampletime_fmt_picks_unit 0x1.a784379d99db4p+79)).
    intros j Hj. do 8 (destruct j as [|j]; [reflexivity|]). lia.
Defined.

End MongoIOFacts.
